(** * Spill detection: road calibration and cell state engine

    A shallow embedding of [traffic_manager/cell_manager.py] (class
    [CellMng]) and [road_calibration/__init__.py] (class [Calibrator]),
    with the properties of the design document stated and settled on it.

    Conventions of the embedding
    - Python [int] is [Z]; Python [float] is modelled by exact rationals
      [Q] (rounding is not modelled); [==] is equality of rationals.
    - A method is a computation in a state-and-exception monad: it
      receives the object, and gives back a result (a value or a raised
      exception) together with the object as the call left it. A raised
      exception keeps the mutations made before the raise, as in Python.
    - A vehicle target (a [dict] with the keys laneID, x, y, vx, vy) is a
      record with these five fields; a target that lacks a key is not a
      value of the embedding, and the states such a target leaves are
      covered by the statements made for every state. *)

From Stdlib Require Import ZArith QArith Qabs Qminmax Qround Sorted Lia Lqa.
From stdpp Require Import base option list strings gmap.

Local Open Scope Z_scope.

(** ** Exceptions and the method monad *)

Inductive exn : Set :=
| ZeroDivisionError
| IndexError
| KeyError
| ValueError
| AttributeError
| HelperError.   (* raised inside a helper of road_calibration.algorithms *)

Inductive result (A : Type) : Type :=
| Ok (a : A)
| Raise (e : exn).
Arguments Ok {A} a.
Arguments Raise {A} e.

Definition M (S A : Type) : Type := S → result A * S.

Section Monad.
Context {S : Type}.

Definition ret {A} (a : A) : M S A := λ s, (Ok a, s).
Definition raise {A} (e : exn) : M S A := λ s, (Raise e, s).
Definition bind {A B} (m : M S A) (k : A → M S B) : M S B :=
  λ s, match m s with
       | (Ok a, s') => k a s'
       | (Raise e, s') => (Raise e, s')
       end.
Definition get : M S S := λ s, (Ok s, s).
Definition modify (f : S → S) : M S unit := λ s, (Ok tt, f s).
Definition lift {A} (r : result A) : M S A := λ s, (r, s).

(* [for x in l: body x] *)
Fixpoint forM {A} (l : list A) (body : A → M S unit) : M S unit :=
  match l with
  | [] => ret tt
  | x :: l' => bind (body x) (λ _, forM l' body)
  end.

(* a loop that threads a local variable *)
Fixpoint foldM {A B} (body : B → A → M S B) (b : B) (l : list A) : M S B :=
  match l with
  | [] => ret b
  | x :: l' => bind (body b x) (λ b', foldM body b' l')
  end.

(* [m] keeps [P], whether it returns or raises *)
Definition preserves {A} (P : S → Prop) (m : M S A) : Prop :=
  ∀ s, P s → P (m s).2.

(* [m] does not write the state *)
Definition pure_m {A} (m : M S A) : Prop := ∀ s, (m s).2 = s.

(* when [m] raises, the exception is one of [E] *)
Definition raises_only {A} (E : exn → Prop) (m : M S A) : Prop :=
  ∀ s e s', m s = (Raise e, s') → E e.
End Monad.

Notation "x <- m ;; k" := (bind m (λ x, k))
  (at level 100, m at next level, right associativity).
Notation "m ;;; k" := (bind m (λ _, k))
  (at level 100, right associativity).

(** ** Numbers *)

Definition Qltb (a b : Q) : bool := negb (Qle_bool b a).

(* Python's [a / b] on numbers *)
Definition truediv {S} (a b : Q) : M S Q :=
  if Qeq_bool b 0 then raise ZeroDivisionError else ret (a / b)%Q.

Definition sumQ (l : list Q) : Q := foldl Qplus 0%Q l.
Definition sumZ (l : list Z) : Z := foldl Z.add 0 l.

(* [l[i]] with Python's negative indices *)
Definition py_index (n : nat) (i : Z) : option nat :=
  if bool_decide (0 ≤ i < Z.of_nat n) then Some (Z.to_nat i)
  else if bool_decide (- Z.of_nat n ≤ i < 0) then Some (Z.to_nat (Z.of_nat n + i))
  else None.

(** ** Vehicle targets *)

Module Car.
Record t : Type := mk { laneID : Z; x : Q; y : Q; vx : Q; vy : Q }.
End Car.

(** ** class CellMng *)

Module CellMng.

Record t : Type := mk {
  laneID : Z;
  order : Z;
  valid : bool;
  len : Q;
  start : Q;
  end_ : Q;
  q : Q;
  k : Q;
  v : Q;
  aveCarNum : Q;
  r1s : Q;
  qs : Q;
  r1 : Q;
  r2 : Q;
  vLat : Q;
  dangerTime : Q;
  dangerChange : Q;
  danger : Q;
  dangerTimeTop : Q;
  cache : list (list Car.t);
  cacheRet : Z;   (* a number of frames *)
  r2added : bool
}.

Definition set_q (a : Q) (c : t) : t :=
  mk c.(laneID) c.(order) c.(valid) c.(len) c.(start) c.(end_)
     a c.(k) c.(v) c.(aveCarNum) c.(r1s) c.(qs) c.(r1) c.(r2) c.(vLat)
     c.(dangerTime) c.(dangerChange) c.(danger) c.(dangerTimeTop)
     c.(cache) c.(cacheRet) c.(r2added).
Definition set_k (a : Q) (c : t) : t :=
  mk c.(laneID) c.(order) c.(valid) c.(len) c.(start) c.(end_)
     c.(q) a c.(v) c.(aveCarNum) c.(r1s) c.(qs) c.(r1) c.(r2) c.(vLat)
     c.(dangerTime) c.(dangerChange) c.(danger) c.(dangerTimeTop)
     c.(cache) c.(cacheRet) c.(r2added).
Definition set_v (a : Q) (c : t) : t :=
  mk c.(laneID) c.(order) c.(valid) c.(len) c.(start) c.(end_)
     c.(q) c.(k) a c.(aveCarNum) c.(r1s) c.(qs) c.(r1) c.(r2) c.(vLat)
     c.(dangerTime) c.(dangerChange) c.(danger) c.(dangerTimeTop)
     c.(cache) c.(cacheRet) c.(r2added).
Definition set_aveCarNum (a : Q) (c : t) : t :=
  mk c.(laneID) c.(order) c.(valid) c.(len) c.(start) c.(end_)
     c.(q) c.(k) c.(v) a c.(r1s) c.(qs) c.(r1) c.(r2) c.(vLat)
     c.(dangerTime) c.(dangerChange) c.(danger) c.(dangerTimeTop)
     c.(cache) c.(cacheRet) c.(r2added).
Definition set_r1 (a : Q) (c : t) : t :=
  mk c.(laneID) c.(order) c.(valid) c.(len) c.(start) c.(end_)
     c.(q) c.(k) c.(v) c.(aveCarNum) c.(r1s) c.(qs) a c.(r2) c.(vLat)
     c.(dangerTime) c.(dangerChange) c.(danger) c.(dangerTimeTop)
     c.(cache) c.(cacheRet) c.(r2added).
Definition set_dangerTime (a : Q) (c : t) : t :=
  mk c.(laneID) c.(order) c.(valid) c.(len) c.(start) c.(end_)
     c.(q) c.(k) c.(v) c.(aveCarNum) c.(r1s) c.(qs) c.(r1) c.(r2) c.(vLat)
     a c.(dangerChange) c.(danger) c.(dangerTimeTop)
     c.(cache) c.(cacheRet) c.(r2added).
Definition set_dangerChange (a : Q) (c : t) : t :=
  mk c.(laneID) c.(order) c.(valid) c.(len) c.(start) c.(end_)
     c.(q) c.(k) c.(v) c.(aveCarNum) c.(r1s) c.(qs) c.(r1) c.(r2) c.(vLat)
     c.(dangerTime) a c.(danger) c.(dangerTimeTop)
     c.(cache) c.(cacheRet) c.(r2added).
Definition set_danger (a : Q) (c : t) : t :=
  mk c.(laneID) c.(order) c.(valid) c.(len) c.(start) c.(end_)
     c.(q) c.(k) c.(v) c.(aveCarNum) c.(r1s) c.(qs) c.(r1) c.(r2) c.(vLat)
     c.(dangerTime) c.(dangerChange) a c.(dangerTimeTop)
     c.(cache) c.(cacheRet) c.(r2added).
Definition set_cache (a : list (list Car.t)) (c : t) : t :=
  mk c.(laneID) c.(order) c.(valid) c.(len) c.(start) c.(end_)
     c.(q) c.(k) c.(v) c.(aveCarNum) c.(r1s) c.(qs) c.(r1) c.(r2) c.(vLat)
     c.(dangerTime) c.(dangerChange) c.(danger) c.(dangerTimeTop)
     a c.(cacheRet) c.(r2added).
Definition set_r2added (a : bool) (c : t) : t :=
  mk c.(laneID) c.(order) c.(valid) c.(len) c.(start) c.(end_)
     c.(q) c.(k) c.(v) c.(aveCarNum) c.(r1s) c.(qs) c.(r1) c.(r2) c.(vLat)
     c.(dangerTime) c.(dangerChange) c.(danger) c.(dangerTimeTop)
     c.(cache) c.(cacheRet) a.

(** [__init__]: [r1s = 1 / tt / fps] raises when [tt] or [fps] is zero. *)
Definition init (laneID order : Z) (valid : bool) (len start end_ : Q)
    (tt fps qs r2 vLat : Q) (cacheRet : Z) : result t :=
  if Qeq_bool tt 0 then Raise ZeroDivisionError
  else if Qeq_bool fps 0 then Raise ZeroDivisionError
  else Ok (mk laneID order valid len start end_
              0 0 0 0
              (1 / tt / fps) qs 0 r2 vLat
              0 0 (0 + 0) (1 # 2)
              [] cacheRet false)%Q.

(** [updateCache]: append the frame, drop the oldest one when the cache
    has grown past [cacheRet]. *)
Definition updateCache (cars : list Car.t) : M t unit :=
  modify (λ c, set_cache (c.(cache) ++ [cars]) c) ;;;
  c <- get ;;
  if bool_decide (c.(cacheRet) < Z.of_nat (length c.(cache)))
  then match c.(cache) with
       | [] => raise IndexError
       | _ :: rest => modify (set_cache rest)
       end
  else ret tt.

(* [len(self.cache) if len(self.cache) < self.cacheRet else self.cacheRet] *)
Definition baseT (c : t) : Z :=
  let n := Z.of_nat (length c.(cache)) in
  if bool_decide (n < c.(cacheRet)) then n else c.(cacheRet).

(** [updateTraffic] *)
Definition updateTraffic : M t unit :=
  c <- get ;;
  let cars := concat c.(cache) in
  let ncars := inject_Z (Z.of_nat (length cars)) in
  ave <- truediv ncars (inject_Z (baseT c)) ;;
  modify (set_aveCarNum ave) ;;;
  d <- truediv ave c.(len) ;;
  modify (set_k (d * 1000)%Q) ;;;
  speed <- (if Qeq_bool ave 0 then ret 0%Q
            else truediv (Qabs (sumQ (Car.vy <$> cars))) ncars) ;;
  modify (set_v speed) ;;;
  modify (λ c, set_q (c.(k) * c.(v) * 3.6)%Q c).

(** [updateR1] *)
Definition updateR1 (flow : Q) : M t unit :=
  c <- get ;;
  r <- truediv (c.(r1s) * flow)%Q c.(qs) ;;
  modify (set_r1 r).

(** [updateDanger] *)
Definition updateDanger : M t (bool * Z) :=
  c <- get ;;
  match last c.(cache) with
  | None => raise IndexError
  | Some frame =>
      if negb (bool_decide (length frame = 0%nat)) then
        modify (set_dangerTime 0%Q) ;;;
        modify (set_dangerChange 0%Q) ;;;
        modify (set_danger 0%Q) ;;;
        (* the scan returns at the first car over the lateral threshold *)
        ret (existsb (λ car, Qltb c.(vLat) (Qabs (Car.vx car))) frame,
             c.(order))
      else
        modify (λ c, set_dangerTime (c.(dangerTime) + c.(r1))%Q c) ;;;
        c1 <- get ;;
        (if Qltb c1.(dangerTimeTop) c1.(dangerTime)
         then modify (set_dangerTime c1.(dangerTimeTop))
         else ret tt) ;;;
        modify (λ c, set_danger (c.(dangerTime) + c.(dangerChange))%Q c) ;;;
        ret (false, c.(order))
  end.

(** [updateDangerPassive] *)
Definition updateDangerPassive : M t unit :=
  c <- get ;;
  if negb c.(r2added) then
    modify (λ c, set_dangerChange (c.(dangerChange) + c.(r2))%Q c) ;;;
    modify (set_r2added true) ;;;
    modify (λ c, set_danger (c.(dangerTime) + c.(dangerChange))%Q c)
  else ret tt.

(** [resetCellDetermineStatus] *)
Definition resetCellDetermineStatus : M t unit :=
  modify (set_r2added false).

(** [resetDanger] *)
Definition resetDanger : M t unit :=
  modify (set_dangerTime 0%Q) ;;;
  modify (set_dangerChange 0%Q) ;;;
  modify (set_danger 0%Q).

(** *** Sequences of calls on one cell *)

Inductive call : Type :=
| UpdateCache (cars : list Car.t)
| UpdateTraffic
| UpdateR1 (flow : Q)
| UpdateDanger
| UpdateDangerPassive
| ResetCellDetermineStatus
| ResetDanger.

(* the cell as the call leaves it, whether it returned or raised *)
Definition step (c : t) (o : call) : t :=
  match o with
  | UpdateCache cars => (updateCache cars c).2
  | UpdateTraffic => (updateTraffic c).2
  | UpdateR1 flow => (updateR1 flow c).2
  | UpdateDanger => (updateDanger c).2
  | UpdateDangerPassive => (updateDangerPassive c).2
  | ResetCellDetermineStatus => (resetCellDetermineStatus c).2
  | ResetDanger => (resetDanger c).2
  end.

Definition run_calls (c : t) (os : list call) : t := foldl step c os.

(* the frames handed to [updateCache] by a sequence of calls *)
Definition frames_of (os : list call) : list (list Car.t) :=
  omap (λ o, match o with UpdateCache cars => Some cars | _ => None end) os.

End CellMng.

(** ** Dictionaries

    [xyByLane] is iterated over ([for lane in self.xyByLane]), so it keeps
    Python's insertion order: an association list with unique keys. The
    other dictionaries are only read and written by key: [gmap]. *)

Fixpoint alookup {V} (i : Z) (d : list (Z * V)) : option V :=
  match d with
  | [] => None
  | (j, w) :: d' => if bool_decide (i = j) then Some w else alookup i d'
  end.

(* [d[i] = w]: in place when the key exists, else appended *)
Fixpoint aset {V} (i : Z) (w : V) (d : list (Z * V)) : list (Z * V) :=
  match d with
  | [] => [(i, w)]
  | (j, u) :: d' =>
      if bool_decide (i = j) then (j, w) :: d' else (j, u) :: aset i w d'
  end.

Definition akeys {V} (d : list (Z * V)) : list Z := fst <$> d.

Definition alookupM {S V} (d : list (Z * V)) (i : Z) : M S V :=
  match alookup i d with Some w => ret w | None => raise KeyError end.

Definition lookupM {S V} (d : gmap Z V) (i : Z) : M S V :=
  match d !! i with Some w => ret w | None => raise KeyError end.

Definition indexM {S A} (l : list A) (i : nat) : M S A :=
  match l !! i with Some a => ret a | None => raise IndexError end.

Definition attrM {S A} (o : option A) : M S A :=
  match o with Some a => ret a | None => raise AttributeError end.

(* [max(l)] *)
Definition py_max (l : list Z) : option Z :=
  match l with
  | [] => None
  | a :: l' => Some (foldl Z.max a l')
  end.

(* [min(a, b)] and [max(a, b)] on numbers: the first argument wins a tie *)
Definition py_min2 (a b : Q) : Q := if Qltb b a then b else a.
Definition py_max2 (a b : Q) : Q := if Qltb a b then b else a.

(* [l.sort(key=...)]: stable *)
Fixpoint insert_by {A} (key : A → Q) (a : A) (l : list A) : list A :=
  match l with
  | [] => [a]
  | b :: l' =>
      if Qltb (key b) (key a) then b :: insert_by key a l' else a :: b :: l'
  end.
Definition sort_by {A} (key : A → Q) (l : list A) : list A :=
  foldr (insert_by key) [] l.

Fixpoint mapM {S A B} (f : A → M S B) (l : list A) : M S (list B) :=
  match l with
  | [] => ret []
  | a :: l' => b <- f a ;; bs <- mapM f l' ;; ret (b :: bs)
  end.

(** ** class Calibrator *)

Module XY.
(* the dictionaries [{'x': _, 'y': _}] *)
Record t (A : Type) : Type := mk { x : A; y : A }.
Arguments mk {A} x y.
Arguments x {A} t.
Arguments y {A} t.
End XY.

(* a quadratic [c2, c1, c0] *)
Record poly2 : Type := Poly2 { c2 : Q; c1 : Q; c0 : Q }.

(** Modelled from the spec: the helpers of [road_calibration.algorithms]
    ([dbi], [calQuartiles], [poly2fit], [poly2fitFrozen], [cutPts]) are
    imported by the calibrator but their code is absent. They are taken
    as an interface: each maps its arguments to a value or a raised
    exception; the two fits return the three coefficients [c2, c1, c0].
    [np_sqrt] stands for numpy's square root. *)
Class Algorithms : Type := {
  dbi : list (Q * Q) → result Q;
  calQuartiles : list (Q * Q) → result (list (Q * Q));
  poly2fit : list (Q * Q) → result poly2;
  poly2fitFrozen : list (Q * Q) → Q → result poly2;
  cutPts : Q → Q → Q → result (list Q);
  np_sqrt : Q → Q
}.

Module Calibrator.

Record t : Type := mk {
  clbPath : string;
  fps : Q;
  laneWidth : Q;
  emgcWidth : Q;
  cellLen : Q;
  qMerge : Q;
  count : Z;
  xyByLane : list (Z * list (Q * Q));
  vxyCount : gmap Z (XY.t Z);
  laneIDs : list Z;
  emgcIDs : list Z;
  vDirDict : gmap Z (XY.t Z);
  xyMinMax : gmap Z (list Q);
  globalXYMinMax : list Q;
  polyPts : gmap Z (list (Q * Q));
  coef : gmap Z poly2;
  cells : gmap Z (list bool);
  intID : option Z;
  extID : option Z
}.

Definition set_count (a : Z) (s : t) : t :=
  mk s.(clbPath) s.(fps) s.(laneWidth) s.(emgcWidth) s.(cellLen)
     s.(qMerge) a s.(xyByLane) s.(vxyCount) s.(laneIDs) s.(emgcIDs)
     s.(vDirDict) s.(xyMinMax) s.(globalXYMinMax) s.(polyPts) s.(coef)
     s.(cells) s.(intID) s.(extID).
Definition set_xyByLane (a : list (Z * list (Q * Q))) (s : t) : t :=
  mk s.(clbPath) s.(fps) s.(laneWidth) s.(emgcWidth) s.(cellLen)
     s.(qMerge) s.(count) a s.(vxyCount) s.(laneIDs) s.(emgcIDs)
     s.(vDirDict) s.(xyMinMax) s.(globalXYMinMax) s.(polyPts) s.(coef)
     s.(cells) s.(intID) s.(extID).
Definition set_vxyCount (a : gmap Z (XY.t Z)) (s : t) : t :=
  mk s.(clbPath) s.(fps) s.(laneWidth) s.(emgcWidth) s.(cellLen)
     s.(qMerge) s.(count) s.(xyByLane) a s.(laneIDs) s.(emgcIDs)
     s.(vDirDict) s.(xyMinMax) s.(globalXYMinMax) s.(polyPts) s.(coef)
     s.(cells) s.(intID) s.(extID).
Definition set_laneIDs (a : list Z) (s : t) : t :=
  mk s.(clbPath) s.(fps) s.(laneWidth) s.(emgcWidth) s.(cellLen)
     s.(qMerge) s.(count) s.(xyByLane) s.(vxyCount) a s.(emgcIDs)
     s.(vDirDict) s.(xyMinMax) s.(globalXYMinMax) s.(polyPts) s.(coef)
     s.(cells) s.(intID) s.(extID).
Definition set_emgcIDs (a : list Z) (s : t) : t :=
  mk s.(clbPath) s.(fps) s.(laneWidth) s.(emgcWidth) s.(cellLen)
     s.(qMerge) s.(count) s.(xyByLane) s.(vxyCount) s.(laneIDs) a
     s.(vDirDict) s.(xyMinMax) s.(globalXYMinMax) s.(polyPts) s.(coef)
     s.(cells) s.(intID) s.(extID).
Definition set_vDirDict (a : gmap Z (XY.t Z)) (s : t) : t :=
  mk s.(clbPath) s.(fps) s.(laneWidth) s.(emgcWidth) s.(cellLen)
     s.(qMerge) s.(count) s.(xyByLane) s.(vxyCount) s.(laneIDs)
     s.(emgcIDs) a s.(xyMinMax) s.(globalXYMinMax) s.(polyPts) s.(coef)
     s.(cells) s.(intID) s.(extID).
Definition set_xyMinMax (a : gmap Z (list Q)) (s : t) : t :=
  mk s.(clbPath) s.(fps) s.(laneWidth) s.(emgcWidth) s.(cellLen)
     s.(qMerge) s.(count) s.(xyByLane) s.(vxyCount) s.(laneIDs)
     s.(emgcIDs) s.(vDirDict) a s.(globalXYMinMax) s.(polyPts) s.(coef)
     s.(cells) s.(intID) s.(extID).
Definition set_globalXYMinMax (a : list Q) (s : t) : t :=
  mk s.(clbPath) s.(fps) s.(laneWidth) s.(emgcWidth) s.(cellLen)
     s.(qMerge) s.(count) s.(xyByLane) s.(vxyCount) s.(laneIDs)
     s.(emgcIDs) s.(vDirDict) s.(xyMinMax) a s.(polyPts) s.(coef)
     s.(cells) s.(intID) s.(extID).
Definition set_polyPts (a : gmap Z (list (Q * Q))) (s : t) : t :=
  mk s.(clbPath) s.(fps) s.(laneWidth) s.(emgcWidth) s.(cellLen)
     s.(qMerge) s.(count) s.(xyByLane) s.(vxyCount) s.(laneIDs)
     s.(emgcIDs) s.(vDirDict) s.(xyMinMax) s.(globalXYMinMax) a s.(coef)
     s.(cells) s.(intID) s.(extID).
Definition set_coef (a : gmap Z poly2) (s : t) : t :=
  mk s.(clbPath) s.(fps) s.(laneWidth) s.(emgcWidth) s.(cellLen)
     s.(qMerge) s.(count) s.(xyByLane) s.(vxyCount) s.(laneIDs)
     s.(emgcIDs) s.(vDirDict) s.(xyMinMax) s.(globalXYMinMax) s.(polyPts)
     a s.(cells) s.(intID) s.(extID).
Definition set_cells (a : gmap Z (list bool)) (s : t) : t :=
  mk s.(clbPath) s.(fps) s.(laneWidth) s.(emgcWidth) s.(cellLen)
     s.(qMerge) s.(count) s.(xyByLane) s.(vxyCount) s.(laneIDs)
     s.(emgcIDs) s.(vDirDict) s.(xyMinMax) s.(globalXYMinMax) s.(polyPts)
     s.(coef) a s.(intID) s.(extID).
Definition set_intID (a : option Z) (s : t) : t :=
  mk s.(clbPath) s.(fps) s.(laneWidth) s.(emgcWidth) s.(cellLen)
     s.(qMerge) s.(count) s.(xyByLane) s.(vxyCount) s.(laneIDs)
     s.(emgcIDs) s.(vDirDict) s.(xyMinMax) s.(globalXYMinMax) s.(polyPts)
     s.(coef) s.(cells) a s.(extID).
Definition set_extID (a : option Z) (s : t) : t :=
  mk s.(clbPath) s.(fps) s.(laneWidth) s.(emgcWidth) s.(cellLen)
     s.(qMerge) s.(count) s.(xyByLane) s.(vxyCount) s.(laneIDs)
     s.(emgcIDs) s.(vDirDict) s.(xyMinMax) s.(globalXYMinMax) s.(polyPts)
     s.(coef) s.(cells) s.(intID) a.

Definition init (clbPath : string) (fps laneWidth emgcWidth cellLen qMerge : Q)
    : t :=
  mk clbPath fps laneWidth emgcWidth cellLen qMerge 0
     [] ∅ [] [] ∅ ∅ [] ∅ ∅ ∅ None None.

(* [self.vxyCount[laneID]['x'] += dx] (or ['y'] and [dy]) *)
Definition vote (laneID : Z) (dx dy : Z) : M t unit :=
  s <- get ;;
  cnt <- lookupM s.(vxyCount) laneID ;;
  modify (λ s, set_vxyCount
                 (<[laneID := XY.mk (XY.x cnt + dx) (XY.y cnt + dy)]> s.(vxyCount)) s).

(* the body of the loop of [run] *)
Definition run_body (target : Car.t) : M t unit :=
  let laneID := if bool_decide (100 < Car.laneID target)
                then Car.laneID target - 100 else Car.laneID target in
  s <- get ;;
  (if negb (bool_decide (is_Some (alookup laneID s.(xyByLane)))) then
     modify (λ s, set_xyByLane (aset laneID [] s.(xyByLane)) s) ;;;
     modify (λ s, set_vxyCount (<[laneID := XY.mk 0 0]> s.(vxyCount)) s)
   else ret tt) ;;;
  s <- get ;;
  l <- alookupM s.(xyByLane) laneID ;;
  modify (λ s, set_xyByLane
                 (aset laneID (l ++ [(Car.x target, Car.y target)]) s.(xyByLane)) s) ;;;
  (if Qltb 0 (Car.vx target) then vote laneID 1 0
   else if Qltb (Car.vx target) 0 then vote laneID (-1) 0
   else ret tt) ;;;
  (if Qltb 0 (Car.vy target) then vote laneID 0 1
   else if Qltb (Car.vy target) 0 then vote laneID 0 (-1)
   else ret tt).

(** [run] *)
Definition run (msg : list Car.t) : M t unit :=
  modify (λ s, set_count (s.(count) + 1) s) ;;;
  forM msg run_body.

(* [if m % 2 == 1: m += 1] *)
Definition pad_even (m : Z) : Z :=
  if bool_decide (m `mod` 2 = 1) then m + 1 else m.

(** [_distinguishNormalAndEmgcLanes] *)
Definition _distinguishNormalAndEmgcLanes : M t unit :=
  s <- get ;;
  match py_max (akeys s.(xyByLane)) with
  | None => raise ValueError
  | Some m0 =>
      let m := pad_even m0 in
      modify (set_laneIDs (seqZ 1 m)) ;;;
      modify (set_emgcIDs [1; m])
  end.

(* the vote of a lane as a direction *)
Definition direction_of (cnt : XY.t Z) : XY.t Z :=
  XY.mk (if bool_decide (XY.x cnt < 0) then -1 else 1)
        (if bool_decide (XY.y cnt < 0) then -1 else 1).

(* the bodies of the two loops of [_distinguishLaneDirection] *)
Definition direction_body (id : Z) : M t unit :=
  s <- get ;;
  if bool_decide (id ∈ s.(emgcIDs)) then ret tt
  else
    cnt <- lookupM s.(vxyCount) id ;;
    modify (λ s, set_vDirDict (<[id := direction_of cnt]> s.(vDirDict)) s).

Definition emgc_direction_body (id : Z) : M t unit :=
  s <- get ;;
  if bool_decide (id = 1) then
    tmp <- lookupM s.(vDirDict) (id + 1) ;;
    modify (λ s, set_vDirDict (<[id := tmp]> s.(vDirDict)) s)
  else
    tmp <- lookupM s.(vDirDict) (id - 1) ;;
    modify (λ s, set_vDirDict (<[id := tmp]> s.(vDirDict)) s).

(** [_distinguishLaneDirection] *)
Definition _distinguishLaneDirection : M t unit :=
  modify (set_vDirDict ∅) ;;;
  s <- get ;;
  forM s.(laneIDs) direction_body ;;;
  s <- get ;;
  forM s.(emgcIDs) emgc_direction_body.

(* [self.globalXYMinMax[i] = f(self.globalXYMinMax[i], a)] *)
Definition update_global (i : nat) (f : Q → Q → Q) (a : Q) : M t unit :=
  s <- get ;;
  g <- indexM s.(globalXYMinMax) i ;;
  modify (λ s, set_globalXYMinMax (<[i := f g a]> s.(globalXYMinMax)) s).

(* [l[0]] and [l[-1]] *)
Definition firstM {A} (l : list A) : M t A := indexM l 0.
Definition lastM {A} (l : list A) : M t A :=
  match last l with Some a => ret a | None => raise IndexError end.

(* [self.xyByLane[lane].sort(key=...)], giving back the sorted list *)
Definition sort_lane (lane : Z) (key : Q * Q → Q) : M t (list (Q * Q)) :=
  s <- get ;;
  l <- alookupM s.(xyByLane) lane ;;
  modify (λ s, set_xyByLane (aset lane (sort_by key l) s.(xyByLane)) s) ;;;
  ret (sort_by key l).

Definition minmax_body (lane : Z) : M t unit :=
  lx <- sort_lane lane fst ;;
  xmin <- firstM (fst <$> lx) ;;
  xmax <- lastM (fst <$> lx) ;;
  ly <- sort_lane lane snd ;;
  ymin <- firstM (snd <$> ly) ;;
  ymax <- lastM (snd <$> ly) ;;
  modify (λ s, set_xyMinMax
                 (<[lane := [xmin; xmax; ymin; ymax]]> s.(xyMinMax)) s) ;;;
  update_global 0 py_min2 xmin ;;;
  update_global 1 py_max2 xmax ;;;
  update_global 2 py_min2 ymin ;;;
  update_global 3 py_max2 ymax.

(** [_calibXYMinMax] *)
Definition _calibXYMinMax : M t unit :=
  modify (set_xyMinMax ∅) ;;;
  modify (set_globalXYMinMax [0; 0; 0; 0]%Q) ;;;
  s <- get ;;
  forM (akeys s.(xyByLane)) minmax_body.

Section WithAlgorithms.
Context `{Algorithms}.

(** [_distinguishInnerAndOutboardLaneID] *)
Definition _distinguishInnerAndOutboardLaneID : M t unit :=
  s <- get ;;
  e0 <- indexM s.(emgcIDs) 0 ;;
  e1 <- indexM s.(emgcIDs) 1 ;;
  let lane2 := e0 + 1 in
  let laneN_1 := e1 - 1 in
  l2 <- alookupM s.(xyByLane) lane2 ;;
  dbi2 <- lift (dbi l2) ;;
  lN <- alookupM s.(xyByLane) laneN_1 ;;
  dbiN_1 <- lift (dbi lN) ;;
  if Qltb dbi2 dbiN_1 then
    modify (set_intID (Some lane2)) ;;; modify (set_extID (Some laneN_1))
  else
    modify (set_intID (Some laneN_1)) ;;; modify (set_extID (Some lane2)).

Definition quartile_body (id : Z) : M t unit :=
  s <- get ;;
  if bool_decide (id ∈ s.(emgcIDs)) then ret tt
  else
    l <- alookupM s.(xyByLane) id ;;
    featPoints <- lift (calQuartiles l) ;;
    modify (λ s, set_polyPts (<[id := featPoints]> s.(polyPts)) s).

(** [_getLaneQuartilesPoints] *)
Definition _getLaneQuartilesPoints : M t unit :=
  modify (set_polyPts ∅) ;;;
  s <- get ;;
  forM s.(laneIDs) quartile_body.

Definition fit_body (extCoef : poly2) (id : Z) : M t unit :=
  s <- get ;;
  ext <- attrM s.(extID) ;;
  if bool_decide (id ∈ s.(emgcIDs)) || bool_decide (id = ext) then ret tt
  else
    pts <- lookupM s.(polyPts) id ;;
    a <- lift (poly2fitFrozen pts extCoef.(c2)) ;;
    modify (λ s, set_coef (<[id := a]> s.(coef)) s).

(* [self.coef[self.emgcIDs[i]] = a] *)
Definition set_emgc_coef (i : nat) (a : poly2) : M t unit :=
  s <- get ;;
  e <- indexM s.(emgcIDs) i ;;
  modify (λ s, set_coef (<[e := a]> s.(coef)) s).

(** [_calculateLanesFunction] *)
Definition _calculateLanesFunction : M t unit :=
  modify (set_coef ∅) ;;;
  s <- get ;;
  ext <- attrM s.(extID) ;;
  pts <- lookupM s.(polyPts) ext ;;
  extCoef <- lift (poly2fit pts) ;;
  modify (λ s, set_coef (<[ext := extCoef]> s.(coef)) s) ;;;
  forM s.(laneIDs) (fit_body extCoef) ;;;
  s <- get ;;
  int <- attrM s.(intID) ;;
  intCoef <- lookupM s.(coef) int ;;
  let d := ((s.(laneWidth) + s.(emgcWidth)) / 2)%Q in
  (* the derivative of the outer curve at 0 *)
  let k := extCoef.(c1) in
  let dY := (d * np_sqrt (1 + k * k))%Q in
  ce <- lookupM s.(coef) ext ;;
  ci <- lookupM s.(coef) int ;;
  let '(aExtEmgc, aIntEmgc) :=
    if Qltb ci.(c0) ce.(c0)
    then (Poly2 extCoef.(c2) extCoef.(c1) (extCoef.(c0) + dY)%Q,
          Poly2 intCoef.(c2) intCoef.(c1) (intCoef.(c0) - dY)%Q)
    else (Poly2 extCoef.(c2) extCoef.(c1) (extCoef.(c0) - dY)%Q,
          Poly2 intCoef.(c2) intCoef.(c1) (intCoef.(c0) + dY)%Q) in
  e0 <- indexM s.(emgcIDs) 0 ;;
  if bool_decide (int = e0 + 1) then
    set_emgc_coef 0 aIntEmgc ;;; set_emgc_coef 1 aExtEmgc
  else
    set_emgc_coef 0 aExtEmgc ;;; set_emgc_coef 1 aIntEmgc.

(* [order = np.sum(xy[1] >= pts) - 1; count[order] += 1]; a sample is
   a pair [x, y], so the test [if len(xy)] around it always passes *)
Definition count_sample (pts : list Q) (count : list Z) (xy : Q * Q)
    : M t (list Z) :=
  let order := Z.of_nat (length (filter (λ p, Qle_bool p xy.2 = true) pts)) - 1 in
  match py_index (length count) order with
  | None => raise IndexError
  | Some i => ret (alter Z.succ i count)
  end.

(* the body of the counting loop of [_calibCells] *)
Definition count_body (pts : list Q) (cellNum : Z)
    (cellCount : gmap Z (list Z)) (id : Z) : M t (gmap Z (list Z)) :=
  (* [self.xyByLane.setdefault(id, [])] *)
  modify (λ s, match alookup id s.(xyByLane) with
               | Some _ => s
               | None => set_xyByLane (aset id [] s.(xyByLane)) s
               end) ;;;
  s <- get ;;
  l <- alookupM s.(xyByLane) id ;;
  count <- foldM (count_sample pts) (replicate (Z.to_nat cellNum) 0) l ;;
  ret (<[id := count]> cellCount).

(* [x / sum(count) > 1 / cellNum / 5] *)
Definition share_ok (cellNum : Z) (count : list Z) (n : Z) : M t bool :=
  share <- truediv (inject_Z n) (inject_Z (sumZ count)) ;;
  inv <- truediv 1 (inject_Z cellNum) ;;
  bound <- truediv inv 5 ;;
  ret (Qltb bound share).

Definition valid_body (cellNum : Z) (cellCount : gmap Z (list Z)) (id : Z)
    : M t unit :=
  s <- get ;;
  if bool_decide (id ∈ s.(emgcIDs)) then ret tt
  else
    count <- lookupM cellCount id ;;
    valid <- mapM (share_ok cellNum count) count ;;
    dir <- lookupM s.(vDirDict) id ;;
    let valid := if bool_decide (XY.y dir < 0) then reverse valid else valid in
    modify (λ s, set_cells (<[id := valid]> s.(cells)) s).

Definition emgc_cells_body (cellNum : Z) (id : Z) : M t unit :=
  modify (λ s, set_cells
                 (<[id := replicate (Z.to_nat cellNum) false]> s.(cells)) s).

(** [_calibCells] *)
Definition _calibCells : M t unit :=
  s <- get ;;
  ymin <- indexM s.(globalXYMinMax) 2 ;;
  ymax <- indexM s.(globalXYMinMax) 3 ;;
  pts <- lift (cutPts ymin ymax s.(cellLen)) ;;
  let cellNum := Z.of_nat (length pts) - 1 in
  cellCount <- foldM (count_body pts cellNum) ∅ s.(laneIDs) ;;
  s <- get ;;
  forM s.(laneIDs) (valid_body cellNum cellCount) ;;;
  s <- get ;;
  forM s.(emgcIDs) (emgc_cells_body cellNum).

(** [calibrate] *)
Definition calibrate : M t unit :=
  _distinguishNormalAndEmgcLanes ;;;
  _distinguishInnerAndOutboardLaneID ;;;
  _distinguishLaneDirection ;;;
  _calibXYMinMax ;;;
  _getLaneQuartilesPoints ;;;
  _calculateLanesFunction ;;;
  _calibCells.

End WithAlgorithms.

(* the samples accumulated for a lane *)
Definition samples (s : t) (id : Z) : list (Q * Q) :=
  default [] (alookup id s.(xyByLane)).

(* a lane with a vote counter has samples *)
Definition voted_have_samples (s : t) : Prop :=
  ∀ id, is_Some (s.(vxyCount) !! id) → samples s id ≠ [].

(* the lane ids, fixed by the first step of [calibrate] *)
Definition lanes_are (E L : list Z) (s : t) : Prop :=
  s.(emgcIDs) = E ∧ s.(laneIDs) = L.

(* the directions, written by the third step only *)
Definition dirs_are (D V : gmap Z (XY.t Z)) (s : t) : Prop :=
  s.(vDirDict) = D ∧ s.(vxyCount) = V.

(* what the first three steps do not write *)
Definition results_are (s0 : t) (s : t) : Prop :=
  s.(cells) = s0.(cells) ∧ s.(coef) = s0.(coef) ∧
  s.(polyPts) = s0.(polyPts) ∧ s.(xyMinMax) = s0.(xyMinMax) ∧
  s.(globalXYMinMax) = s0.(globalXYMinMax) ∧
  s.(xyByLane) = s0.(xyByLane) ∧ s.(vxyCount) = s0.(vxyCount).

End Calibrator.

(** ** A calibration that runs: stand-ins for the absent helpers *)

Module Toy.

(* spread of the y values; quartile points: the samples themselves;
   fits: a flat curve through the first sample; cut points: [ymin],
   [ymin + step], ... up to the first one above [ymax] *)
Definition spread (l : list (Q * Q)) : result Q :=
  match snd <$> l with
  | [] => Raise HelperError
  | a :: ys => Ok (foldl py_max2 a ys - foldl py_min2 a ys)%Q
  end.

Fixpoint cuts (fuel : nat) (lo hi step : Q) : list Q :=
  match fuel with
  | O => [lo]
  | S fuel' =>
      if Qltb hi lo then [lo] else lo :: cuts fuel' (lo + step)%Q hi step
  end.

Definition flat (l : list (Q * Q)) : result poly2 :=
  match l with
  | [] => Raise HelperError
  | (a, _) :: _ => Ok (Poly2 0 0 a)
  end.

Definition algorithms : Algorithms := {|
  dbi := spread;
  calQuartiles := Ok;
  poly2fit := flat;
  poly2fitFrozen := λ l c, flat l;
  cutPts := λ lo hi step, Ok (cuts 20 lo hi step);
  np_sqrt := λ a, a
|}.

Definition target (lane : Z) (x y vx vy : Q) : Car.t := Car.mk lane x y vx vy.

(* two frames on the lanes 2 and 3 of a four-lane road; lane 3 is
   reported with the offset 100 and runs downwards *)
Definition frames : list (list Car.t) :=
  [[target 2 4 10 0 20; target 103 8 90 0 (-20)];
   [target 2 4 60 (1 # 2) 20; target 103 8 40 0 (-20); target 2 4 95 0 0]].

Definition fed : Calibrator.t :=
  foldl (λ s msg, (Calibrator.run msg s).2)
        (Calibrator.init "clb.yml" 20 (15 # 4) (7 # 2) 50 0) frames.

(* the same road when lane 5 has also been seen: lanes 1..6, and the
   lane 4 has no sample *)
Definition fed_gap : Calibrator.t :=
  (Calibrator.run [target 5 12 30 0 20] fed).2.

(* the road calibrated on its four lanes, and lane 5 seen afterwards:
   lanes 1..6, the lane 4 has no sample, and [cells] and [coef] hold the
   result of the calibration *)
Definition refed : Calibrator.t :=
  (Calibrator.run [target 5 12 30 0 20]
     (@Calibrator.calibrate algorithms fed).2).2.

(* [fed_gap] as [run] leaves it on a frame whose target says
   [laneID = 4] and has no ['x']: the entries of the lane are created,
   the count is raised, and the [KeyError] comes before the first sample
   and the first vote *)
Definition stray : Calibrator.t :=
  Calibrator.set_count (Calibrator.count fed_gap + 1)
    (Calibrator.set_vxyCount
       (<[4 := XY.mk 0 0]> (Calibrator.vxyCount fed_gap))
       (Calibrator.set_xyByLane
          (aset 4 [] (Calibrator.xyByLane fed_gap)) fed_gap)).

End Toy.

(** ** Concrete cells and call sequences used in the statements *)

Module Scenario.

(* a target of which only the velocity matters *)
Definition car (vx vy : Q) : Car.t := Car.mk 2 0 0 vx vy.

(* a cell of length 50 that keeps 3 frames; tt = 5 s, fps = 20,
   qs = 1000 veh/h, r2 = 0.1, vLat = 2 m/s *)
Definition fresh : result CellMng.t :=
  CellMng.init 2 0 true 50 0 50 5 20 1000 (1 # 10) 2 3.

(* the cell that [fresh] constructs *)
Definition fresh_cell : CellMng.t :=
  CellMng.mk 2 0 true 50 0 50 0 0 0 0 (1 / 5 / 20) 1000 0 (1 # 10) 2
    0 0 (0 + 0) (1 # 2) [] 3 false.

(* the cache [[{vy:10}], [{vy:-10}], []] *)
Definition opposite_frames : list CellMng.call :=
  [CellMng.UpdateCache [car 0 10];
   CellMng.UpdateCache [car 0 (-10)];
   CellMng.UpdateCache []].

Definition busy_frames : list CellMng.call :=
  [CellMng.UpdateCache [car 0 10];
   CellMng.UpdateCache [car 0 30; car 3 20];
   CellMng.UpdateCache [];
   CellMng.UpdateCache [car 0 12]].

Definition mixed_calls : list CellMng.call :=
  [CellMng.UpdateCache [car 0 10];
   CellMng.UpdateR1 500;
   CellMng.UpdateCache [];
   CellMng.UpdateDanger;
   CellMng.UpdateDangerPassive;
   CellMng.UpdateDangerPassive;
   CellMng.ResetCellDetermineStatus;
   CellMng.UpdateCache [];
   CellMng.UpdateTraffic;
   CellMng.UpdateDanger;
   CellMng.UpdateDangerPassive;
   CellMng.ResetDanger;
   CellMng.UpdateDanger].

End Scenario.

Module CellSpec.
Import CellMng.

(* [c0] is a cell as [__init__] leaves it *)
Definition constructed (c0 : t) : Prop :=
  ∃ laneID order valid len start end_ tt fps qs r2 vLat cacheRet,
    init laneID order valid len start end_ tt fps qs r2 vLat cacheRet = Ok c0.

Definition vys (c : t) : list Q := Car.vy <$> concat c.(cache).

(* the last [n] elements of [l] *)
Definition lastn {A} (n : nat) (l : list A) : list A :=
  drop (length l - n) l.

(* a call that keeps the decay rate non-negative: only [updateR1] is
   constrained *)
Definition rate_ok (c0 : t) (o : call) : Prop :=
  match o with
  | UpdateR1 flow => (0 <= c0.(r1s) * flow / c0.(qs))%Q
  | _ => True
  end.

(* the invariant of the danger score *)
Definition danger_inv (c : t) : Prop :=
  (0 <= c.(r1))%Q ∧ (0 <= c.(dangerTimeTop))%Q ∧
  (0 <= c.(dangerTime) <= c.(dangerTimeTop))%Q ∧
  (c.(danger) == c.(dangerTime) + c.(dangerChange))%Q.

Definition is_reset_guard (o : call) : bool :=
  match o with ResetCellDetermineStatus => true | _ => false end.

(* calls that neither set the decay rate nor boost *)
Definition no_rate_no_boost (o : call) : bool :=
  match o with
  | UpdateR1 _ | UpdateDangerPassive => false
  | _ => true
  end.

End CellSpec.

(** ** Further notions for the statements about [CellMng] *)

Module CellMore.
Import CellMng.

Definition is_update_cache (o : call) : bool :=
  match o with UpdateCache _ => true | _ => false end.

(* [car] is over the lateral speed threshold of the cell *)
Definition swerves (c : t) (car : Car.t) : Prop :=
  (c.(vLat) < Qabs (Car.vx car))%Q.

(* the number of cached vehicles, as [len(cars)] *)
Definition ncars (c : t) : Q :=
  inject_Z (Z.of_nat (length (concat c.(cache)))).

End CellMore.

(** ** [Calibrator.save] and notions for the statements about [Calibrator] *)

(* [round(a)]: to the nearest integer, a tie to the even one *)
Definition py_round (a : Q) : Z :=
  let f := Qfloor a in
  let r := (a - inject_Z f)%Q in
  if Qltb r (1 # 2) then f
  else if Qltb (1 # 2) r then f + 1
  else if Z.even f then f else f + 1.

(* the record [save] builds for one lane *)
Module LaneClb.
Record t : Type := mk {
  emgc : bool;
  vDir : XY.t Z;
  start : Q;
  len : Q;
  end_ : Q;
  coef : list Q;
  cells : list bool
}.
End LaneClb.

Module CalibratorMore.
Import Calibrator.

(* the body of the loop of [save] *)
Definition save_body (ymin ymax : Q) (clb : gmap Z LaneClb.t) (id : Z)
    : M t (gmap Z LaneClb.t) :=
  s <- get ;;
  dir <- lookupM s.(vDirDict) id ;;
  let '(start, end_) :=
    if bool_decide (XY.y dir < 0) then (ymax, ymin) else (ymin, ymax) in
  c <- lookupM s.(coef) id ;;
  cl <- lookupM s.(cells) id ;;
  let laneClb :=
    LaneClb.mk (bool_decide (id ∈ s.(emgcIDs))) dir
      start (Qabs (start - end_)) end_
      ((λ a, inject_Z (py_round (a * 1000)) / 1000)%Q <$> [c.(c2); c.(c1); c.(c0)])
      cl in
  ret (<[id := laneClb]> clb).

(** [save]: the dictionary it returns; the dump to the file at
    [clbPath] is left out. *)
Definition save : M t (gmap Z LaneClb.t) :=
  s <- get ;;
  ymin <- indexM s.(globalXYMinMax) 2 ;;
  ymax <- indexM s.(globalXYMinMax) 3 ;;
  foldM (save_body ymin ymax) ∅ s.(laneIDs).

(* the lane id of a target as [run] reads it *)
Definition lane_of (target : Car.t) : Z :=
  if bool_decide (100 < Car.laneID target)
  then Car.laneID target - 100 else Car.laneID target.

(* the vote of one velocity component *)
Definition sgn (a : Q) : Z :=
  if Qltb 0 a then 1 else if Qltb a 0 then -1 else 0.

Definition on_lane (id : Z) (tgts : list Car.t) : list Car.t :=
  filter (λ target, lane_of target = id) tgts.

Definition samples_of (id : Z) (tgts : list Car.t) : list (Q * Q) :=
  (λ target, (Car.x target, Car.y target)) <$> on_lane id tgts.

Definition votes_of (id : Z) (tgts : list Car.t) : XY.t Z :=
  XY.mk (sumZ ((λ target, sgn (Car.vx target)) <$> on_lane id tgts))
        (sumZ ((λ target, sgn (Car.vy target)) <$> on_lane id tgts)).

(* the calibrator holds exactly what the targets [tgts] give, in the
   order of their arrival *)
Definition tracks (s : t) (tgts : list Car.t) : Prop :=
  ∀ id,
    alookup id s.(xyByLane) =
      (if decide (on_lane id tgts = []) then None
       else Some (samples_of id tgts)) ∧
    s.(vxyCount) !! id =
      (if decide (on_lane id tgts = []) then None
       else Some (votes_of id tgts)).

(* non-decreasing keys *)
Definition sorted_by {A} (key : A → Q) (l : list A) : Prop :=
  StronglySorted (λ a b, key a <= key b)%Q l.

(* [[lo, hi]] holds every value of [vs] *)
Definition bounds (lo hi : Q) (vs : list Q) : Prop :=
  Forall (λ a, lo <= a <= hi)%Q vs.

(* [b] is the tight box of the points [l] *)
Definition box_of (l : list (Q * Q)) (b : list Q) : Prop :=
  ∃ xmin xmax ymin ymax,
    b = [xmin; xmax; ymin; ymax] ∧
    bounds xmin xmax (fst <$> l) ∧ xmin ∈ fst <$> l ∧ xmax ∈ fst <$> l ∧
    bounds ymin ymax (snd <$> l) ∧ ymin ∈ snd <$> l ∧ ymax ∈ snd <$> l.

(* the box [b] lies in the box [g] *)
Definition within (b g : list Q) : Prop :=
  ∃ x0 x1 y0 y1 a0 a1 c0 c1,
    b = [x0; x1; y0; y1] ∧ g = [a0; a1; c0; c1] ∧
    (a0 <= x0 ∧ x1 <= a1 ∧ c0 <= y0 ∧ y1 <= c1)%Q.

(* the target has a velocity component that is not zero *)
Definition moving (target : Car.t) : bool :=
  Qltb 0 (Car.vx target) || Qltb (Car.vx target) 0 ||
  Qltb 0 (Car.vy target) || Qltb (Car.vy target) 0.


(* the invariant of the loop of [_calibXYMinMax]: [s0] is the state the
   loop started in, [D] holds of the lanes it has been through *)
Definition loop_inv (D : Z → Prop) (s0 s : t) : Prop :=
  (∀ j, match alookup j s0.(xyByLane) with
        | None => alookup j s.(xyByLane) = None
        | Some l => l ≠ [] ∧
            ∃ l', alookup j s.(xyByLane) = Some l' ∧ l' ≡ₚ l
        end) ∧
  within [0; 0; 0; 0]%Q s.(globalXYMinMax) ∧
  (∀ j, is_Some (s.(xyMinMax) !! j) → D j) ∧
  (∀ j, D j → ∃ l l' b,
      alookup j s0.(xyByLane) = Some l ∧
      alookup j s.(xyByLane) = Some l' ∧ sorted_by snd l' ∧
      s.(xyMinMax) !! j = Some b ∧ box_of l b ∧
      within b s.(globalXYMinMax)).

Definition has_coef (id : Z) (s : t) : Prop := is_Some (s.(coef) !! id).

(* the invariant of the loop of [_calculateLanesFunction] *)
Definition fit_inv (ext m : Z) (s : t) : Prop :=
  s.(extID) = Some ext ∧ s.(emgcIDs) = [1; m] ∧ has_coef ext s.

(* [self.xyByLane.setdefault(id, [])] *)
Definition setdefault (id : Z) (s : t) : t :=
  match alookup id s.(xyByLane) with
  | Some _ => s
  | None => set_xyByLane (aset id [] s.(xyByLane)) s
  end.

(* a lane has cells, one for each of the [N] counters *)
Definition has_cells (N : nat) (id : Z) (s : t) : Prop :=
  ∃ cl, s.(cells) !! id = Some cl ∧ length cl = N.

(* what a calibration of the lanes [1..m] leaves: the lane ids, a
   global box around the origin and, for every lane, a direction, a
   curve, [N] cells and an entry in [xyByLane] *)
Definition calibrated (m : Z) (N : nat) (s : t) : Prop :=
  s.(laneIDs) = seqZ 1 m ∧ s.(emgcIDs) = [1; m] ∧
  within [0; 0; 0; 0]%Q s.(globalXYMinMax) ∧
  ∀ id, 1 ≤ id ≤ m →
    is_Some (s.(vDirDict) !! id) ∧ has_coef id s ∧ has_cells N id s ∧
    is_Some (alookup id s.(xyByLane)).

(* [s] holds the samples of [s0], lane by lane, in some order *)
Definition same_samples (s0 s : t) : Prop :=
  ∀ id, samples s id ≡ₚ samples s0 id.

End CalibratorMore.

(** * Facts about numbers *)

Lemma Qltb_true (a b : Q) : Qltb a b = true ↔ (a < b)%Q.
Proof.
  unfold Qltb. rewrite negb_true_iff, <- not_true_iff_false, Qle_bool_iff.
  split; [apply Qnot_le_lt | apply Qlt_not_le].
Qed.

Lemma Qltb_false (a b : Q) : Qltb a b = false ↔ (b <= a)%Q.
Proof. unfold Qltb. rewrite negb_false_iff. apply Qle_bool_iff. Qed.

Lemma Qeq_bool_false (a b : Q) : Qeq_bool a b = false ↔ ¬ (a == b)%Q.
Proof. rewrite <- not_true_iff_false, Qeq_bool_iff. tauto. Qed.

Lemma foldl_Qplus (a : Q) (l : list Q) : (foldl Qplus a l == a + sumQ l)%Q.
Proof.
  unfold sumQ. revert a. induction l as [|b l IH]; intros a; simpl.
  - ring.
  - rewrite (IH (a + b)%Q), (IH (0 + b)%Q). ring.
Qed.

Lemma sumQ_cons (a : Q) (l : list Q) : (sumQ (a :: l) == a + sumQ l)%Q.
Proof. unfold sumQ at 1. simpl. rewrite foldl_Qplus. ring. Qed.

Lemma sumQ_nonneg (l : list Q) :
  Forall (λ a, 0 <= a)%Q l → (0 <= sumQ l)%Q.
Proof.
  induction 1 as [|a l Ha _ IH]; [unfold sumQ; simpl; lra|].
  rewrite sumQ_cons. lra.
Qed.

Lemma sumQ_abs_nonneg (l : list Q) :
  Forall (λ a, 0 <= a)%Q l → (sumQ (Qabs <$> l) == sumQ l)%Q.
Proof.
  induction 1 as [|a l Ha _ IH]; [reflexivity|].
  rewrite fmap_cons, !sumQ_cons, IH, (Qabs_pos a Ha). reflexivity.
Qed.

Lemma sumQ_abs_nonpos (l : list Q) :
  Forall (λ a, a <= 0)%Q l → (sumQ (Qabs <$> l) == - sumQ l)%Q.
Proof.
  induction 1 as [|a l Ha _ IH]; [reflexivity|].
  rewrite fmap_cons, !sumQ_cons, IH, (Qabs_neg a Ha). ring.
Qed.

(** The absolute value of a sum of numbers of one sign is the sum of
    their absolute values. *)
Lemma Qabs_sumQ_same_sign (l : list Q) :
  Forall (λ a, 0 <= a)%Q l ∨ Forall (λ a, a <= 0)%Q l →
  (Qabs (sumQ l) == sumQ (Qabs <$> l))%Q.
Proof.
  intros [Hs|Hs].
  - rewrite sumQ_abs_nonneg by done. apply Qabs_pos, sumQ_nonneg, Hs.
  - rewrite sumQ_abs_nonpos by done. apply Qabs_neg.
    assert (0 <= sumQ (Qabs <$> l))%Q as Hp.
    { apply sumQ_nonneg, Forall_fmap, Forall_true. intros a. apply Qabs_nonneg. }
    rewrite sumQ_abs_nonpos in Hp by done. lra.
Qed.

Lemma inject_Z_nonzero (n : Z) : n ≠ 0 → Qeq_bool (inject_Z n) 0 = false.
Proof.
  intros Hn. apply Qeq_bool_false. unfold Qeq. simpl. lia.
Qed.
(** * Facts about [CellMng] *)

Module CellFacts.
Import CellMng CellSpec.

Ltac unfold_methods :=
  unfold step, updateCache, updateTraffic, updateR1, updateDanger,
    updateDangerPassive, resetCellDetermineStatus, resetDanger, truediv,
    bind, get, modify, ret, raise in *.

Ltac crush_method :=
  unfold_methods; simpl in *;
  repeat (case_match; simplify_eq /=); try done.

(** Fields that no call writes. *)
Lemma step_config (c : t) (o : call) :
  (step c o).(cacheRet) = c.(cacheRet) ∧
  (step c o).(dangerTimeTop) = c.(dangerTimeTop) ∧
  (step c o).(r1s) = c.(r1s) ∧
  (step c o).(qs) = c.(qs) ∧
  (step c o).(r2) = c.(r2) ∧
  (step c o).(len) = c.(len) ∧
  (step c o).(order) = c.(order).
Proof. destruct o; crush_method. Qed.

Lemma run_calls_snoc (c : t) (os : list call) (o : call) :
  run_calls c (os ++ [o]) = step (run_calls c os) o.
Proof. unfold run_calls. by rewrite foldl_snoc. Qed.

Lemma run_calls_config (c : t) (os : list call) :
  (run_calls c os).(cacheRet) = c.(cacheRet) ∧
  (run_calls c os).(dangerTimeTop) = c.(dangerTimeTop) ∧
  (run_calls c os).(r1s) = c.(r1s) ∧
  (run_calls c os).(qs) = c.(qs) ∧
  (run_calls c os).(len) = c.(len).
Proof.
  induction os as [|o os IH] using rev_ind; [done|].
  rewrite run_calls_snoc.
  destruct (step_config (run_calls c os) o) as (-> & -> & -> & -> & _ & -> & _).
  exact IH.
Qed.

Lemma constructed_fields (c0 : t) :
  constructed c0 →
  c0.(r1) = 0%Q ∧ c0.(dangerTime) = 0%Q ∧ c0.(dangerChange) = 0%Q ∧
  c0.(danger) = 0%Q ∧ c0.(dangerTimeTop) = (1 # 2)%Q ∧
  c0.(cache) = [] ∧ c0.(r2added) = false.
Proof.
  intros (a1 & a2 & a3 & a4 & a5 & a6 & tt & fps & a9 & a10 & a11 & a12 & Hi).
  unfold init in Hi. repeat case_match; simplify_eq. done.
Qed.

(** Only [updateCache] writes the cache. *)
Lemma step_cache_other (c : t) (o : call) :
  (∀ cars, o ≠ UpdateCache cars) → (step c o).(cache) = c.(cache).
Proof.
  intros Ho. destruct o; [by destruct (Ho cars)|..]; crush_method.
Qed.

Lemma updateCache_returns (cars : list Car.t) (c : t) :
  updateCache cars c =
    (Ok tt,
     set_cache (if bool_decide (c.(cacheRet) < Z.of_nat (length (c.(cache) ++ [cars])))
                then drop 1 (c.(cache) ++ [cars]) else c.(cache) ++ [cars]) c).
Proof.
  unfold_methods. simpl. case_bool_decide; [|done].
  destruct (cache c); reflexivity.
Qed.

Lemma lastn_snoc {A} (n : nat) (l : list A) (a : A) :
  lastn n (l ++ [a]) =
    if bool_decide (n < length (lastn n l ++ [a]))%nat
    then drop 1 (lastn n l ++ [a]) else lastn n l ++ [a].
Proof.
  unfold lastn. rewrite !length_app, length_drop. simpl.
  case_bool_decide as Hn.
  - destruct (decide (n = 0%nat)) as [->|Hn0].
    + rewrite !Nat.sub_0_r, drop_all, drop_ge; [done|].
      rewrite length_app. simpl. lia.
    + rewrite drop_app_le by lia. rewrite drop_app_le.
      2:{ rewrite length_drop. lia. }
      rewrite drop_drop. do 2 f_equal. lia.
  - replace (length l - n)%nat with 0%nat by lia.
    replace (length l + 1 - n)%nat with 0%nat by lia. done.
Qed.

Lemma cache_window_gen (c : t) (os : list call) :
  0 ≤ c.(cacheRet) →
  (length c.(cache) ≤ Z.to_nat c.(cacheRet))%nat →
  (run_calls c os).(cache) =
    lastn (Z.to_nat c.(cacheRet)) (c.(cache) ++ frames_of os).
Proof.
  intros HR Hlen.
  induction os as [|o os IH] using rev_ind.
  - simpl. rewrite app_nil_r. unfold lastn.
    by replace (length (cache c) - Z.to_nat (cacheRet c))%nat with 0%nat by lia.
  - rewrite run_calls_snoc. unfold frames_of in *. rewrite omap_app. simpl.
    destruct (run_calls_config c os) as (HR' & _).
    destruct o; try (rewrite app_nil_r, step_cache_other by done; exact IH).
    simpl. rewrite updateCache_returns. simpl.
    rewrite app_assoc, lastn_snoc, <- IH, HR'.
    rewrite !length_app. simpl.
    repeat case_bool_decide; try done; lia.
Qed.

(** The cache never holds more frames than [cacheRet] (none when
    [cacheRet] is negative). *)
Lemma cache_bounded (c : t) (os : list call) :
  (length c.(cache) ≤ Z.to_nat c.(cacheRet))%nat →
  (length (run_calls c os).(cache) ≤ Z.to_nat c.(cacheRet))%nat.
Proof.
  intros Hlen. induction os as [|o os IH] using rev_ind; [done|].
  rewrite run_calls_snoc.
  destruct (run_calls_config c os) as (HR & _).
  destruct o; try (by rewrite step_cache_other).
  simpl. rewrite updateCache_returns. simpl. rewrite HR.
  case_bool_decide as Hgt.
  - rewrite length_drop, length_app. simpl. lia.
  - rewrite length_app in *. simpl in *. lia.
Qed.

Lemma baseT_nonzero (c : t) :
  (length c.(cache) ≤ Z.to_nat c.(cacheRet))%nat → c.(cache) ≠ [] →
  baseT c ≠ 0.
Proof.
  intros Hlen Hne. unfold baseT.
  destruct (cache c) as [|f fs]; [done|]. simpl in *.
  case_bool_decide; lia.
Qed.

End CellFacts.

Module CellTheorems.
Import CellMng CellSpec CellFacts.

Lemma fresh_constructed : constructed Scenario.fresh_cell.
Proof. by exists 2, 0, true, 50%Q, 0%Q, 50%Q, 5%Q, 20%Q, 1000%Q, (1 # 10)%Q, 2%Q, 3. Qed.

(** [updateTraffic] on a cell where neither division fails. *)
Lemma updateTraffic_returns (c : t) :
  concat c.(cache) ≠ [] →
  baseT c ≠ 0 →
  ¬ (c.(len) == 0)%Q →
  ∃ c', updateTraffic c = (Ok tt, c') ∧
    let n := inject_Z (Z.of_nat (length (vys c))) in
    (c'.(v) == Qabs (sumQ (vys c)) / n)%Q ∧
    (c'.(aveCarNum) == n / inject_Z (baseT c))%Q ∧
    (c'.(k) == c'.(aveCarNum) / c.(len) * 1000)%Q ∧
    (c'.(q) == c'.(k) * c'.(v) * 3.6)%Q.
Proof.
  intros Hcars HT Hlen. unfold vys. rewrite length_fmap.
  set (n := inject_Z (Z.of_nat (length (concat (cache c))))).
  assert (length (concat (cache c)) ≠ 0%nat) as Hn0
    by (destruct (concat (cache c)); simpl; [done | lia]).
  assert (Qeq_bool n 0 = false) as Hn by (apply inject_Z_nonzero; lia).
  assert (Qeq_bool (inject_Z (baseT c)) 0 = false) as Hb
    by (by apply inject_Z_nonzero).
  assert (Qeq_bool (len c) 0 = false) as Hl by (by apply Qeq_bool_false).
  assert (Qeq_bool (n / inject_Z (baseT c)) 0 = false) as Hq.
  { apply Qeq_bool_false. intros Hz.
    apply Qeq_bool_false in Hn, Hb. apply Hn.
    rewrite <- (Qmult_div_r n (inject_Z (baseT c))) by done.
    rewrite Hz. ring. }
  eexists. split.
  { unfold_methods. simpl. fold n. rewrite Hb. simpl. rewrite Hl. simpl.
    rewrite Hq. rewrite Hn. simpl. reflexivity. }
  simpl. repeat split; reflexivity.
Qed.

(** C1 (amended). Take a cell constructed with a length that is not
    zero, after any sequence of calls, whose cache holds at least one
    vehicle. [updateTraffic] returns and sets [v] to the absolute value
    of the sum of the cached [vy] divided by the number of cached
    vehicles. This is the mean of [|vy|] when all cached [vy] have one
    sign. It also sets [aveCarNum = count / baseT],
    [k = aveCarNum / len * 1000] and [q = k * v * 3.6]. *)
Theorem updateTraffic_mean_speed (c0 : t) (os : list call) :
  constructed c0 →
  ¬ (c0.(len) == 0)%Q →
  let c := run_calls c0 os in
  concat c.(cache) ≠ [] →
  ∃ c', updateTraffic c = (Ok tt, c') ∧
    let n := inject_Z (Z.of_nat (length (vys c))) in
    (c'.(v) == Qabs (sumQ (vys c)) / n)%Q ∧
    (Forall (λ a, 0 <= a)%Q (vys c) ∨ Forall (λ a, a <= 0)%Q (vys c) →
     c'.(v) == sumQ (Qabs <$> vys c) / n)%Q ∧
    (c'.(aveCarNum) == n / inject_Z (baseT c))%Q ∧
    (c'.(k) == c'.(aveCarNum) / c.(len) * 1000)%Q ∧
    (c'.(q) == c'.(k) * c'.(v) * 3.6)%Q.
Proof.
  intros Hc0 Hlen c Hcars.
  apply constructed_fields in Hc0 as (_ & _ & _ & _ & _ & Hempty & _).
  destruct (run_calls_config c0 os) as (HR & _ & _ & _ & Hl).
  assert (baseT c ≠ 0) as HT.
  { pose proof (cache_bounded c0 os) as Hb. rewrite Hempty in Hb.
    apply baseT_nonzero.
    - subst c. rewrite HR. apply Hb. simpl. lia.
    - intros Hnil. by rewrite Hnil in Hcars. }
  destruct (updateTraffic_returns c) as (c' & Hrun & Hv & Have & Hk & Hq);
    [done | done | by subst c; rewrite Hl |].
  exists c'. split; [done|]. simpl in *.
  repeat split; try done.
  intros Hs. by rewrite Hv, Qabs_sumQ_same_sign.
Qed.

(** Witness of C1: the cell of the scenario, cache
    [[{vy:10}], [{vy:-10}], []], [cacheRet = 3], [len = 50]. *)
Lemma updateTraffic_mean_speed_witness :
  let c := run_calls Scenario.fresh_cell Scenario.opposite_frames in
  constructed Scenario.fresh_cell ∧ (Scenario.fresh_cell.(len) == 50)%Q ∧
  concat c.(cache) ≠ [] ∧
  ∃ c', updateTraffic c = (Ok tt, c') ∧
    (c'.(v) == Qabs (sumQ (vys c)) / 2)%Q.
Proof.
  intros c. split; [apply fresh_constructed|]. split; [reflexivity|].
  split; [by vm_compute|].
  destruct (updateTraffic_mean_speed Scenario.fresh_cell Scenario.opposite_frames)
    as (c' & Hrun & Hv & _);
    [apply fresh_constructed | by vm_compute | by vm_compute |].
  exists c'. split; [exact Hrun | exact Hv].
Defined.

(** Counterexample to C1 as stated: on the cache
    [[{vy:10}], [{vy:-10}], []] with [cacheRet = 3] and [len = 50],
    [updateTraffic] returns with [aveCarNum = 2/3] and [k = 40/3], but
    [v = 0] and [q = 0], while the mean of [|vy|] is 10. *)
Lemma updateTraffic_opposite_speeds :
  let c := run_calls Scenario.fresh_cell Scenario.opposite_frames in
  let c' := (updateTraffic c).2 in
  c.(cache) = [[Scenario.car 0 10]; [Scenario.car 0 (-10)]; []] ∧
  (updateTraffic c).1 = Ok tt ∧
  (c'.(aveCarNum) == 2 # 3)%Q ∧ (c'.(k) == 40 # 3)%Q ∧
  (sumQ (Qabs <$> vys c) / inject_Z (Z.of_nat (length (vys c))) == 10)%Q ∧
  (c'.(v) == 0)%Q ∧ ¬ (c'.(v) == 10)%Q ∧
  (c'.(q) == 0)%Q ∧ ¬ (c'.(q) == 480)%Q.
Proof. vm_compute. repeat split; congruence. Qed.

(** C2 (amended). On a cell whose cache is empty and whose [cacheRet] is
    not negative, [updateTraffic] raises [ZeroDivisionError] at
    [len(cars) / baseT] and leaves the cell as it was. *)
Theorem updateTraffic_empty_cache (c : t) :
  c.(cache) = [] → 0 ≤ c.(cacheRet) →
  baseT c = 0 ∧ updateTraffic c = (Raise ZeroDivisionError, c).
Proof.
  intros Hc HR.
  assert (baseT c = 0) as HT.
  { unfold baseT. rewrite Hc. simpl. case_bool_decide; lia. }
  split; [done|]. unfold_methods. simpl. by rewrite HT.
Qed.

Lemma updateTraffic_empty_cache_witness :
  Scenario.fresh_cell.(cache) = [] ∧ 0 ≤ Scenario.fresh_cell.(cacheRet) ∧
  baseT Scenario.fresh_cell = 0 ∧
  updateTraffic Scenario.fresh_cell = (Raise ZeroDivisionError, Scenario.fresh_cell).
Proof.
  split; [reflexivity|]. split; [by vm_compute|].
  apply (updateTraffic_empty_cache Scenario.fresh_cell); [reflexivity | by vm_compute].
Defined.

(** Counterexample to C2 as stated: a cell just constructed (no
    [updateCache] yet, so [baseT = 0]) on which [updateTraffic] does not
    return. *)
Lemma updateTraffic_fresh_raises :
  Scenario.fresh = Ok Scenario.fresh_cell ∧
  Scenario.fresh_cell.(cache) = [] ∧ baseT Scenario.fresh_cell = 0 ∧
  (updateTraffic Scenario.fresh_cell).1 = Raise ZeroDivisionError ∧
  ¬ ∃ c', updateTraffic Scenario.fresh_cell = (Ok tt, c') ∧
          (c'.(k) == 0)%Q ∧ (c'.(v) == 0)%Q ∧ (c'.(q) == 0)%Q.
Proof.
  repeat split; try reflexivity.
  intros (c' & Hrun & _). vm_compute in Hrun. discriminate Hrun.
Qed.

(** C5. From an empty cache and with [cacheRet >= 0], after any sequence
    of calls the cache is never longer than [cacheRet], and it holds the
    last [cacheRet] frames given to [updateCache], in order of arrival
    (all of them while fewer have arrived); so once [cacheRet] frames
    or more have arrived its length is [cacheRet]. *)
Theorem cache_window (c0 : t) (os : list call) :
  c0.(cache) = [] → 0 ≤ c0.(cacheRet) →
  let c := run_calls c0 os in
  let R := Z.to_nat c0.(cacheRet) in
  c.(cache) = lastn R (frames_of os) ∧
  (length c.(cache) ≤ R)%nat ∧
  length c.(cache) = (R `min` length (frames_of os))%nat.
Proof.
  intros Hc HR c R.
  assert (cache c = lastn R (frames_of os)) as ->.
  { subst c R. rewrite cache_window_gen; [by rewrite Hc | done |].
    rewrite Hc. simpl. lia. }
  unfold lastn. rewrite length_drop. repeat split; lia.
Qed.

Lemma cache_window_witness :
  let c := run_calls Scenario.fresh_cell Scenario.busy_frames in
  Scenario.fresh_cell.(cache) = [] ∧ 0 ≤ Scenario.fresh_cell.(cacheRet) ∧
  c.(cache) = lastn 3 (frames_of Scenario.busy_frames) ∧
  (length c.(cache) ≤ 3)%nat ∧
  length c.(cache) = (3 `min` 4)%nat.
Proof.
  split; [reflexivity|]. split; [by vm_compute|].
  apply (cache_window Scenario.fresh_cell Scenario.busy_frames);
    [reflexivity | by vm_compute].
Defined.

(** C9. [updateCache] returns and writes the cache only: [q], [k], [v],
    [aveCarNum], [dangerTime], [dangerChange], [danger], [r1] and
    [r2added] are as before the call. *)
Theorem updateCache_frame (cars : list Car.t) (c : t) :
  ∃ c', updateCache cars c = (Ok tt, c') ∧
    c'.(q) = c.(q) ∧ c'.(k) = c.(k) ∧ c'.(v) = c.(v) ∧
    c'.(aveCarNum) = c.(aveCarNum) ∧
    c'.(dangerTime) = c.(dangerTime) ∧ c'.(dangerChange) = c.(dangerChange) ∧
    c'.(danger) = c.(danger) ∧ c'.(r1) = c.(r1) ∧ c'.(r2added) = c.(r2added) ∧
    c' = set_cache c'.(cache) c.
Proof. eexists. split; [apply updateCache_returns|]. simpl. done. Qed.

(** The danger invariant and its preservation by every call. *)

Lemma constructed_inv (c0 : t) : constructed c0 → danger_inv c0.
Proof.
  intros (Hr & HdT & HdC & Hd & Htop & _)%constructed_fields.
  unfold danger_inv. rewrite Hr, HdT, HdC, Hd, Htop. repeat split; lra.
Qed.

Lemma step_inv (c0 c : t) (o : call) :
  c.(r1s) = c0.(r1s) → c.(qs) = c0.(qs) →
  rate_ok c0 o → danger_inv c → danger_inv (step c o).
Proof.
  unfold danger_inv. intros Hr1s Hqs Ho (Hr & Htop & Hdt & Hd).
  destruct o; crush_method;
    repeat match goal with
           | H : Qltb _ _ = true |- _ => apply Qltb_true in H
           | H : Qltb _ _ = false |- _ => apply Qltb_false in H
           end;
    try (rewrite Hr1s, Hqs);
    repeat split; try done; try lra.
Qed.

(** C6. From construction, along every sequence of calls in which each
    [updateR1] yields a non-negative rate (in particular along every
    interleaving of [updateDanger], [updateDangerPassive],
    [resetCellDetermineStatus], [resetDanger], [updateCache] and
    [updateTraffic]), [dangerTime] stays in [[0, dangerTimeTop]] with
    [dangerTimeTop = 0.5], and [danger = dangerTime + dangerChange]. *)
Theorem danger_invariant (c0 : t) (os : list call) :
  constructed c0 → Forall (rate_ok c0) os →
  let c := run_calls c0 os in
  (0 <= c.(dangerTime) <= c.(dangerTimeTop))%Q ∧
  c.(dangerTimeTop) = (1 # 2)%Q ∧
  (c.(danger) == c.(dangerTime) + c.(dangerChange))%Q.
Proof.
  intros Hc Hos. simpl.
  assert (danger_inv (run_calls c0 os)) as (_ & _ & Hdt & Hd).
  { induction os as [|o os IH] using rev_ind; [by apply constructed_inv|].
    apply Forall_app in Hos as [Hos Ho]. apply Forall_inv in Ho.
    rewrite run_calls_snoc.
    destruct (run_calls_config c0 os) as (_ & _ & Hr1s & Hqs & _).
    eapply step_inv; eauto. }
  destruct (run_calls_config c0 os) as (_ & Htop & _).
  apply constructed_fields in Hc as (_ & _ & _ & _ & Htop0 & _).
  rewrite Htop, Htop0 in *. done.
Qed.

Lemma danger_invariant_witness :
  let c := run_calls Scenario.fresh_cell Scenario.mixed_calls in
  constructed Scenario.fresh_cell ∧
  Forall (rate_ok Scenario.fresh_cell) Scenario.mixed_calls ∧
  (0 <= c.(dangerTime) <= c.(dangerTimeTop))%Q ∧
  c.(dangerTimeTop) = (1 # 2)%Q ∧
  (c.(danger) == c.(dangerTime) + c.(dangerChange))%Q.
Proof.
  assert (Forall (rate_ok Scenario.fresh_cell) Scenario.mixed_calls) as Hos.
  { repeat constructor. by vm_compute. }
  split; [apply fresh_constructed|]. split; [exact Hos|].
  apply (danger_invariant Scenario.fresh_cell Scenario.mixed_calls
           fresh_constructed Hos).
Defined.

(** The rate hypothesis matters: a negative flow makes the rate
    negative, and an empty frame then takes [dangerTime] below 0. *)
Example negative_flow_breaks_lower_bound :
  let c := run_calls Scenario.fresh_cell
             [UpdateCache []; UpdateR1 (-500); UpdateDanger] in
  (c.(dangerTime) < 0)%Q.
Proof. by vm_compute. Qed.

Lemma step_guard_stays (c : t) (o : call) :
  is_reset_guard o = false → c.(r2added) = true → (step c o).(r2added) = true.
Proof. intros Ho Hc. destruct o; crush_method. Qed.

Lemma passive_sets_guard (c : t) : (step c UpdateDangerPassive).(r2added) = true.
Proof. unfold_methods. simpl. by destruct (r2added c) eqn:E. Qed.

Lemma passive_guarded (c : t) :
  c.(r2added) = true → updateDangerPassive c = (Ok tt, c).
Proof. intros Hc. unfold_methods. by rewrite Hc. Qed.

(** C7. After one [updateDangerPassive], a second one is a no-op as
    long as no [resetCellDetermineStatus] came in between (whatever other
    calls did): the first call adds [r2] to [dangerChange] when the guard
    was clear, the second returns and leaves the cell as it is. *)
Theorem updateDangerPassive_once_per_frame (c : t) (os : list call) :
  Forall (λ o, is_reset_guard o = false) os →
  let c1 := step c UpdateDangerPassive in
  let c2 := run_calls c1 os in
  updateDangerPassive c2 = (Ok tt, c2) ∧
  step (step c UpdateDangerPassive) UpdateDangerPassive
    = step c UpdateDangerPassive ∧
  c1.(dangerChange) =
    (if c.(r2added) then c.(dangerChange) else c.(dangerChange) + c.(r2))%Q.
Proof.
  intros Hos c1 c2.
  assert (r2added c2 = true) as H2.
  { subst c2. induction os as [|o os IH] using rev_ind.
    - apply passive_sets_guard.
    - apply Forall_app in Hos as [Hos Ho]. apply Forall_inv in Ho.
      rewrite run_calls_snoc. apply step_guard_stays; auto. }
  split; [by apply passive_guarded|]. split.
  - simpl. rewrite passive_guarded; [done | apply passive_sets_guard].
  - subst c1. crush_method.
Qed.

Lemma updateDangerPassive_once_per_frame_witness :
  let os := [UpdateCache [Scenario.car 0 10]; UpdateTraffic] in
  let c1 := step Scenario.fresh_cell UpdateDangerPassive in
  let c2 := run_calls c1 os in
  Forall (λ o, is_reset_guard o = false) os ∧
  updateDangerPassive c2 = (Ok tt, c2) ∧
  (c1.(dangerChange) == 1 # 10)%Q ∧
  ((step c2 UpdateDangerPassive).(dangerChange) == 1 # 10)%Q.
Proof.
  intros os c1 c2.
  assert (Forall (λ o, is_reset_guard o = false) os) as Hos
    by (repeat constructor).
  destruct (updateDangerPassive_once_per_frame Scenario.fresh_cell os Hos)
    as (Hnoop & _ & _).
  split; [exact Hos|]. split; [exact Hnoop|].
  split; by vm_compute.
Defined.

Lemma step_quiet (c : t) (o : call) :
  no_rate_no_boost o = true →
  c.(r1) = 0%Q ∧ c.(dangerTime) = 0%Q ∧ c.(dangerChange) = 0%Q ∧
    c.(danger) = 0%Q ∧ c.(dangerTimeTop) = (1 # 2)%Q →
  let c' := step c o in
  c'.(r1) = 0%Q ∧ c'.(dangerTime) = 0%Q ∧ c'.(dangerChange) = 0%Q ∧
    c'.(danger) = 0%Q ∧ c'.(dangerTimeTop) = (1 # 2)%Q.
Proof.
  intros Ho (Hr & Hdt & Hdc & Hd & Htop).
  destruct o; try done; crush_method;
    try (rewrite ?Hr, ?Hdt, ?Hdc, ?Hd, ?Htop in *; done).
Qed.

(** C10. A constructed cell has [r1 = 0]. Along every sequence of calls
    without [updateR1] and without [updateDangerPassive], [r1],
    [dangerTime], [dangerChange] and [danger] are exactly 0; and in such
    a state, [updateDanger] on an empty most recent frame returns
    [(False, order)] and leaves [dangerTime] and [danger] at 0. *)
Theorem no_decay_before_rate (c0 : t) (os : list call) :
  constructed c0 → Forall (λ o, no_rate_no_boost o = true) os →
  let c := run_calls c0 os in
  c0.(r1) = 0%Q ∧
  c.(r1) = 0%Q ∧ c.(dangerTime) = 0%Q ∧ c.(danger) = 0%Q ∧
  (last c.(cache) = Some [] →
   ∃ c', updateDanger c = (Ok (false, c.(order)), c') ∧
         c'.(dangerTime) = 0%Q ∧ c'.(danger) = 0%Q).
Proof.
  intros Hc Hos. simpl.
  pose proof (constructed_fields c0 Hc) as (Hr0 & Hdt0 & Hdc0 & Hd0 & Htop0 & _).
  assert (∀ os, Forall (λ o, no_rate_no_boost o = true) os →
    let c := run_calls c0 os in
    c.(r1) = 0%Q ∧ c.(dangerTime) = 0%Q ∧ c.(dangerChange) = 0%Q ∧
    c.(danger) = 0%Q ∧ c.(dangerTimeTop) = (1 # 2)%Q) as Hall.
  { clear os Hos. intros os Hos.
    induction os as [|o os IH] using rev_ind; [done|].
    apply Forall_app in Hos as [Hos Ho]. apply Forall_inv in Ho.
    rewrite run_calls_snoc. apply step_quiet; auto. }
  destruct (Hall os Hos) as (Hr & Hdt & Hdc & Hd & Htop).
  repeat split; try done.
  intros Hlast.
  destruct (Hall (os ++ [UpdateDanger])) as (_ & Hdt' & _ & Hd' & _).
  { apply Forall_app. split; [done | by constructor]. }
  rewrite run_calls_snoc in Hdt', Hd'. simpl in Hdt', Hd'.
  exists (updateDanger (run_calls c0 os)).2. repeat split; try done.
  clear Hdt' Hd'. unfold_methods. simpl. rewrite Hlast. simpl.
  rewrite Hdt, Hr, Htop. reflexivity.
Qed.

Lemma no_decay_before_rate_witness :
  let os := [UpdateCache [Scenario.car 0 10]; UpdateDanger;
             UpdateCache []; UpdateDanger; UpdateCache []] in
  let c := run_calls Scenario.fresh_cell os in
  constructed Scenario.fresh_cell ∧
  Forall (λ o, no_rate_no_boost o = true) os ∧
  last c.(cache) = Some [] ∧
  ∃ c', updateDanger c = (Ok (false, c.(order)), c') ∧
        c'.(dangerTime) = 0%Q ∧ c'.(danger) = 0%Q.
Proof.
  intros os c.
  assert (Forall (λ o, no_rate_no_boost o = true) os) as Hos
    by (repeat constructor).
  split; [apply fresh_constructed|]. split; [exact Hos|].
  split; [reflexivity|].
  destruct (no_decay_before_rate Scenario.fresh_cell os
              fresh_constructed Hos) as (_ & _ & _ & _ & Hud).
  apply Hud. reflexivity.
Defined.

End CellTheorems.

(** * Facts about the method monad *)

Section MonadFacts.
Context {S : Type}.
Implicit Types P : S → Prop.

Lemma bind_Ok_inv {A B} (m : M S A) (k : A → M S B) s b s' :
  bind m k s = (Ok b, s') →
  ∃ a s1, m s = (Ok a, s1) ∧ k a s1 = (Ok b, s').
Proof.
  unfold bind. destruct (m s) as [[a|e] s1]; [eauto | discriminate].
Qed.

Lemma bind_Ok {A B} (m : M S A) (k : A → M S B) s a s1 :
  m s = (Ok a, s1) → bind m k s = k a s1.
Proof. unfold bind. by intros ->. Qed.

Lemma bind_Raise {A B} (m : M S A) (k : A → M S B) s e s1 :
  m s = (Raise e, s1) → bind m k s = (Raise e, s1).
Proof. unfold bind. by intros ->. Qed.

Lemma preserves_inv {A} P (m : M S A) s r s1 :
  preserves P m → P s → m s = (r, s1) → P s1.
Proof. intros Hm HP Hr. specialize (Hm s HP). by rewrite Hr in Hm. Qed.

Lemma pure_m_inv {A} (m : M S A) s r s1 :
  pure_m m → m s = (r, s1) → s1 = s.
Proof. intros Hm Hr. specialize (Hm s). by rewrite Hr in Hm. Qed.

Lemma preserves_pure {A} P (m : M S A) : pure_m m → preserves P m.
Proof. intros Hm s HP. by rewrite Hm. Qed.

Lemma preserves_bind {A B} P (m : M S A) (k : A → M S B) :
  preserves P m → (∀ a, preserves P (k a)) → preserves P (bind m k).
Proof.
  intros Hm Hk s HP. unfold bind. specialize (Hm s HP).
  destruct (m s) as [[a|e] s1]; simpl in *; [by apply Hk | done].
Qed.
Lemma preserves_modify P (f : S → S) :
  (∀ s, P s → P (f s)) → preserves P (modify f).
Proof. intros Hf s HP. by apply Hf. Qed.

Lemma preserves_forM {A} P (l : list A) (body : A → M S unit) :
  (∀ a, preserves P (body a)) → preserves P (forM l body).
Proof.
  intros Hb. induction l as [|a l IH]; simpl.
  - by intros s.
  - apply preserves_bind; auto.
Qed.

Lemma preserves_foldM {A B} P (l : list A) (body : B → A → M S B) (b : B) :
  (∀ b a, preserves P (body b a)) → preserves P (foldM body b l).
Proof.
  intros Hb. revert b. induction l as [|a l IH]; intros b; simpl.
  - by intros s.
  - apply preserves_bind; auto.
Qed.

Lemma preserves_mapM {A B} P (l : list A) (f : A → M S B) :
  (∀ a, preserves P (f a)) → preserves P (mapM f l).
Proof.
  intros Hf. induction l as [|a l IH]; simpl; [by intros s|].
  apply preserves_bind; [done|]. intros b.
  apply preserves_bind; [done|]. by intros bs s.
Qed.
Lemma pure_lift {A} (r : result A) : pure_m (lift r : M S A).
Proof. done. Qed.
Lemma pure_truediv (a b : Q) : pure_m (truediv a b : M S Q).
Proof. intros s. unfold truediv. by case_match. Qed.

Lemma pure_lookupM {V} (d : gmap Z V) i : pure_m (lookupM d i : M S V).
Proof. intros s. unfold lookupM. by case_match. Qed.

Lemma pure_alookupM {V} (d : list (Z * V)) i : pure_m (alookupM d i : M S V).
Proof. intros s. unfold alookupM. by case_match. Qed.

Lemma pure_indexM {A} (l : list A) i : pure_m (indexM l i : M S A).
Proof. intros s. unfold indexM. by case_match. Qed.

Lemma pure_attrM {A} (o : option A) : pure_m (attrM o : M S A).
Proof. intros s. unfold attrM. by case_match. Qed.
End MonadFacts.

(** * Facts about dictionaries and numbers of lanes *)

Lemma alookup_aset_eq {V} (i : Z) (w : V) d : alookup i (aset i w d) = Some w.
Proof.
  induction d as [|[j u] d IH]; simpl.
  - by rewrite bool_decide_eq_true_2.
  - case_bool_decide; simpl; [by rewrite bool_decide_eq_true_2|].
    by rewrite bool_decide_eq_false_2.
Qed.

Lemma alookup_aset_ne {V} (i j : Z) (w : V) d :
  i ≠ j → alookup j (aset i w d) = alookup j d.
Proof.
  intros Hij. induction d as [|[j' u] d IH]; simpl.
  - by rewrite bool_decide_eq_false_2.
  - case_bool_decide; simpl; subst.
    + by rewrite !bool_decide_eq_false_2.
    + by rewrite IH.
Qed.
Lemma foldl_Zmax_ge (a : Z) (l : list Z) :
  a ≤ foldl Z.max a l ∧ ∀ x, x ∈ l → x ≤ foldl Z.max a l.
Proof.
  revert a. induction l as [|b l IH]; intros a; simpl.
  - split; [lia | by intros x ?%elem_of_nil].
  - destruct (IH (a `max` b)) as [H1 H2]. split; [lia|].
    intros x [->|Hx]%elem_of_cons; [lia | auto].
Qed.

Lemma foldl_Zmax_in (a : Z) (l : list Z) : foldl Z.max a l ∈ a :: l.
Proof.
  revert a. induction l as [|b l IH]; intros a; simpl.
  - apply list_elem_of_here.
  - specialize (IH (a `max` b)).
    apply elem_of_cons in IH as [IH|IH].
    + rewrite IH. destruct (Z.max_spec a b) as [[_ ->]|[_ ->]];
        [apply list_elem_of_further|]; apply list_elem_of_here.
    + by do 2 apply list_elem_of_further.
Qed.

(** [py_max] gives the greatest element. *)
Lemma py_max_spec (l : list Z) (M : Z) :
  M ∈ l → (∀ x, x ∈ l → x ≤ M) → py_max l = Some M.
Proof.
  intros HM Hle. destruct l as [|a l]; [by apply elem_of_nil in HM|].
  simpl. f_equal.
  pose proof (foldl_Zmax_in a l) as Hin.
  destruct (foldl_Zmax_ge a l) as [Ha Hl].
  apply Z.le_antisymm; [by apply Hle|].
  apply elem_of_cons in HM as [->|HM]; auto.
Qed.
(** [pad_even M] is the smallest even number that is at least [M]. *)
Lemma pad_even_spec (M : Z) :
  Z.even (Calibrator.pad_even M) = true ∧ M ≤ Calibrator.pad_even M ∧
  ∀ m', Z.even m' = true → M ≤ m' → Calibrator.pad_even M ≤ m'.
Proof.
  unfold Calibrator.pad_even.
  case_bool_decide as Hodd.
  - split; [|split; [lia|]].
    + rewrite Z.even_spec. exists (M `div` 2 + 1).
      pose proof (Z.div_mod M 2). lia.
    + intros m' [k ->]%Z.even_spec HM.
      pose proof (Z.div_mod M 2). lia.
  - split; [|split; [lia | intros; lia]].
    rewrite Z.even_spec. exists (M `div` 2).
    pose proof (Z.div_mod M 2). pose proof (Z.mod_pos_bound M 2). lia.
Qed.

Lemma pad_even_ne_1 (M : Z) : Calibrator.pad_even M ≠ 1.
Proof.
  destruct (pad_even_spec M) as [He _]. intros Heq. by rewrite Heq in He.
Qed.

Lemma sort_by_length {A} (key : A → Q) (l : list A) :
  length (sort_by key l) = length l.
Proof.
  unfold sort_by. induction l as [|a l IH]; simpl; [done|].
  rewrite <- IH. generalize (foldr (insert_by key) [] l). clear.
  intros l. induction l as [|b l IH]; simpl; [done|].
  case_match; simpl; [by rewrite IH | done].
Qed.

Lemma sort_by_nil {A} (key : A → Q) (l : list A) :
  sort_by key l = [] ↔ l = [].
Proof.
  rewrite <- !length_zero_iff_nil, sort_by_length. done.
Qed.

(** * Facts about [Calibrator] *)

Module CalibratorFacts.
Import Calibrator.

(** ** What each step leaves alone *)

(* a place for lemmas about one body and one property *)
Ltac frame_hook := fail.

Ltac frame :=
  first [ frame_hook | frame_cases ]
with frame_cases :=
  lazymatch goal with
  | |- preserves _ (forM _ _) => apply preserves_forM; intros; frame
  | |- preserves _ (foldM _ _ _) => apply preserves_foldM; intros; frame
  | |- preserves _ (mapM _ _) => apply preserves_mapM; intros; frame
  | |- preserves _ (bind _ _) => apply preserves_bind; [frame | intros; frame]
  | |- preserves _ (modify _) =>
      apply preserves_modify; intros ? ?; simpl in *;
      repeat case_match; simpl in *; try done
  | |- preserves _ get => by apply preserves_pure
  | |- preserves _ (ret _) => by apply preserves_pure
  | |- preserves _ (raise _) => by apply preserves_pure
  | |- preserves _ (lift _) => by apply preserves_pure
  | |- preserves _ (lookupM _ _) => apply preserves_pure, pure_lookupM
  | |- preserves _ (alookupM _ _) => apply preserves_pure, pure_alookupM
  | |- preserves _ (indexM _ _) => apply preserves_pure, pure_indexM
  | |- preserves _ (attrM _) => apply preserves_pure, pure_attrM
  | |- preserves _ (truediv _ _) => apply preserves_pure, pure_truediv
  | |- preserves _ (if _ then _ else _) => case_match; frame
  | |- preserves _ (match ?x with _ => _ end) => destruct x eqn:?; frame
  | |- preserves _ (vote _ _ _) => unfold vote; frame
  | |- preserves _ (run_body _) => unfold run_body; frame
  | |- preserves _ (run _) => unfold run; frame
  | |- preserves _ (direction_body _) => unfold direction_body; frame
  | |- preserves _ (emgc_direction_body _) => unfold emgc_direction_body; frame
  | |- preserves _ (update_global _ _ _) => unfold update_global; frame
  | |- preserves _ (firstM _) => unfold firstM; frame
  | |- preserves _ (lastM _) => unfold lastM; frame
  | |- preserves _ (sort_lane _ _) => unfold sort_lane; frame
  | |- preserves _ (minmax_body _) => unfold minmax_body; frame
  | |- preserves _ (quartile_body _) => unfold quartile_body; frame
  | |- preserves _ (fit_body _ _) => unfold fit_body; frame
  | |- preserves _ (set_emgc_coef _ _) => unfold set_emgc_coef; frame
  | |- preserves _ (count_sample _ _ _) => unfold count_sample; frame
  | |- preserves _ (count_body _ _ _ _) => unfold count_body; frame
  | |- preserves _ (share_ok _ _ _) => unfold share_ok; frame
  | |- preserves _ (valid_body _ _ _) => unfold valid_body; frame
  | |- preserves _ (emgc_cells_body _ _) => unfold emgc_cells_body; frame
  | |- preserves _ _distinguishNormalAndEmgcLanes =>
      unfold _distinguishNormalAndEmgcLanes; frame
  | |- preserves _ _distinguishInnerAndOutboardLaneID =>
      unfold _distinguishInnerAndOutboardLaneID; frame
  | |- preserves _ _distinguishLaneDirection =>
      unfold _distinguishLaneDirection; frame
  | |- preserves _ _calibXYMinMax => unfold _calibXYMinMax; frame
  | |- preserves _ _getLaneQuartilesPoints =>
      unfold _getLaneQuartilesPoints; frame
  | |- preserves _ _calculateLanesFunction =>
      unfold _calculateLanesFunction; frame
  | |- preserves _ _calibCells => unfold _calibCells; frame
  | |- preserves _ calibrate => unfold calibrate; frame
  | |- _ => idtac
  end.

Section WithAlgorithms.
Context `{Algorithms}.

(** The vote counters are written by [run] only. *)
Lemma calibrate_votes (V : gmap Z (XY.t Z)) :
  preserves (λ s, s.(vxyCount) = V) calibrate.
Proof. frame. Qed.

(* After the first step the lane ids are fixed *)

Lemma step2_lanes E L : preserves (lanes_are E L) _distinguishInnerAndOutboardLaneID.
Proof. frame. Qed.
Lemma step3_lanes E L : preserves (lanes_are E L) _distinguishLaneDirection.
Proof. frame. Qed.
Lemma step4_lanes E L : preserves (lanes_are E L) _calibXYMinMax.
Proof. frame. Qed.
Lemma step5_lanes E L : preserves (lanes_are E L) _getLaneQuartilesPoints.
Proof. frame. Qed.
Lemma step6_lanes E L : preserves (lanes_are E L) _calculateLanesFunction.
Proof. frame. Qed.
Lemma step7_lanes E L : preserves (lanes_are E L) _calibCells.
Proof. frame. Qed.

(* The directions are written by the third step only *)

Lemma step4_dirs D V : preserves (dirs_are D V) _calibXYMinMax.
Proof. frame. Qed.
Lemma step5_dirs D V : preserves (dirs_are D V) _getLaneQuartilesPoints.
Proof. frame. Qed.
Lemma step6_dirs D V : preserves (dirs_are D V) _calculateLanesFunction.
Proof. frame. Qed.
Lemma step7_dirs D V : preserves (dirs_are D V) _calibCells.
Proof. frame. Qed.

(* The first three steps write neither the samples nor the results of
    the later steps *)
Lemma step2_results s0 : preserves (results_are s0) _distinguishInnerAndOutboardLaneID.
Proof. frame. Qed.
Lemma step3_results s0 : preserves (results_are s0) _distinguishLaneDirection.
Proof. frame. Qed.

(** ** The steps of [calibrate] one by one *)

Tactic Notation "inv_bind" hyp(H) "as" ident(a) ident(s1) ident(H1) :=
  apply bind_Ok_inv in H as (a & s1 & H1 & H).

(* [x <- get ;; k] and [x <- m ;; k] for a [m] that does not write *)
Ltac inv_get H :=
  let a := fresh "a" in
  let s1 := fresh "s" in
  let H1 := fresh "H" in
  inv_bind H as a s1 H1; injection H1 as <- <-.

Tactic Notation "inv_pure" hyp(H) "as" ident(a) ident(H1) "by" tactic(tac) :=
  let s1 := fresh "s" in
  inv_bind H as a s1 H1;
  let E := fresh in
  assert (E := pure_m_inv _ _ _ _ ltac:(tac) H1); subst s1.

Lemma calibrate_Ok_inv (s s' : t) :
  calibrate s = (Ok tt, s') →
  ∃ s1 s2 s3 s4 s5 s6,
    _distinguishNormalAndEmgcLanes s = (Ok tt, s1) ∧
    _distinguishInnerAndOutboardLaneID s1 = (Ok tt, s2) ∧
    _distinguishLaneDirection s2 = (Ok tt, s3) ∧
    _calibXYMinMax s3 = (Ok tt, s4) ∧
    _getLaneQuartilesPoints s4 = (Ok tt, s5) ∧
    _calculateLanesFunction s5 = (Ok tt, s6) ∧
    _calibCells s6 = (Ok tt, s').
Proof.
  unfold calibrate. intros Hc.
  inv_bind Hc as a1 s1 H1. inv_bind Hc as a2 s2 H2. inv_bind Hc as a3 s3 H3.
  inv_bind Hc as a4 s4 H4. inv_bind Hc as a5 s5 H5. inv_bind Hc as a6 s6 H6.
  destruct a1, a2, a3, a4, a5, a6.
  eexists _, _, _, _, _, _. repeat split; eassumption.
Qed.

Lemma step1_returns (s : t) (M : Z) :
  py_max (akeys s.(xyByLane)) = Some M →
  _distinguishNormalAndEmgcLanes s =
    (Ok tt, set_emgcIDs [1; pad_even M] (set_laneIDs (seqZ 1 (pad_even M)) s)).
Proof. intros HM. unfold _distinguishNormalAndEmgcLanes, bind, get. by rewrite HM. Qed.

Lemma step1_Ok_inv (s s1 : t) :
  _distinguishNormalAndEmgcLanes s = (Ok tt, s1) →
  ∃ M, py_max (akeys s.(xyByLane)) = Some M ∧
       s1 = set_emgcIDs [1; pad_even M] (set_laneIDs (seqZ 1 (pad_even M)) s).
Proof.
  unfold _distinguishNormalAndEmgcLanes, bind, get.
  destruct (py_max _) as [M|]; [|done].
  intros [= <-]. by exists M.
Qed.

(** The last loop of [_calibCells] writes an all-false list for each
    emergency lane. *)
Lemma calibCells_Ok_inv (s s' : t) :
  _calibCells s = (Ok tt, s') →
  ∃ cellNum sa,
    sa.(emgcIDs) = s.(emgcIDs) ∧
    forM sa.(emgcIDs) (emgc_cells_body cellNum) sa = (Ok tt, s').
Proof.
  unfold _calibCells. intros Hc.
  inv_get Hc.
  inv_pure Hc as ymin Hymin by (apply pure_indexM).
  inv_pure Hc as ymax Hymax by (apply pure_indexM).
  inv_pure Hc as pts Hpts by (apply pure_lift).
  inv_bind Hc as cellCount s1 Hcount.
  eapply (preserves_inv (lanes_are s.(emgcIDs) s.(laneIDs))) in Hcount as [He Hl];
    [| frame | done].
  inv_get Hc.
  inv_bind Hc as u s2 Hvalid.
  eapply (preserves_inv (lanes_are s.(emgcIDs) s.(laneIDs))) in Hvalid as [He' Hl'];
    [| frame | done].
  inv_get Hc.
  eexists _, _. split; [|exact Hc]. done.
Qed.

Lemma emgc_cells_loop (cellNum m : Z) (s s' : t) :
  forM [1; m] (emgc_cells_body cellNum) s = (Ok tt, s') →
  s' = set_cells (<[m := replicate (Z.to_nat cellNum) false]>
                    (<[1 := replicate (Z.to_nat cellNum) false]> s.(cells))) s.
Proof. simpl. unfold emgc_cells_body, bind, modify, ret. by intros [= <-]. Qed.

(** The first loop of [_distinguishLaneDirection]. *)
Lemma direction_loop (l : list Z) (s s' : t) :
  forM l direction_body s = (Ok tt, s') →
  s'.(emgcIDs) = s.(emgcIDs) ∧ s'.(vxyCount) = s.(vxyCount) ∧
  ∀ id,
    (id ∈ l → id ∉ s.(emgcIDs) →
     ∃ cnt, s.(vxyCount) !! id = Some cnt ∧
            s'.(vDirDict) !! id = Some (direction_of cnt)) ∧
    (¬ (id ∈ l ∧ id ∉ s.(emgcIDs)) → s'.(vDirDict) !! id = s.(vDirDict) !! id).
Proof.
  revert s. induction l as [|x l IH]; intros s; simpl.
  - unfold ret. intros [= <-]. repeat split; try done.
    by intros ?%elem_of_nil.
  - intros Hc. inv_bind Hc as u s0 H0. destruct u.
    apply IH in Hc as (He & Hv & Hd). clear IH.
    assert (emgcIDs s0 = emgcIDs s ∧ vxyCount s0 = vxyCount s ∧
            ((x ∈ emgcIDs s ∧ vDirDict s0 = vDirDict s) ∨
             ((x ∉ emgcIDs s) ∧ ∃ cnt, vxyCount s !! x = Some cnt ∧
                vDirDict s0 = <[x := direction_of cnt]> (vDirDict s))))
      as (He0 & Hv0 & Hx).
    { revert H0. unfold direction_body, bind, get, lookupM, modify, ret, raise.
      case_bool_decide.
      - intros [= <-]. repeat split; try done. by left.
      - destruct (vxyCount s !! x) as [cnt|] eqn:Hcnt; [|done].
        intros [= <-]. repeat split; try done. right. eauto. }
    rewrite He, Hv, He0, Hv0 in *. repeat split; try done.
    + intros Hin Hne.
      destruct (decide (id ∈ l)) as [Hl|Hl]; [by apply Hd|].
      apply elem_of_cons in Hin as [->|?]; [|done].
      destruct Hx as [[? _]|(_ & cnt & Hcnt & Hs0)]; [done|].
      exists cnt. split; [done|].
      destruct (Hd x) as [_ Hx]. rewrite Hx by (by intros [? ?]).
      by rewrite Hs0, lookup_insert_eq.
    + intros Hno.
      destruct (Hd id) as [_ Hid]. rewrite Hid.
      2:{ intros [? ?]. apply Hno. split; [by right | done]. }
      destruct Hx as [[_ ->]|(Hxe & cnt & Hcnt & ->)]; [done|].
      apply lookup_insert_ne. intros ->. apply Hno. split; [by left | done].
Qed.

(** The second loop, on the emergency lanes [1] and [m]. *)
Lemma emgc_direction_loop (m : Z) (s s' : t) :
  m ≠ 1 →
  forM [1; m] emgc_direction_body s = (Ok tt, s') →
  s'.(vxyCount) = s.(vxyCount) ∧ s'.(emgcIDs) = s.(emgcIDs) ∧
  ∃ d2 dm,
    s.(vDirDict) !! 2 = Some d2 ∧
    (<[1 := d2]> s.(vDirDict)) !! (m - 1) = Some dm ∧
    s'.(vDirDict) = <[m := dm]> (<[1 := d2]> s.(vDirDict)).
Proof.
  intros Hm. simpl.
  unfold emgc_direction_body, bind, get, lookupM, modify, ret, raise. simpl.
  change (1 + 1) with 2.
  destruct (vDirDict s !! 2) as [d2|] eqn:H2; [|done]. simpl.
  rewrite bool_decide_eq_false_2 by done.
  destruct (<[1:=d2]> (vDirDict s) !! (m - 1)) as [dm|] eqn:Hm1; [|done].
  intros [= <-]. simpl. repeat split. eauto.
Qed.

Lemma direction_Ok_inv (m : Z) (s s' : t) :
  s.(emgcIDs) = [1; m] → s.(laneIDs) = seqZ 1 m → m ≠ 1 →
  _distinguishLaneDirection s = (Ok tt, s') →
  s'.(vxyCount) = s.(vxyCount) ∧
  (∀ id, 1 < id < m →
     ∃ cnt, s.(vxyCount) !! id = Some cnt ∧
            s'.(vDirDict) !! id = Some (direction_of cnt)) ∧
  is_Some (s'.(vDirDict) !! 1) ∧
  s'.(vDirDict) !! 1 = s'.(vDirDict) !! 2 ∧
  is_Some (s'.(vDirDict) !! m) ∧
  s'.(vDirDict) !! m = s'.(vDirDict) !! (m - 1).
Proof.
  intros He Hl Hm. unfold _distinguishLaneDirection. intros Hc.
  inv_bind Hc as u s0 H0. injection H0 as <- <-.
  inv_get Hc.
  inv_bind Hc as u s0 H0. destruct u. simpl in H0. rewrite Hl in H0.
  apply direction_loop in H0 as (He1 & Hv1 & Hd). simpl in *.
  inv_get Hc.
  rewrite He1, He in Hc.
  apply emgc_direction_loop in Hc as (Hv2 & He2 & d2 & dm & H2 & Hm1 & HD);
    [|done].
  rewrite HD, Hv2, Hv1.
  assert (∀ id, 1 < id < m →
     ∃ cnt, vxyCount s !! id = Some cnt ∧
            vDirDict s0 !! id = Some (direction_of cnt)) as Hin.
  { intros id Hid. apply Hd.
    - apply elem_of_seqZ. lia.
    - rewrite He. intros [->|[->|?%elem_of_nil]%elem_of_cons]%elem_of_cons; lia. }
  repeat split; try done.
  - intros id Hid. destruct (Hin id Hid) as (cnt & Hcnt & Hdir).
    exists cnt. split; [done|].
    rewrite !lookup_insert_ne by lia. done.
  - rewrite lookup_insert_ne, lookup_insert_eq by done. eauto.
  - rewrite (lookup_insert_ne _ m 1), lookup_insert_eq by done.
    destruct (decide (m = 2)) as [->|Hm2].
    + rewrite lookup_insert_eq. simpl in Hm1.
      rewrite lookup_insert_eq in Hm1. done.
    + rewrite !lookup_insert_ne by lia. done.
  - rewrite lookup_insert_eq. eauto.
  - rewrite lookup_insert_eq, lookup_insert_ne by lia. done.
Qed.

(** ** Lanes with a vote counter have samples *)

Lemma samples_aset_eq s id l :
  samples (set_xyByLane (aset id l s.(xyByLane)) s) id = l.
Proof. unfold samples. simpl. by rewrite alookup_aset_eq. Qed.

Lemma samples_aset_ne s id id' l :
  id ≠ id' → samples (set_xyByLane (aset id l s.(xyByLane)) s) id' = samples s id'.
Proof. intros Hne. unfold samples. simpl. by rewrite alookup_aset_ne. Qed.

Lemma vote_voted laneID dx dy : preserves voted_have_samples (vote laneID dx dy).
Proof.
  intros s HP. unfold vote, bind, get, lookupM, modify, ret, raise.
  destruct (vxyCount s !! laneID) as [cnt|] eqn:Hcnt; simpl; [|done].
  intros id Hid. simpl in Hid. change (samples s id ≠ []). apply HP.
  destruct (decide (laneID = id)) as [<-|Hne]; [by rewrite Hcnt|].
  by rewrite lookup_insert_ne in Hid.
Qed.

Lemma sort_lane_voted lane key : preserves voted_have_samples (sort_lane lane key).
Proof.
  intros s HP. unfold sort_lane, bind, get, alookupM, modify, ret, raise.
  destruct (alookup lane (xyByLane s)) as [l|] eqn:Hl; simpl; [|done].
  intros id Hid. simpl in Hid. specialize (HP id Hid).
  destruct (decide (lane = id)) as [<-|Hne].
  - rewrite samples_aset_eq, sort_by_nil.
    unfold samples in HP. by rewrite Hl in HP.
  - by rewrite samples_aset_ne.
Qed.

Lemma setdefault_voted id s :
  voted_have_samples s →
  voted_have_samples (match alookup id s.(xyByLane) with
                      | Some _ => s
                      | None => set_xyByLane (aset id [] s.(xyByLane)) s
                      end).
Proof.
  intros HP. destruct (alookup id (xyByLane s)) eqn:Hid; [done|].
  intros id' Hid'. simpl in Hid'. specialize (HP id' Hid').
  destruct (decide (id = id')) as [<-|Hne].
  - unfold samples in HP. by rewrite Hid in HP.
  - by rewrite samples_aset_ne.
Qed.

Ltac frame_hook ::=
  lazymatch goal with
  | |- preserves voted_have_samples (vote _ _ _) => apply vote_voted
  | |- preserves voted_have_samples (sort_lane _ _) => apply sort_lane_voted
  | |- preserves voted_have_samples (modify (λ s, match alookup _ _ with _ => _ end)) =>
      apply preserves_modify, setdefault_voted
  end.

Lemma run_body_voted target : preserves voted_have_samples (run_body target).
Proof.
  intros s HP. unfold run_body.
  set (laneID := if bool_decide (100 < Car.laneID target)
                 then Car.laneID target - 100 else Car.laneID target).
  set (votes := bind (if Qltb 0 (Car.vx target) then _ else _) _).
  assert (preserves voted_have_samples votes) as Hvotes by (subst votes; frame).
  unfold bind at 1 2 3 4 5, get, modify, ret, alookupM. simpl.
  destruct (alookup laneID (xyByLane s)) as [l|] eqn:Hl; simpl.
  - rewrite Hl. unfold ret, bind at 1. simpl.
    apply Hvotes. intros id Hid. simpl in Hid. specialize (HP id Hid).
    destruct (decide (laneID = id)) as [<-|Hne].
    + rewrite samples_aset_eq. by destruct l.
    + by rewrite samples_aset_ne.
  - rewrite alookup_aset_eq. unfold ret, bind at 1. simpl.
    apply Hvotes. intros id Hid. simpl in Hid.
    destruct (decide (laneID = id)) as [<-|Hne].
    + unfold samples. simpl. by rewrite alookup_aset_eq.
    + rewrite lookup_insert_ne in Hid by done. specialize (HP id Hid).
      unfold samples in *. simpl. by rewrite !alookup_aset_ne.
Qed.

Lemma run_voted msg : preserves voted_have_samples (run msg).
Proof.
  unfold run. apply preserves_bind; [by apply preserves_modify|].
  intros _. apply preserves_forM, run_body_voted.
Qed.

Lemma calibrate_voted : preserves voted_have_samples calibrate.
Proof. frame. Qed.

(** ** A lane without samples stops the calibration *)

Lemma direction_loop_raises (L : Z) (l : list Z) (s : t) :
  L ∈ l → L ∉ s.(emgcIDs) → s.(vxyCount) !! L = None →
  ∃ s', forM l direction_body s = (Raise KeyError, s').
Proof.
  revert s. induction l as [|x l IH]; intros s HL He Hv.
  - by apply elem_of_nil in HL.
  - simpl. unfold bind at 1.
    destruct (direction_body x s) as [[[]|e] s0] eqn:Hx.
    + assert (emgcIDs s0 = emgcIDs s ∧ vxyCount s0 = vxyCount s ∧ L ≠ x)
        as (He0 & Hv0 & Hne).
      { revert Hx. unfold direction_body, bind, get, lookupM, modify, ret, raise.
        case_bool_decide as Hxe.
        - intros [= <-]. repeat split; try done. by intros ->.
        - destruct (vxyCount s !! x) as [cnt|] eqn:Hcnt; [|done].
          intros [= <-]. repeat split; try done. intros ->. congruence. }
      apply IH; [|by rewrite He0 | by rewrite Hv0].
      by apply elem_of_cons in HL as [?|?].
    + exists s0. revert Hx.
      unfold direction_body, bind, get, lookupM, modify, ret, raise.
      case_bool_decide; [done|].
      destruct (vxyCount s !! x); [done|]. by intros [= <- <-].
Qed.

Lemma direction_raises (m L : Z) (s : t) :
  s.(emgcIDs) = [1; m] → s.(laneIDs) = seqZ 1 m → 1 < L < m →
  s.(vxyCount) !! L = None →
  ∃ s', _distinguishLaneDirection s = (Raise KeyError, s').
Proof.
  intros He Hl HL Hv.
  destruct (direction_loop_raises L (seqZ 1 m) (set_vDirDict ∅ s)) as [s' Hs'];
    [apply elem_of_seqZ; lia | | done |].
  { simpl. rewrite He.
    intros [->|[->|?%elem_of_nil]%elem_of_cons]%elem_of_cons; lia. }
  exists s'. unfold _distinguishLaneDirection.
  unfold bind at 1, modify at 1. unfold bind at 1, get at 1. simpl.
  rewrite Hl. by erewrite bind_Raise.
Qed.

Lemma inner_outer_raises (m : Z) (s s' : t) (e : exn) :
  s.(emgcIDs) = [1; m] →
  _distinguishInnerAndOutboardLaneID s = (Raise e, s') →
  e = KeyError ∨ ∃ l, dbi l = Raise e.
Proof.
  intros He. unfold _distinguishInnerAndOutboardLaneID.
  unfold bind, get, indexM, alookupM, lift, modify, ret, raise.
  rewrite He. simpl.
  repeat (case_match; simplify_eq /=); intros; simplify_eq; eauto.
Qed.

(** ** The direction inference returns when every inner lane has voted *)

Lemma direction_loop_returns (l : list Z) (s : t) :
  (∀ id, id ∈ l → id ∉ s.(emgcIDs) → is_Some (s.(vxyCount) !! id)) →
  ∃ s', forM l direction_body s = (Ok tt, s').
Proof.
  revert s. induction l as [|x l IH]; intros s Hall; simpl.
  - by exists s.
  - assert (∃ s0, direction_body x s = (Ok tt, s0) ∧
              emgcIDs s0 = emgcIDs s ∧ vxyCount s0 = vxyCount s)
      as (s0 & Hx & He0 & Hv0).
    { unfold direction_body, bind, get, lookupM, modify, ret, raise.
      case_bool_decide as Hxe; [by exists s|].
      destruct (Hall x) as [cnt ->]; [by left | done |]. by eexists. }
    rewrite (bind_Ok _ _ _ _ _ Hx). apply IH.
    intros id Hid Hne. rewrite Hv0. rewrite He0 in Hne.
    apply Hall; [by right | done].
Qed.

Lemma direction_returns (m : Z) (s : t) :
  s.(emgcIDs) = [1; m] → s.(laneIDs) = seqZ 1 m → 2 < m →
  (∀ id, 1 < id < m → is_Some (s.(vxyCount) !! id)) →
  ∃ s', _distinguishLaneDirection s = (Ok tt, s').
Proof.
  intros He Hl Hm Hall.
  assert (∀ id, id ∈ [1; m] → ¬ 1 < id < m) as Hemgc.
  { intros id [->|[->|?%elem_of_nil]%elem_of_cons]%elem_of_cons; lia. }
  destruct (direction_loop_returns (seqZ 1 m) (set_vDirDict ∅ s)) as [s1 H1].
  { simpl. rewrite He. intros id Hid Hne. apply Hall.
    apply elem_of_seqZ in Hid.
    assert (id ≠ 1 ∧ id ≠ m) as [? ?]; [|lia].
    split; intros ->; apply Hne; [by left | right; by left]. }
  pose proof (direction_loop _ _ _ H1) as (He1 & Hv1 & Hd). simpl in *.
  assert (∀ id, 1 < id < m → is_Some (vDirDict s1 !! id)) as Hsome.
  { intros id Hid. destruct (Hd id) as [Hin _].
    destruct Hin as (cnt & _ & ->); [apply elem_of_seqZ; lia | | done].
    rewrite He. intros Hx. by apply (Hemgc id). }
  destruct (Hsome 2) as [d2 H2]; [lia|].
  destruct (Hsome (m - 1)) as [dm Hm1]; [lia|].
  eexists. unfold _distinguishLaneDirection.
  unfold bind at 1, modify at 1. unfold bind at 1, get at 1. simpl.
  rewrite Hl, (bind_Ok _ _ _ _ _ H1).
  unfold bind at 1, get at 1. rewrite He1, He. simpl.
  unfold emgc_direction_body, bind, get, lookupM, modify, ret, raise. simpl.
  change (1 + 1) with 2. rewrite H2. simpl.
  rewrite bool_decide_eq_false_2 by lia.
  rewrite lookup_insert_ne by lia. rewrite Hm1. reflexivity.
Qed.

End WithAlgorithms.
End CalibratorFacts.

Module CalibratorTheorems.
Import Calibrator CalibratorFacts.

Section WithAlgorithms.
Context `{Algorithms}.

Lemma pad_even_unique (M m : Z) :
  Z.even m = true → M ≤ m ≤ M + 1 → m = pad_even M.
Proof.
  intros Hm HM. destruct (pad_even_spec M) as (He & Hge & Hmin).
  apply Z.le_antisymm; [|apply Hmin; [done | lia]].
  clear He Hge Hmin. unfold pad_even. case_bool_decide as Hodd; [lia|].
  apply Z.even_spec in Hm as [k ->].
  pose proof (Z.div_mod M 2). pose proof (Z.mod_pos_bound M 2). lia.
Qed.

(** C4. Let [M] be the greatest observed lane id. Whatever [calibrate]
    does afterwards, it sets the emergency lanes to exactly the two ids
    [1] and [m], [m] being the smallest even number that is at least
    [M], and the lanes to [1..m]; and when [calibrate] returns, the
    [cells] list of each emergency lane exists and holds [False] only. *)
Theorem emergency_lanes (s s' : t) (r : result unit) (M : Z) :
  M ∈ akeys s.(xyByLane) → (∀ id, id ∈ akeys s.(xyByLane) → id ≤ M) →
  calibrate s = (r, s') →
  ∃ m, (Z.even m = true ∧ M ≤ m ∧ ∀ m', Z.even m' = true → M ≤ m' → m ≤ m') ∧
    s'.(emgcIDs) = [1; m] ∧ m ≠ 1 ∧ s'.(laneIDs) = seqZ 1 m ∧
    (r = Ok tt →
     ∀ id, id ∈ s'.(emgcIDs) →
       ∃ l, s'.(cells) !! id = Some l ∧ Forall (λ b, b = false) l).
Proof.
  intros HM Hmax Hc. exists (pad_even M).
  split; [apply pad_even_spec|].
  pose proof (step1_returns s M (py_max_spec _ _ HM Hmax)) as H1.
  set (s1 := set_emgcIDs _ _) in H1.
  assert (lanes_are [1; pad_even M] (seqZ 1 (pad_even M)) s1) as Hl1 by done.
  pose proof Hc as Hfull.
  unfold calibrate in Hc. rewrite (bind_Ok _ _ _ _ _ H1) in Hc.
  assert (lanes_are [1; pad_even M] (seqZ 1 (pad_even M)) s') as [He Hl].
  { eapply preserves_inv; [| exact Hl1 | exact Hc].
    frame. }
  split; [done|]. split; [apply pad_even_ne_1|]. split; [done|].
  intros -> id Hid.
  apply calibrate_Ok_inv in Hfull
    as (t1 & t2 & t3 & t4 & t5 & t6 & _ & _ & _ & _ & _ & _ & H7).
  apply calibCells_Ok_inv in H7 as (cellNum & sa & Hsa & Hloop).
  assert (emgcIDs sa = [1; pad_even M]) as Hea.
  { assert (preserves (lanes_are (emgcIDs sa) (laneIDs sa))
              (forM (emgcIDs sa) (emgc_cells_body cellNum))) as Hp by frame.
    destruct (preserves_inv _ _ _ _ _ Hp (conj eq_refl eq_refl) Hloop) as [Hx _].
    congruence. }
  rewrite Hea in Hloop. apply emgc_cells_loop in Hloop. subst s'. simpl.
  exists (replicate (Z.to_nat cellNum) false).
  split; [|by apply Forall_replicate].
  rewrite He in Hid.
  apply elem_of_cons in Hid as [->|[->|?%elem_of_nil]%elem_of_cons]; [| |done].
  - rewrite lookup_insert_ne by apply pad_even_ne_1. apply lookup_insert_eq.
  - apply lookup_insert_eq.
Qed.

(** C8. When [calibrate] returns, with [m] the second emergency lane:
    every lane of [1..m] that is not an emergency lane has a direction
    whose component is [-1] exactly when the lane's vote is negative
    and [+1] otherwise (so a vote of 0 gives [+1]); lane [1] has the
    direction of lane [2] and lane [m] that of lane [m - 1]. *)
Theorem lane_directions (s s' : t) :
  calibrate s = (Ok tt, s') →
  ∃ m, s'.(emgcIDs) = [1; m] ∧ s'.(laneIDs) = seqZ 1 m ∧
    (∀ id, id ∈ s'.(laneIDs) → id ∉ s'.(emgcIDs) →
       ∃ cnt dir,
         s.(vxyCount) !! id = Some cnt ∧ s'.(vDirDict) !! id = Some dir ∧
         XY.x dir = (if bool_decide (XY.x cnt < 0) then -1 else 1) ∧
         XY.y dir = (if bool_decide (XY.y cnt < 0) then -1 else 1)) ∧
    is_Some (s'.(vDirDict) !! 1) ∧
    s'.(vDirDict) !! 1 = s'.(vDirDict) !! 2 ∧
    is_Some (s'.(vDirDict) !! m) ∧
    s'.(vDirDict) !! m = s'.(vDirDict) !! (m - 1).
Proof.
  intros Hc.
  pose proof (preserves_inv _ _ _ _ _ (calibrate_votes (vxyCount s)) eq_refl Hc)
    as Hvotes. simpl in Hvotes.
  apply calibrate_Ok_inv in Hc
    as (s1 & s2 & s3 & s4 & s5 & s6 & H1 & H2 & H3 & H4 & H5 & H6 & H7).
  apply step1_Ok_inv in H1 as (M & _ & Hs1).
  set (m := pad_even M) in *. exists m.
  assert (lanes_are [1; m] (seqZ 1 m) s1) as Hl1 by (by subst s1).
  pose proof (preserves_inv _ _ _ _ _ (step2_lanes _ _) Hl1 H2) as Hl2.
  pose proof (preserves_inv _ _ _ _ _ (step3_lanes _ _) Hl2 H3) as Hl3.
  pose proof (preserves_inv _ _ _ _ _ (step4_lanes _ _) Hl3 H4) as Hl4.
  pose proof (preserves_inv _ _ _ _ _ (step5_lanes _ _) Hl4 H5) as Hl5.
  pose proof (preserves_inv _ _ _ _ _ (step6_lanes _ _) Hl5 H6) as Hl6.
  pose proof (preserves_inv _ _ _ _ _ (step7_lanes _ _) Hl6 H7) as [He7 Hl7].
  assert (dirs_are (vDirDict s3) (vxyCount s3) s3) as Hd3 by done.
  pose proof (preserves_inv _ _ _ _ _ (step4_dirs _ _) Hd3 H4) as Hd4.
  pose proof (preserves_inv _ _ _ _ _ (step5_dirs _ _) Hd4 H5) as Hd5.
  pose proof (preserves_inv _ _ _ _ _ (step6_dirs _ _) Hd5 H6) as Hd6.
  pose proof (preserves_inv _ _ _ _ _ (step7_dirs _ _) Hd6 H7) as [Hd7 Hv7].
  destruct Hl2 as [He2 Hll2].
  apply (direction_Ok_inv m) in H3
    as (Hv3 & Hin & Hs1' & H12 & Hsm & Hm1); [| done | done | apply pad_even_ne_1].
  rewrite Hd7, He7, Hl7.
  assert (vxyCount s2 = vxyCount s) as Hv2 by congruence.
  rewrite Hv2 in Hin.
  repeat split; try done.
  intros id Hid Hne. apply elem_of_seqZ in Hid.
  destruct (Hin id) as (cnt & Hcnt & Hdir).
  { assert (id ≠ 1 ∧ id ≠ m) as [? ?]; [|lia].
    split; intros ->; apply Hne; [by left | right; by left]. }
  exists cnt, (direction_of cnt). done.
Qed.

End WithAlgorithms.

(** *** A calibration that runs *)

Lemma fed_keys : akeys Toy.fed.(xyByLane) = [2; 3].
Proof. reflexivity. Qed.

Lemma fed_calibrates :
  (@calibrate Toy.algorithms Toy.fed).1 = Ok tt.
Proof. by vm_compute. Qed.

Lemma emergency_lanes_witness :
  let s' := (@calibrate Toy.algorithms Toy.fed).2 in
  3 ∈ akeys Toy.fed.(xyByLane) ∧
  (∀ id, id ∈ akeys Toy.fed.(xyByLane) → id ≤ 3) ∧
  @calibrate Toy.algorithms Toy.fed = (Ok tt, s') ∧
  ∃ m, (Z.even m = true ∧ 3 ≤ m ∧ ∀ m', Z.even m' = true → 3 ≤ m' → m ≤ m') ∧
    s'.(emgcIDs) = [1; m] ∧ m ≠ 1 ∧ s'.(laneIDs) = seqZ 1 m ∧
    (Ok tt = Ok tt →
     ∀ id, id ∈ s'.(emgcIDs) →
       ∃ l, s'.(cells) !! id = Some l ∧ Forall (λ b, b = false) l).
Proof.
  intros s'.
  assert (3 ∈ akeys Toy.fed.(xyByLane)) as H3
    by (rewrite fed_keys; apply list_elem_of_further, list_elem_of_here).
  assert (∀ id, id ∈ akeys Toy.fed.(xyByLane) → id ≤ 3) as Hmax.
  { rewrite fed_keys.
    intros id [->|[->|?%elem_of_nil]%elem_of_cons]%elem_of_cons; [lia | lia | done]. }
  assert (@calibrate Toy.algorithms Toy.fed = (Ok tt, s')) as Hc.
  { subst s'. rewrite <- fed_calibrates. apply surjective_pairing. }
  split; [exact H3|]. split; [exact Hmax|]. split; [exact Hc|].
  exact (@emergency_lanes Toy.algorithms Toy.fed s' (Ok tt) 3 H3 Hmax Hc).
Defined.

Lemma lane_directions_witness :
  let s' := (@calibrate Toy.algorithms Toy.fed).2 in
  @calibrate Toy.algorithms Toy.fed = (Ok tt, s') ∧
  Toy.fed.(vxyCount) !! 2 = Some (XY.mk 1 2) ∧
  Toy.fed.(vxyCount) !! 3 = Some (XY.mk 0 (-2)) ∧
  s'.(vDirDict) !! 2 = Some (XY.mk 1 1) ∧
  s'.(vDirDict) !! 3 = Some (XY.mk 1 (-1)) ∧
  ∃ m, s'.(emgcIDs) = [1; m] ∧
    s'.(vDirDict) !! 1 = s'.(vDirDict) !! 2 ∧
    s'.(vDirDict) !! m = s'.(vDirDict) !! (m - 1).
Proof.
  intros s'.
  assert (@calibrate Toy.algorithms Toy.fed = (Ok tt, s')) as Hc.
  { subst s'. rewrite <- fed_calibrates. apply surjective_pairing. }
  split; [exact Hc|].
  split; [by vm_compute|]. split; [by vm_compute|].
  split; [by vm_compute|]. split; [by vm_compute|].
  destruct (@lane_directions Toy.algorithms Toy.fed s' Hc)
    as (m & He & _ & _ & _ & H12 & _ & Hm).
  exists m. split; [exact He|]. split; [exact H12 | exact Hm].
Defined.

End CalibratorTheorems.

(** * Further facts about [CellMng] *)

Module CellMoreFacts.
Import CellMng CellSpec CellFacts CellMore.

Lemma replicate_snoc {A} (n : nat) (a : A) :
  replicate (S n) a = replicate n a ++ [a].
Proof. induction n as [|n IH]; [done|]. simpl in *. by rewrite <- IH. Qed.

Lemma Qmin_clamp (a r top : Q) :
  (0 <= r)%Q → (Qmin (Qmin a top + r) top == Qmin (a + r) top)%Q.
Proof.
  intros Hr.
  destruct (Q.min_spec a top) as [[? ->]|[? ->]];
    destruct (Q.min_spec (a + r) top) as [[? ->]|[? ->]];
    try (destruct (Q.min_spec (top + r) top) as [[? ->]|[? ->]]); lra.
Qed.

(** What a returning [updateTraffic] wrote. *)
Lemma updateTraffic_Ok_inv (c c' : t) :
  updateTraffic c = (Ok tt, c') →
  baseT c ≠ 0 ∧ ¬ (c.(len) == 0)%Q ∧
  c'.(aveCarNum) = (ncars c / inject_Z (baseT c))%Q ∧
  c'.(k) = (c'.(aveCarNum) / c.(len) * 1000)%Q ∧
  c'.(v) = (if Qeq_bool c'.(aveCarNum) 0 then 0
            else Qabs (sumQ (vys c)) / ncars c)%Q ∧
  c'.(q) = (c'.(k) * c'.(v) * 3.6)%Q.
Proof.
  unfold updateTraffic, truediv, bind, get, modify, ret, raise, ncars, vys.
  simpl.
  destruct (Qeq_bool (inject_Z (baseT c)) 0) eqn:Hb; [done|]. simpl.
  destruct (Qeq_bool (len c) 0) eqn:Hl; [done|]. simpl.
  apply Qeq_bool_false in Hl.
  assert (baseT c ≠ 0) as HT by (intros Hz; by rewrite Hz in Hb).
  destruct (Qeq_bool (_ / _) 0) eqn:Ha; simpl.
  - intros [= <-]. simpl. rewrite Ha. done.
  - destruct (Qeq_bool (inject_Z (Z.of_nat (length (concat (cache c))))) 0)
      eqn:Hn; [done|]. simpl.
    intros [= <-]. simpl. rewrite Ha. done.
Qed.

End CellMoreFacts.

Module CellMoreTheorems.
Import CellMng CellSpec CellFacts CellMore CellMoreFacts.

(** X1. When the most recent frame holds a vehicle, [updateDanger]
    returns and leaves the cell exactly as [resetDanger] would; its
    flag is [True] exactly when a vehicle of that frame is over the
    lateral speed threshold. *)
Theorem updateDanger_occupied (c : t) (frame : list Car.t) :
  last c.(cache) = Some frame → frame ≠ [] →
  ∃ b, updateDanger c = (Ok (b, c.(order)), (resetDanger c).2) ∧
       (b = true ↔ ∃ car, car ∈ frame ∧ swerves c car).
Proof.
  intros Hlast Hne.
  exists (existsb (λ car, Qltb c.(vLat) (Qabs (Car.vx car))) frame). split.
  - unfold updateDanger, resetDanger, bind, get, modify, ret. simpl.
    rewrite Hlast. rewrite bool_decide_eq_false_2; [done|].
    by destruct frame.
  - rewrite existsb_exists. unfold swerves.
    split; intros (car & Hin & Hv); exists car.
    + split; [by apply list_elem_of_In | by apply Qltb_true].
    + split; [by apply list_elem_of_In | by apply Qltb_true].
Qed.

Lemma updateDanger_occupied_witness :
  let c := run_calls Scenario.fresh_cell
             [UpdateCache [Scenario.car 0 10; Scenario.car 3 20]] in
  last c.(cache) = Some [Scenario.car 0 10; Scenario.car 3 20] ∧
  ∃ b, updateDanger c = (Ok (b, c.(order)), (resetDanger c).2) ∧
       (b = true ↔ ∃ car, car ∈ [Scenario.car 0 10; Scenario.car 3 20] ∧
                          swerves c car).
Proof.
  intros c. split; [reflexivity|].
  apply (updateDanger_occupied c); [reflexivity | done].
Defined.

(** X2. From construction, as long as [updateCache] has not been
    called, [updateDanger] raises [IndexError] (there is no last frame)
    and leaves the cell as it is. *)
Theorem updateDanger_needs_frame (c0 : t) (os : list call) :
  constructed c0 → Forall (λ o, is_update_cache o = false) os →
  let c := run_calls c0 os in
  updateDanger c = (Raise IndexError, c).
Proof.
  intros Hc Hos c.
  assert (cache c = []) as Hcache.
  { subst c. induction os as [|o os IH] using rev_ind.
    - by apply constructed_fields in Hc as (_ & _ & _ & _ & _ & ? & _).
    - apply Forall_app in Hos as [Hos Ho]. apply Forall_inv in Ho.
      rewrite run_calls_snoc, step_cache_other; [by apply IH|].
      intros cars ->. done. }
  unfold updateDanger, bind, get, raise. simpl. by rewrite Hcache.
Qed.

Lemma updateDanger_needs_frame_witness :
  let os := [UpdateR1 500; UpdateDangerPassive; UpdateDanger] in
  let c := run_calls Scenario.fresh_cell os in
  Forall (λ o, is_update_cache o = false) os ∧
  updateDanger c = (Raise IndexError, c).
Proof.
  intros os c.
  assert (Forall (λ o, is_update_cache o = false) os) as Hos
    by (repeat constructor).
  split; [exact Hos|].
  exact (updateDanger_needs_frame Scenario.fresh_cell os
           CellTheorems.fresh_constructed Hos).
Defined.

Lemma updateDanger_empty_frame (c : t) :
  last c.(cache) = Some [] →
  updateDanger c =
    (Ok (false, c.(order)),
     let dt := (if Qltb c.(dangerTimeTop) (c.(dangerTime) + c.(r1))
                then c.(dangerTimeTop) else c.(dangerTime) + c.(r1))%Q in
     set_danger (dt + c.(dangerChange))%Q (set_dangerTime dt c)).
Proof.
  intros Hlast. unfold updateDanger, bind, get, modify, ret. simpl.
  rewrite Hlast. simpl. by destruct (Qltb _ _).
Qed.

(** X3. While the most recent frame stays empty and the rate [r1] is
    not negative, [k] calls of [updateDanger] never lower [dangerTime]
    and never take it above [dangerTimeTop]; a [dangerTime] that is at
    the cap stays at the cap. [dangerChange] is not touched, and the
    next call returns [(False, order)]. *)
Theorem updateDanger_climbs (c : t) (k : nat) :
  last c.(cache) = Some [] →
  (0 <= c.(r1))%Q → (c.(dangerTime) <= c.(dangerTimeTop))%Q →
  let c' := run_calls c (replicate k UpdateDanger) in
  (c.(dangerTime) <= c'.(dangerTime) <= c.(dangerTimeTop))%Q ∧
  ((c.(dangerTime) == c.(dangerTimeTop))%Q →
   (c'.(dangerTime) == c.(dangerTimeTop))%Q) ∧
  c'.(dangerChange) = c.(dangerChange) ∧
  updateDanger c' = (Ok (false, c.(order)), step c' UpdateDanger).
Proof.
  intros Hlast Hr Hle. simpl.
  assert (let c' := run_calls c (replicate k UpdateDanger) in
          (c.(dangerTime) <= c'.(dangerTime) <= c.(dangerTimeTop))%Q ∧
          ((c.(dangerTime) == c.(dangerTimeTop))%Q →
           (c'.(dangerTime) == c.(dangerTimeTop))%Q) ∧
          c'.(dangerChange) = c.(dangerChange) ∧ c'.(cache) = c.(cache) ∧
          c'.(r1) = c.(r1) ∧ c'.(dangerTimeTop) = c.(dangerTimeTop) ∧
          c'.(order) = c.(order))
    as (Hdt & Hcap & Hdc & Hcache & Hr1 & Htop & Hord).
  { induction k as [|k IH].
    - simpl. repeat split; try done; lra.
    - rewrite replicate_snoc, run_calls_snoc.
      destruct IH as (Hdt & Hcap & Hdc & Hcache & Hr1 & Htop & Hord).
      set (ck := run_calls c (replicate k UpdateDanger)) in *.
      simpl. rewrite updateDanger_empty_frame by (by rewrite Hcache).
      simpl. rewrite Hr1, Htop.
      destruct (Qltb _ _) eqn:Hlt.
      + apply Qltb_true in Hlt. repeat split; try done; lra.
      + apply Qltb_false in Hlt. repeat split; try done; lra. }
  repeat split; try done; try lra.
  simpl. rewrite updateDanger_empty_frame by (by rewrite Hcache).
  by rewrite Hord.
Qed.

Lemma updateDanger_climbs_witness :
  let c := run_calls Scenario.fresh_cell
             [UpdateR1 20000; UpdateCache []] in
  let c' := run_calls c (replicate 4 UpdateDanger) in
  last c.(cache) = Some [] ∧ (c.(r1) == 1 # 5)%Q ∧
  (c.(dangerTime) <= c.(dangerTimeTop))%Q ∧
  (c.(dangerTime) <= c'.(dangerTime) <= c.(dangerTimeTop))%Q ∧
  c'.(dangerChange) = c.(dangerChange).
Proof.
  intros c c'. split; [reflexivity|]. split; [reflexivity|].
  split; [by vm_compute|].
  destruct (updateDanger_climbs c 4) as (Hdt & _ & Hdc & _);
    [reflexivity | by vm_compute | by vm_compute |].
  split; [exact Hdt | exact Hdc].
Defined.

(** X4. With a window that holds frames but no vehicle,
    [updateTraffic] returns and sets [aveCarNum], [k], [v] and [q] to 0
    (the cell was constructed with a length that is not zero). *)
Theorem updateTraffic_no_vehicle (c0 : t) (os : list call) :
  constructed c0 → ¬ (c0.(len) == 0)%Q →
  let c := run_calls c0 os in
  c.(cache) ≠ [] → concat c.(cache) = [] →
  ∃ c', updateTraffic c = (Ok tt, c') ∧
    (c'.(aveCarNum) == 0)%Q ∧ (c'.(k) == 0)%Q ∧
    (c'.(v) == 0)%Q ∧ (c'.(q) == 0)%Q.
Proof.
  intros Hc0 Hlen c Hne Hcars.
  apply constructed_fields in Hc0 as (_ & _ & _ & _ & _ & Hempty & _).
  destruct (run_calls_config c0 os) as (HR & _ & _ & _ & Hl).
  assert (baseT c ≠ 0) as HT.
  { pose proof (cache_bounded c0 os) as Hb. rewrite Hempty in Hb.
    apply baseT_nonzero; [|done].
    subst c. rewrite HR. apply Hb. simpl. lia. }
  assert (Qeq_bool (inject_Z (baseT c)) 0 = false) as Hb
    by (by apply inject_Z_nonzero).
  assert (Qeq_bool (len c) 0 = false) as Hlb
    by (apply Qeq_bool_false; subst c; by rewrite Hl).
  eexists. split.
  { unfold updateTraffic, truediv, bind, get, modify, ret, raise. simpl.
    rewrite Hcars. simpl. rewrite Hb. simpl. rewrite Hlb. simpl.
    reflexivity. }
  simpl. repeat split; unfold Qeq, Qdiv, Qmult; simpl; lia.
Qed.

Lemma updateTraffic_no_vehicle_witness :
  let c := run_calls Scenario.fresh_cell [UpdateCache []; UpdateCache []] in
  constructed Scenario.fresh_cell ∧ c.(cache) = [[]; []] ∧
  ∃ c', updateTraffic c = (Ok tt, c') ∧
    (c'.(aveCarNum) == 0)%Q ∧ (c'.(k) == 0)%Q ∧
    (c'.(v) == 0)%Q ∧ (c'.(q) == 0)%Q.
Proof.
  intros c. split; [apply CellTheorems.fresh_constructed|].
  split; [reflexivity|].
  apply (updateTraffic_no_vehicle Scenario.fresh_cell
           [UpdateCache []; UpdateCache []]);
    [apply CellTheorems.fresh_constructed | by vm_compute | done | reflexivity].
Defined.

(** X5. On a cell of length 0 whose window base is not 0,
    [updateTraffic] raises [ZeroDivisionError] at [aveCarNum / len]
    after it has already overwritten [aveCarNum]: [k], [v] and [q] keep
    their old values beside the new [aveCarNum]. *)
Theorem updateTraffic_zero_length (c : t) :
  baseT c ≠ 0 → (c.(len) == 0)%Q →
  updateTraffic c =
    (Raise ZeroDivisionError,
     set_aveCarNum (ncars c / inject_Z (baseT c))%Q c).
Proof.
  intros HT Hlen.
  unfold updateTraffic, truediv, bind, get, modify, ret, raise, ncars. simpl.
  rewrite inject_Z_nonzero by done. simpl.
  apply Qeq_bool_iff in Hlen. by rewrite Hlen.
Qed.

Lemma updateTraffic_zero_length_witness :
  let c := set_cache [[Scenario.car 0 10]]
             (mk 2 0 true 0 0 0 0 7 7 7 (1 # 100) 1000 0 (1 # 10) 2
                 0 0 0 (1 # 2) [] 3 false) in
  baseT c = 1 ∧ (c.(len) == 0)%Q ∧
  (updateTraffic c).1 = Raise ZeroDivisionError ∧
  ((updateTraffic c).2.(aveCarNum) == 1)%Q ∧
  ((updateTraffic c).2.(k) == 7)%Q.
Proof.
  intros c. split; [reflexivity|]. split; [reflexivity|].
  rewrite (updateTraffic_zero_length c); [| by vm_compute | reflexivity].
  split; [reflexivity|]. split; reflexivity.
Defined.

(** X6. On a cell constructed with a positive length, whenever
    [updateTraffic] returns, [aveCarNum], [k], [v] and [q] are not
    negative. *)
Theorem updateTraffic_nonneg (c0 c' : t) (os : list call) :
  constructed c0 → (0 < c0.(len))%Q →
  updateTraffic (run_calls c0 os) = (Ok tt, c') →
  (0 <= c'.(aveCarNum))%Q ∧ (0 <= c'.(k))%Q ∧
  (0 <= c'.(v))%Q ∧ (0 <= c'.(q))%Q.
Proof.
  intros Hc0 Hlen Hrun.
  apply constructed_fields in Hc0 as (_ & _ & _ & _ & _ & Hempty & _).
  destruct (run_calls_config c0 os) as (HR & _ & _ & _ & Hl).
  set (c := run_calls c0 os) in *.
  apply updateTraffic_Ok_inv in Hrun as (HT & _ & Ha & Hk & Hv & Hq).
  assert (0 <= ncars c)%Q as Hn.
  { unfold ncars. change 0%Q with (inject_Z 0). rewrite <- Zle_Qle. lia. }
  assert (0 <= aveCarNum c')%Q as Hap.
  { rewrite Ha.
    destruct (decide (length (cache c) = 0%nat)) as [Hz|Hnz].
    - apply length_zero_iff_nil in Hz. unfold ncars. rewrite Hz. simpl.
      unfold Qdiv. rewrite Qmult_0_l. lra.
    - assert (0 < baseT c).
      { pose proof (cache_bounded c0 os) as Hb. rewrite Hempty in Hb.
        fold c in Hb. rewrite <- HR in Hb. specialize (Hb ltac:(simpl; lia)).
        unfold baseT. case_bool_decide; lia. }
      apply Qle_shift_div_l.
      + change 0%Q with (inject_Z 0). rewrite <- Zlt_Qlt. done.
      + lra. }
  assert (0 <= k c')%Q as Hkp.
  { rewrite Hk, Hl.
    assert (0 <= aveCarNum c' / len c0)%Q
      by (apply Qle_shift_div_l; [done | lra]).
    lra. }
  assert (0 <= v c')%Q as Hvp.
  { rewrite Hv. destruct (Qeq_bool _ _) eqn:Hz; [lra|].
    destruct (Qeq_dec (ncars c) 0) as [Hn0|Hn0].
    - unfold Qdiv. rewrite Hn0. unfold Qinv. simpl. rewrite Qmult_0_r. lra.
    - apply Qle_shift_div_l; [lra|].
      rewrite Qmult_0_l. apply Qabs_nonneg. }
  repeat split; try done.
  rewrite Hq.
  assert (0 <= k c' * v c')%Q by (by apply Qmult_le_0_compat).
  assert (3.6 == 18 # 5)%Q as -> by reflexivity. lra.
Qed.

Lemma updateTraffic_nonneg_witness :
  let os := Scenario.busy_frames in
  let c' := (updateTraffic (run_calls Scenario.fresh_cell os)).2 in
  constructed Scenario.fresh_cell ∧ (0 < Scenario.fresh_cell.(len))%Q ∧
  updateTraffic (run_calls Scenario.fresh_cell os) = (Ok tt, c') ∧
  (0 <= c'.(aveCarNum))%Q ∧ (0 <= c'.(k))%Q ∧
  (0 <= c'.(v))%Q ∧ (0 <= c'.(q))%Q.
Proof.
  intros os c'.
  assert (updateTraffic (run_calls Scenario.fresh_cell os) = (Ok tt, c')) as Hrun
    by (vm_compute; reflexivity).
  split; [apply CellTheorems.fresh_constructed|]. split; [reflexivity|].
  split; [exact Hrun|].
  exact (updateTraffic_nonneg Scenario.fresh_cell c' os
           CellTheorems.fresh_constructed eq_refl Hrun).
Defined.

(** X7. [updateTraffic] writes the traffic figures only: returning or
    raising, it leaves the cache, the danger score and its parts, the
    rate and the boost guard as they were. *)
Theorem updateTraffic_frame (c : t) :
  let c' := (updateTraffic c).2 in
  c'.(cache) = c.(cache) ∧ c'.(dangerTime) = c.(dangerTime) ∧
  c'.(dangerChange) = c.(dangerChange) ∧ c'.(danger) = c.(danger) ∧
  c'.(r1) = c.(r1) ∧ c'.(r2added) = c.(r2added).
Proof.
  unfold updateTraffic, truediv, bind, get, modify, ret, raise. simpl.
  repeat (case_match; simplify_eq /=); done.
Qed.

Lemma step_boost_nonneg (c0 c : t) (o : call) :
  c.(r1s) = c0.(r1s) → c.(qs) = c0.(qs) → rate_ok c0 o →
  (0 <= c.(r2))%Q →
  danger_inv c ∧ (0 <= c.(dangerChange))%Q →
  danger_inv (step c o) ∧ (0 <= (step c o).(dangerChange))%Q.
Proof.
  intros Hr1s Hqs Ho Hr2 [Hinv Hdc].
  split; [by eapply CellTheorems.step_inv|].
  destruct o; unfold_methods; simpl in *;
    repeat (case_match; simplify_eq /=); try done; lra.
Qed.

(** X8. From construction with a boost [r2 >= 0], along every sequence
    of calls in which each [updateR1] yields a rate that is not
    negative, [dangerChange] and [danger] are never negative and
    [danger] is at least [dangerTime]. *)
Theorem danger_nonneg (c0 : t) (os : list call) :
  constructed c0 → (0 <= c0.(r2))%Q → Forall (rate_ok c0) os →
  let c := run_calls c0 os in
  (0 <= c.(dangerChange))%Q ∧ (c.(dangerTime) <= c.(danger))%Q ∧
  (0 <= c.(danger))%Q.
Proof.
  intros Hc Hr2 Hos. simpl.
  assert (danger_inv (run_calls c0 os) ∧ (0 <= (run_calls c0 os).(dangerChange))%Q)
    as [(_ & _ & Hdt & Hd) Hdc].
  { induction os as [|o os IH] using rev_ind.
    - split; [by apply CellTheorems.constructed_inv|].
      apply constructed_fields in Hc as (_ & _ & Hdc & _).
      simpl. rewrite Hdc. lra.
    - apply Forall_app in Hos as [Hos Ho]. apply Forall_inv in Ho.
      rewrite run_calls_snoc.
      destruct (run_calls_config c0 os) as (_ & _ & Hr1s & Hqs & _).
      eapply step_boost_nonneg; eauto.
      clear -Hr2. induction os as [|o' os IH] using rev_ind; [done|].
      rewrite run_calls_snoc.
      by destruct (step_config (run_calls c0 os) o') as (_ & _ & _ & _ & -> & _). }
  rewrite Hd. repeat split; lra.
Qed.

Lemma danger_nonneg_witness :
  let c := run_calls Scenario.fresh_cell Scenario.mixed_calls in
  constructed Scenario.fresh_cell ∧ (0 <= Scenario.fresh_cell.(r2))%Q ∧
  Forall (rate_ok Scenario.fresh_cell) Scenario.mixed_calls ∧
  (0 <= c.(dangerChange))%Q ∧ (c.(dangerTime) <= c.(danger))%Q ∧
  (0 <= c.(danger))%Q.
Proof.
  assert (Forall (rate_ok Scenario.fresh_cell) Scenario.mixed_calls) as Hos.
  { repeat constructor. by vm_compute. }
  assert (0 <= Scenario.fresh_cell.(r2))%Q as Hr2 by (by vm_compute).
  split; [apply CellTheorems.fresh_constructed|]. split; [exact Hr2|].
  split; [exact Hos|].
  exact (danger_nonneg Scenario.fresh_cell Scenario.mixed_calls
           CellTheorems.fresh_constructed Hr2 Hos).
Defined.

End CellMoreTheorems.

Module CellEdgeTheorems.
Import CellMng CellSpec CellFacts CellMore.

(** X23 ([CellMng.updateR1]).  On a cell constructed with a standard
    flow [qs] of zero, [updateR1] raises [ZeroDivisionError] whenever it
    is called, whatever calls came before, and leaves the cell as it
    is. *)
Theorem updateR1_zero_standard (c0 : t) (os : list call) (flow : Q) :
  (c0.(qs) == 0)%Q →
  updateR1 flow (run_calls c0 os) =
    (Raise ZeroDivisionError, run_calls c0 os).
Proof.
  intros Hqs.
  destruct (run_calls_config c0 os) as (_ & _ & _ & Hq & _).
  unfold updateR1, bind, get, truediv. rewrite Hq.
  apply Qeq_bool_iff in Hqs. by rewrite Hqs.
Qed.

Lemma updateR1_zero_standard_witness :
  let c0 := mk 2 0 true 50 0 50 0 0 0 0 (1 # 100) 0 0 (1 # 10) 2
               0 0 0 (1 # 2) [] 3 false in
  let os := [UpdateCache [Scenario.car 0 10]; UpdateDanger] in
  (c0.(qs) == 0)%Q ∧
  updateR1 500 (run_calls c0 os) = (Raise ZeroDivisionError, run_calls c0 os).
Proof.
  intros c0 os.
  assert (c0.(qs) == 0)%Q as Hqs by reflexivity.
  split; [exact Hqs|].
  exact (updateR1_zero_standard c0 os 500 Hqs).
Defined.

End CellEdgeTheorems.

(** * Further facts about [Calibrator]: feeding frames *)

Module RunFacts.
Import Calibrator CalibratorFacts CalibratorMore.

Lemma sumZ_snoc (l : list Z) (a : Z) : sumZ (l ++ [a]) = sumZ l + a.
Proof. unfold sumZ. by rewrite foldl_snoc. Qed.

Lemma on_lane_snoc (id : Z) (tgts : list Car.t) (target : Car.t) :
  on_lane id (tgts ++ [target]) =
    if decide (lane_of target = id) then on_lane id tgts ++ [target]
    else on_lane id tgts.
Proof.
  unfold on_lane. rewrite filter_app, filter_cons, filter_nil.
  destruct (decide (lane_of target = id)); [done | by rewrite app_nil_r].
Qed.

(** One vote: the counter of the lane moves by [(dx, dy)]. *)
Lemma vote_returns (id dx dy : Z) (cnt : XY.t Z) (s : t) :
  s.(vxyCount) !! id = Some cnt →
  vote id dx dy s =
    (Ok tt, set_vxyCount
              (<[id := XY.mk (XY.x cnt + dx) (XY.y cnt + dy)]> s.(vxyCount)) s).
Proof.
  intros Hcnt. unfold vote, bind, get, lookupM, modify. by rewrite Hcnt.
Qed.

(** The two votes of a target add [(sgn vx, sgn vy)] to its lane. *)
Lemma votes_return (id : Z) (target : Car.t) (cnt : XY.t Z) (s : t) :
  s.(vxyCount) !! id = Some cnt →
  ∃ s',
    ((if Qltb 0 (Car.vx target) then vote id 1 0
      else if Qltb (Car.vx target) 0 then vote id (-1) 0 else ret tt) ;;;
     (if Qltb 0 (Car.vy target) then vote id 0 1
      else if Qltb (Car.vy target) 0 then vote id 0 (-1) else ret tt)) s
      = (Ok tt, s') ∧
    s'.(xyByLane) = s.(xyByLane) ∧ s'.(count) = s.(count) ∧
    s'.(vxyCount) !! id =
      Some (XY.mk (XY.x cnt + sgn (Car.vx target))
                  (XY.y cnt + sgn (Car.vy target))) ∧
    ∀ j, j ≠ id → s'.(vxyCount) !! j = s.(vxyCount) !! j.
Proof.
  intros Hcnt. unfold sgn.
  assert (∃ s1,
    (if Qltb 0 (Car.vx target) then vote id 1 0
     else if Qltb (Car.vx target) 0 then vote id (-1) 0 else ret tt) s
      = (Ok tt, s1) ∧
    s1.(xyByLane) = s.(xyByLane) ∧ s1.(count) = s.(count) ∧
    s1.(vxyCount) !! id =
      Some (XY.mk (XY.x cnt + (if Qltb 0 (Car.vx target) then 1
                               else if Qltb (Car.vx target) 0 then -1 else 0))
                  (XY.y cnt)) ∧
    ∀ j, j ≠ id → s1.(vxyCount) !! j = s.(vxyCount) !! j)
    as (s1 & H1 & Hxy1 & Hc1 & Hid1 & Hne1).
  { destruct (Qltb 0 (Car.vx target)); [|destruct (Qltb (Car.vx target) 0)].
    - eexists. split; [by apply vote_returns|]. simpl.
      rewrite lookup_insert_eq, Z.add_0_r. repeat split; try done.
      intros j Hj. by rewrite lookup_insert_ne.
    - eexists. split; [by apply vote_returns|]. simpl.
      rewrite lookup_insert_eq, Z.add_0_r. repeat split; try done.
      intros j Hj. by rewrite lookup_insert_ne.
    - exists s. rewrite Z.add_0_r. destruct cnt. done. }
  rewrite (bind_Ok _ _ _ _ _ H1).
  destruct (Qltb 0 (Car.vy target)); [|destruct (Qltb (Car.vy target) 0)].
  - eexists. split; [by apply vote_returns|]. simpl.
    rewrite lookup_insert_eq, Z.add_0_r. repeat split; try done.
    intros j Hj. rewrite lookup_insert_ne by done. auto.
  - eexists. split; [by apply vote_returns|]. simpl.
    rewrite lookup_insert_eq, Z.add_0_r. repeat split; try done.
    intros j Hj. rewrite lookup_insert_ne by done. auto.
  - exists s1. rewrite Z.add_0_r. repeat split; try done.
Qed.

(** [run_body] up to the votes: the sample is stored, in a new lane
    or at the end of a known one. *)
Lemma run_body_stores (s : t) (target : Car.t) :
  let id := lane_of target in
  let xy := (Car.x target, Car.y target) in
  let votes :=
    (if Qltb 0 (Car.vx target) then vote id 1 0
     else if Qltb (Car.vx target) 0 then vote id (-1) 0 else ret tt) ;;;
    (if Qltb 0 (Car.vy target) then vote id 0 1
     else if Qltb (Car.vy target) 0 then vote id 0 (-1) else ret tt) in
  run_body target s =
    match alookup id s.(xyByLane) with
    | None =>
        votes (set_xyByLane (aset id [xy] (aset id [] s.(xyByLane)))
                 (set_vxyCount (<[id := XY.mk 0 0]> s.(vxyCount))
                    (set_xyByLane (aset id [] s.(xyByLane)) s)))
    | Some l => votes (set_xyByLane (aset id (l ++ [xy]) s.(xyByLane)) s)
    end.
Proof.
  intros id xy votes. unfold run_body. fold (lane_of target). fold id.
  fold votes. fold xy.
  unfold bind at 1 2 3 4 5, get, modify, ret, alookupM. simpl.
  destruct (alookup id (xyByLane s)) as [l|] eqn:Hl; simpl.
  - rewrite Hl. unfold ret, bind at 1. done.
  - rewrite alookup_aset_eq. unfold ret, bind at 1. done.
Qed.

Lemma run_body_tracks (s : t) (tgts : list Car.t) (target : Car.t) :
  tracks s tgts →
  ∃ s', run_body target s = (Ok tt, s') ∧ tracks s' (tgts ++ [target]) ∧
        s'.(count) = s.(count).
Proof.
  intros Ht. rewrite run_body_stores.
  set (id := lane_of target).
  set (xy := (Car.x target, Car.y target)).
  destruct (Ht id) as [Hxy Hv]. rewrite Hxy.
  assert (∀ s1 cnt l,
    alookup id s1.(xyByLane) = Some (l ++ [xy]) →
    (∀ j, j ≠ id → alookup j s1.(xyByLane) = alookup j s.(xyByLane)) →
    s1.(vxyCount) !! id = Some cnt →
    (∀ j, j ≠ id → s1.(vxyCount) !! j = s.(vxyCount) !! j) →
    s1.(count) = s.(count) →
    (if decide (on_lane id tgts = []) then l = [] ∧ cnt = XY.mk 0 0
     else l = samples_of id tgts ∧ cnt = votes_of id tgts) →
    ∃ s',
      ((if Qltb 0 (Car.vx target) then vote id 1 0
        else if Qltb (Car.vx target) 0 then vote id (-1) 0 else ret tt) ;;;
       (if Qltb 0 (Car.vy target) then vote id 0 1
        else if Qltb (Car.vy target) 0 then vote id 0 (-1) else ret tt)) s1
        = (Ok tt, s') ∧
      tracks s' (tgts ++ [target]) ∧ s'.(count) = s.(count)) as Hfinish.
  { intros s1 cnt l Hid Hne Hcnt Hvne Hc Hl.
    destruct (votes_return id target cnt s1 Hcnt)
      as (s' & Hvotes & Hxy' & Hc' & Hid' & Hne').
    exists s'. split; [done|]. split; [|congruence].
    intros j. rewrite on_lane_snoc, Hxy'. unfold samples_of, votes_of.
    rewrite on_lane_snoc. fold id.
    destruct (decide (id = j)) as [<-|Hj].
    - rewrite Hid, Hid'.
      destruct (decide (lane_of target = id)) as [_|?]; [|done].
      rewrite !decide_False by (by destruct (on_lane id tgts)).
      rewrite !fmap_app. simpl. rewrite !sumZ_snoc.
      destruct (decide (on_lane id tgts = [])) as [Hnil|Hnil].
      + destruct Hl as [-> ->]. rewrite Hnil. done.
      + destruct Hl as [-> ->]. done.
    - destruct (decide (lane_of target = j)) as [?|_]; [done|].
      rewrite Hne, Hne' by done. rewrite Hvne by done. apply Ht. }
  destruct (decide (on_lane id tgts = [])) as [Hnil|Hnil].
  - apply (Hfinish _ (XY.mk 0 0) []); simpl.
    + by rewrite alookup_aset_eq.
    + intros j Hj. by rewrite !alookup_aset_ne.
    + apply lookup_insert_eq.
    + intros j Hj. by apply lookup_insert_ne.
    + done.
    + done.
  - apply (Hfinish _ (votes_of id tgts) (samples_of id tgts)); simpl.
    + by rewrite alookup_aset_eq.
    + intros j Hj. by rewrite alookup_aset_ne.
    + done.
    + done.
    + done.
    + done.
Qed.

Lemma run_loop_tracks (msg tgts : list Car.t) (s : t) :
  tracks s tgts →
  ∃ s', forM msg run_body s = (Ok tt, s') ∧ tracks s' (tgts ++ msg) ∧
        s'.(count) = s.(count).
Proof.
  revert tgts s. induction msg as [|target msg IH]; intros tgts s Ht; simpl.
  - exists s. by rewrite app_nil_r.
  - destruct (run_body_tracks s tgts target Ht) as (s1 & H1 & Ht1 & Hc1).
    rewrite (bind_Ok _ _ _ _ _ H1).
    destruct (IH _ _ Ht1) as (s' & H' & Ht' & Hc').
    exists s'. rewrite <- app_assoc in Ht'. split; [done|].
    split; [done | congruence].
Qed.

End RunFacts.

Module RunTheorems.
Import Calibrator CalibratorFacts CalibratorMore RunFacts.

Lemma init_tracks clbPath fps laneWidth emgcWidth cellLen qMerge :
  tracks (init clbPath fps laneWidth emgcWidth cellLen qMerge) [].
Proof. intros id. done. Qed.

(** X9. As long as the calibrator has only been fed by [run] (it holds
    exactly what the targets seen so far give), [run] returns, adds 1
    to [count], and afterwards holds exactly what the old and the new
    targets give: a lane's samples are the [(x, y)] of its targets in
    order of arrival, its vote counter is the sum of the signs of [vx]
    and of [vy], and a lane id above 100 counts as the id minus 100. *)
Theorem run_tracks (s : t) (tgts msg : list Car.t) :
  tracks s tgts →
  ∃ s', run msg s = (Ok tt, s') ∧ tracks s' (tgts ++ msg) ∧
        s'.(count) = s.(count) + 1.
Proof.
  intros Ht. unfold run. unfold bind at 1, modify at 1.
  destruct (run_loop_tracks msg tgts (set_count (s.(count) + 1) s))
    as (s' & Hrun & Ht' & Hc'); [exact Ht|].
  exists s'. split; [exact Hrun|]. split; [exact Ht' | exact Hc'].
Qed.

Lemma run_tracks_witness :
  let s := init "clb.yml" 20 (15 # 4) (7 # 2) 50 0 in
  let msg := [Toy.target 2 4 10 0 20; Toy.target 103 8 90 0 (-20)] in
  tracks s [] ∧
  ∃ s', run msg s = (Ok tt, s') ∧ tracks s' msg ∧ s'.(count) = 1.
Proof.
  intros s msg.
  assert (tracks s []) as Ht by (apply init_tracks).
  split; [exact Ht|].
  exact (run_tracks s [] msg Ht).
Defined.

End RunTheorems.

(** * Further facts about [Calibrator]: when [calibrate] cannot run *)

Module CalibrateEdgeFacts.
Import Calibrator CalibratorFacts CalibratorMore.

Lemma alookup_in_akeys {V} (i : Z) (d : list (Z * V)) :
  i ∈ akeys d ↔ is_Some (alookup i d).
Proof.
  unfold akeys. induction d as [|[j u] d IH]; simpl.
  - split; [by intros ?%elem_of_nil | by intros [? ?]].
  - rewrite elem_of_cons, IH. case_bool_decide as Hij.
    + split; [eauto | by left].
    + split; [by intros [?|?] | by right].
Qed.

Lemma aset_aset {V} (i : Z) (w u : V) (d : list (Z * V)) :
  aset i w (aset i u d) = aset i w d.
Proof.
  induction d as [|[j v] d IH]; simpl.
  - by rewrite bool_decide_eq_true_2.
  - case_bool_decide; simpl; [by rewrite bool_decide_eq_true_2|].
    rewrite bool_decide_eq_false_2 by done. by rewrite IH.
Qed.

Section WithAlgorithms.
Context `{Algorithms}.

(** With [m <= 2] there is no lane between the emergency lanes, and the
    direction of lane 1 has nothing to copy. *)
Lemma direction_raises_small (m : Z) (s : t) :
  s.(emgcIDs) = [1; m] → s.(laneIDs) = seqZ 1 m →
  Z.even m = true → m ≤ 2 →
  ∃ s', _distinguishLaneDirection s = (Raise KeyError, s').
Proof.
  intros He Hl Heven Hm.
  assert (∀ id, id ∈ seqZ 1 m → id ∈ [1; m]) as Hsub.
  { intros id Hid%elem_of_seqZ.
    apply Z.even_spec in Heven as [k Hk].
    assert (m = 2) as -> by lia.
    assert (id = 1 ∨ id = 2) as [-> | ->] by lia.
    - by left.
    - right. by left. }
  destruct (direction_loop_returns (seqZ 1 m) (set_vDirDict ∅ s)) as [s1 H1].
  { simpl. rewrite He. intros id Hid Hne. destruct Hne. by apply Hsub. }
  pose proof (direction_loop _ _ _ H1) as (He1 & _ & Hd). simpl in *.
  destruct (Hd 2) as [_ H2]. rewrite lookup_empty in H2.
  specialize (H2 ltac:(rewrite He; intros [Hin Hne]; apply Hne, Hsub, Hin)).
  eexists. unfold _distinguishLaneDirection.
  unfold bind at 1, modify at 1. unfold bind at 1, get at 1. simpl.
  rewrite Hl, (bind_Ok _ _ _ _ _ H1).
  unfold bind at 1, get at 1. rewrite He1, He. simpl.
  unfold emgc_direction_body, bind, get, lookupM, modify, ret, raise. simpl.
  change (1 + 1) with 2. rewrite H2. reflexivity.
Qed.

Lemma sort_lane_returns (lane : Z) (key : Q * Q → Q) (l : list (Q * Q)) (s : t) :
  alookup lane s.(xyByLane) = Some l →
  sort_lane lane key s =
    (Ok (sort_by key l),
     set_xyByLane (aset lane (sort_by key l) s.(xyByLane)) s).
Proof.
  intros Hl. unfold sort_lane, bind, get, alookupM, modify, ret.
  by rewrite Hl.
Qed.

Lemma update_global_returns (i : nat) (f : Q → Q → Q) (a g : Q) (s : t) :
  s.(globalXYMinMax) !! i = Some g →
  update_global i f a s =
    (Ok tt, set_globalXYMinMax (<[i := f g a]> s.(globalXYMinMax)) s).
Proof.
  intros Hg. unfold update_global, bind, get, indexM, modify, ret.
  by rewrite Hg.
Qed.

(** [minmax_body] on a lane without samples. *)
Lemma minmax_body_raises (lane : Z) (s : t) :
  alookup lane s.(xyByLane) = Some [] →
  ∃ s', minmax_body lane s = (Raise IndexError, s').
Proof.
  intros Hl. eexists. unfold minmax_body.
  rewrite (bind_Ok _ _ _ _ _ (sort_lane_returns lane fst [] s Hl)).
  reflexivity.
Qed.

(** [minmax_body] on a lane with samples: the list is sorted by x, then
    by y, the ends of the sorted lists are stored for the lane and
    folded into the global box. *)
Lemma minmax_body_returns (lane : Z) (l : list (Q * Q)) (s : t) (g0 g1 g2 g3 : Q) :
  alookup lane s.(xyByLane) = Some l → l ≠ [] →
  s.(globalXYMinMax) = [g0; g1; g2; g3] →
  let lx := sort_by fst l in
  let ly := sort_by snd lx in
  ∃ xmin xmax ymin ymax s',
    head (fst <$> lx) = Some xmin ∧ last (fst <$> lx) = Some xmax ∧
    head (snd <$> ly) = Some ymin ∧ last (snd <$> ly) = Some ymax ∧
    minmax_body lane s = (Ok tt, s') ∧
    s'.(xyByLane) = aset lane ly s.(xyByLane) ∧
    s'.(xyMinMax) = <[lane := [xmin; xmax; ymin; ymax]]> s.(xyMinMax) ∧
    s'.(globalXYMinMax) =
      [py_min2 g0 xmin; py_max2 g1 xmax; py_min2 g2 ymin; py_max2 g3 ymax].
Proof.
  intros Hl Hne Hg lx ly.
  assert (lx ≠ []) as Hlx by (subst lx; by rewrite sort_by_nil).
  assert (ly ≠ []) as Hly by (subst ly; by rewrite sort_by_nil).
  assert (∃ xmin, head (fst <$> lx) = Some xmin) as [xmin Hxmin]
    by (destruct lx; [done | by eexists]).
  assert (∃ xmax, last (fst <$> lx) = Some xmax) as [xmax Hxmax].
  { destruct (last (fst <$> lx)) eqn:E; [by eexists|].
    apply last_None in E. by destruct lx. }
  assert (∃ ymin, head (snd <$> ly) = Some ymin) as [ymin Hymin]
    by (destruct ly; [done | by eexists]).
  assert (∃ ymax, last (snd <$> ly) = Some ymax) as [ymax Hymax].
  { destruct (last (snd <$> ly)) eqn:E; [by eexists|].
    apply last_None in E. by destruct ly. }
  exists xmin, xmax, ymin, ymax. eexists.
  repeat (split; [done|]).
  unfold minmax_body.
  rewrite (bind_Ok _ _ _ _ _ (sort_lane_returns lane fst l s Hl)).
  fold lx. unfold firstM, lastM, indexM at 1.
  rewrite <- head_lookup, Hxmin. unfold bind at 1, ret at 1.
  rewrite Hxmax. unfold bind at 1, ret at 1.
  erewrite bind_Ok; [|apply sort_lane_returns; simpl; apply alookup_aset_eq].
  fold ly. unfold indexM at 1.
  rewrite <- head_lookup, Hymin. unfold bind at 1, ret at 1.
  rewrite Hymax. unfold bind at 1, ret at 1.
  unfold bind at 1, modify at 1.
  erewrite bind_Ok; [|apply update_global_returns; simpl; by rewrite Hg].
  erewrite bind_Ok; [|apply update_global_returns; simpl; by rewrite Hg].
  erewrite bind_Ok; [|apply update_global_returns; simpl; by rewrite Hg].
  erewrite update_global_returns; [|simpl; by rewrite Hg].
  simpl. rewrite Hg. simpl.
  split; [reflexivity|]. simpl. split; [apply aset_aset | done].
Qed.

Lemma minmax_loop_raises (id : Z) (l : list Z) (s : t) :
  id ∈ l → alookup id s.(xyByLane) = Some [] →
  (∀ j, j ∈ l → is_Some (alookup j s.(xyByLane))) →
  length s.(globalXYMinMax) = 4%nat →
  ∃ s', forM l minmax_body s = (Raise IndexError, s').
Proof.
  revert s. induction l as [|x l IH]; intros s Hin Hid Hkeys Hlen.
  - by apply elem_of_nil in Hin.
  - simpl. destruct (Hkeys x) as [lx Hx]; [by left|].
    destruct (decide (lx = [])) as [->|Hne].
    + destruct (minmax_body_raises x s Hx) as [s' Hr].
      exists s'. by rewrite (bind_Raise _ _ _ _ _ Hr).
    + destruct (globalXYMinMax s) as [|g0 [|g1 [|g2 [|g3 [|]]]]] eqn:Hg;
        try done.
      destruct (minmax_body_returns x lx s g0 g1 g2 g3 Hx Hne Hg)
        as (xmin & xmax & ymin & ymax & s1 & _ & _ & _ & _ & Hr & Hxy & _ & Hg1).
      rewrite (bind_Ok _ _ _ _ _ Hr).
      assert (x ≠ id) as Hxid by (intros ->; congruence).
      apply IH.
      * by apply elem_of_cons in Hin as [?|?].
      * by rewrite Hxy, alookup_aset_ne.
      * intros j Hj. rewrite Hxy.
        destruct (decide (x = j)) as [<-|?];
          [by rewrite alookup_aset_eq | rewrite alookup_aset_ne by done].
        apply Hkeys. by right.
      * by rewrite Hg1.
Qed.

Lemma calibXYMinMax_raises (id : Z) (s : t) :
  alookup id s.(xyByLane) = Some [] →
  ∃ s', _calibXYMinMax s = (Raise IndexError, s').
Proof.
  intros Hid.
  destruct (minmax_loop_raises id (akeys s.(xyByLane))
              (set_globalXYMinMax [0; 0; 0; 0]%Q (set_xyMinMax ∅ s)))
    as [s' Hs']; simpl; try done.
  - apply alookup_in_akeys. by rewrite Hid.
  - intros j Hj. by apply alookup_in_akeys.
  - exists s'. unfold _calibXYMinMax.
    unfold bind at 1, modify at 1. unfold bind at 1, modify at 1.
    unfold bind at 1, get at 1. done.
Qed.

(** A lane with an entry in [xyByLane] and no sample stops
    [calibrate]. *)
Lemma calibrate_raises_on_empty (id : Z) (s : t) :
  alookup id s.(xyByLane) = Some [] →
  ∃ e s', calibrate s = (Raise e, s').
Proof.
  intros Hid.
  destruct (calibrate s) as [[[]|e] s'] eqn:Hc; [|by eauto].
  apply calibrate_Ok_inv in Hc
    as (s1 & s2 & s3 & s4 & _ & _ & H1 & H2 & H3 & H4 & _).
  assert (results_are s s) as Hr by done.
  assert (preserves (results_are s) _distinguishNormalAndEmgcLanes) as Hp1
    by frame.
  pose proof (preserves_inv _ _ _ _ _ Hp1 Hr H1) as Hr1.
  pose proof (preserves_inv _ _ _ _ _ (step2_results s) Hr1 H2) as Hr2.
  pose proof (preserves_inv _ _ _ _ _ (step3_results s) Hr2 H3)
    as (_ & _ & _ & _ & _ & Hxy & _).
  destruct (calibXYMinMax_raises id s3) as [s4' H4']; [by rewrite Hxy|].
  congruence.
Qed.

End WithAlgorithms.
End CalibrateEdgeFacts.

Module CalibrateEdgeTheorems.
Import Calibrator CalibratorFacts CalibratorMore RunFacts CalibrateEdgeFacts.

Section WithAlgorithms.
Context `{Algorithms}.

Lemma tracks_nil_empty (s : t) : tracks s [] → s.(xyByLane) = [].
Proof.
  intros Ht. destruct (xyByLane s) as [|[j l] d] eqn:Hd; [done|].
  destruct (Ht j) as [Hj _]. rewrite Hd in Hj. simpl in Hj.
  by rewrite bool_decide_eq_true_2 in Hj.
Qed.

(** X10. A calibrator that has seen no target (it was only fed frames
    without targets, or none) cannot be calibrated: [calibrate] raises
    [ValueError], from [max] of no lane id, and changes nothing. *)
Theorem calibrate_without_data (s : t) :
  tracks s [] → calibrate s = (Raise ValueError, s).
Proof.
  intros Hx%tracks_nil_empty. unfold calibrate.
  erewrite bind_Raise; [done|].
  unfold _distinguishNormalAndEmgcLanes, bind, get. by rewrite Hx.
Qed.

(** X11. When the greatest observed lane id is 2 or less, [calibrate]
    always raises: the lanes [1..m] then hold no lane between the two
    emergency lanes, and lane 1 finds no direction to copy (a
    [KeyError], unless the dispersion helper raised before). *)
Theorem calibrate_needs_three_lanes (s : t) (M : Z) :
  M ∈ akeys s.(xyByLane) → (∀ id, id ∈ akeys s.(xyByLane) → id ≤ M) →
  M ≤ 2 →
  ∃ e s', calibrate s = (Raise e, s') ∧
          (e = KeyError ∨ ∃ l, dbi l = Raise e).
Proof.
  intros HM Hmax Hle.
  pose proof (step1_returns s M (py_max_spec _ _ HM Hmax)) as H1.
  set (s1 := set_emgcIDs _ _) in H1.
  assert (lanes_are [1; pad_even M] (seqZ 1 (pad_even M)) s1) as Hl1 by done.
  destruct (pad_even_spec M) as (Heven & _ & Hmin).
  assert (pad_even M ≤ 2) as Hm by (by apply Hmin).
  destruct (_distinguishInnerAndOutboardLaneID s1) as [[[]|e] s2] eqn:H2.
  - pose proof (preserves_inv _ _ _ _ _ (step2_lanes _ _) Hl1 H2) as [He2 Hl2].
    destruct (direction_raises_small (pad_even M) s2) as [s3 H3]; try done.
    exists KeyError, s3. split; [|by left].
    unfold calibrate.
    rewrite (bind_Ok _ _ _ _ _ H1), (bind_Ok _ _ _ _ _ H2).
    by rewrite (bind_Raise _ _ _ _ _ H3).
  - exists e, s2. split.
    + unfold calibrate.
      rewrite (bind_Ok _ _ _ _ _ H1). by rewrite (bind_Raise _ _ _ _ _ H2).
    + by eapply (inner_outer_raises (pad_even M) s1 s2).
Qed.

(** X12. A lane that is a key of [xyByLane] with an empty list of
    samples stops every calibration: [_calibXYMinMax] raises
    [IndexError] on it, and [calibrate] never returns. *)
Theorem empty_lane_stops_calibrate (s : t) (id : Z) :
  alookup id s.(xyByLane) = Some [] →
  (∃ s', _calibXYMinMax s = (Raise IndexError, s')) ∧
  (∃ e s', calibrate s = (Raise e, s')).
Proof.
  intros Hid. split; [by eapply calibXYMinMax_raises|].
  by eapply calibrate_raises_on_empty.
Qed.

End WithAlgorithms.

Lemma calibrate_without_data_witness :
  let s := (run [] (init "clb.yml" 20 (15 # 4) (7 # 2) 50 0)).2 in
  tracks s [] ∧ s.(count) = 1 ∧ @calibrate Toy.algorithms s = (Raise ValueError, s).
Proof.
  intros s.
  assert (tracks s []) as Ht by (intros id; done).
  split; [exact Ht|]. split; [reflexivity|].
  exact (@calibrate_without_data Toy.algorithms s Ht).
Defined.

Lemma calibrate_needs_three_lanes_witness :
  let s := (run [Toy.target 1 0 5 0 20; Toy.target 2 4 10 0 20]
              (init "clb.yml" 20 (15 # 4) (7 # 2) 50 0)).2 in
  akeys s.(xyByLane) = [1; 2] ∧
  ∃ e s', @calibrate Toy.algorithms s = (Raise e, s').
Proof.
  intros s.
  assert (akeys s.(xyByLane) = [1; 2]) as Hk by reflexivity.
  split; [exact Hk|].
  destruct (@calibrate_needs_three_lanes Toy.algorithms s 2)
    as (e & s' & Hc & _).
  - rewrite Hk. apply list_elem_of_further, list_elem_of_here.
  - rewrite Hk.
    intros id [->|[->|?%elem_of_nil]%elem_of_cons]%elem_of_cons; [lia | lia | done].
  - lia.
  - exists e, s'. exact Hc.
Defined.

Lemma empty_lane_stops_calibrate_witness :
  let s := (@calibrate Toy.algorithms Toy.fed).2 in
  alookup 1 s.(xyByLane) = Some [] ∧
  (∃ s', _calibXYMinMax s = (Raise IndexError, s')) ∧
  (∃ e s', @calibrate Toy.algorithms s = (Raise e, s')).
Proof.
  intros s.
  assert (alookup 1 s.(xyByLane) = Some []) as H1 by (by vm_compute).
  split; [exact H1|].
  exact (@empty_lane_stops_calibrate Toy.algorithms s 1 H1).
Defined.

End CalibrateEdgeTheorems.

(** * Further facts about [Calibrator]: sorting and the boxes *)

Module SortFacts.
Import CalibratorMore.

Lemma insert_by_perm {A} (key : A → Q) (a : A) (l : list A) :
  insert_by key a l ≡ₚ a :: l.
Proof.
  induction l as [|b l IH]; simpl; [done|].
  case_match; [|done]. rewrite IH. apply Permutation_swap.
Qed.

Lemma sort_by_perm {A} (key : A → Q) (l : list A) : sort_by key l ≡ₚ l.
Proof.
  unfold sort_by. induction l as [|a l IH]; simpl; [done|].
  by rewrite insert_by_perm, IH.
Qed.

Lemma insert_by_sorted {A} (key : A → Q) (a : A) (l : list A) :
  sorted_by key l → sorted_by key (insert_by key a l).
Proof.
  unfold sorted_by. induction 1 as [|b l Hl IH Hb]; simpl.
  - by repeat constructor.
  - destruct (Qltb (key b) (key a)) eqn:Hlt.
    + apply Qltb_true in Hlt. constructor; [done|].
      rewrite insert_by_perm. constructor; [lra | done].
    + apply Qltb_false in Hlt. constructor; [by constructor|].
      constructor; [done|].
      eapply Forall_impl; [exact Hb|]. simpl. intros c Hc. lra.
Qed.

Lemma sort_by_sorted {A} (key : A → Q) (l : list A) :
  sorted_by key (sort_by key l).
Proof.
  unfold sort_by. induction l as [|a l IH]; simpl.
  - constructor.
  - by apply insert_by_sorted.
Qed.

(** A stable sort leaves a sorted list as it is. *)
Lemma sort_by_sorted_id {A} (key : A → Q) (l : list A) :
  sorted_by key l → sort_by key l = l.
Proof.
  unfold sorted_by, sort_by. induction 1 as [|a l Hl IH Ha]; simpl; [done|].
  rewrite IH. destruct l as [|b l]; simpl; [done|].
  apply Forall_inv in Ha. apply Qltb_false in Ha. by rewrite Ha.
Qed.

Lemma sorted_head {A} (key : A → Q) (l : list A) (a : A) :
  sorted_by key l → head l = Some a →
  Forall (λ b, key a <= key b)%Q l.
Proof.
  destruct 1 as [|b l Hl Hb]; [done|]. simpl. intros [= ->].
  constructor; [lra | done].
Qed.

Lemma sorted_last {A} (key : A → Q) (l : list A) (z : A) :
  sorted_by key l → last l = Some z →
  Forall (λ b, key b <= key z)%Q l.
Proof.
  unfold sorted_by. induction 1 as [|b l Hl IH Hb]; [done|].
  destruct l as [|c l].
  - simpl. intros [= ->]. constructor; [lra | done].
  - change (last (b :: c :: l)) with (last (c :: l)). intros Hz.
    constructor; [|by apply IH].
    assert (z ∈ c :: l) as Hin.
    { apply last_Some in Hz as [l' ->]. apply elem_of_app. right. by left. }
    rewrite Forall_forall in Hb. by apply Hb.
Qed.

(** The ends of the sorted keys bound every key and are keys. *)
Lemma sorted_ends {A} (key : A → Q) (l : list A) (lo hi : Q) :
  head (key <$> sort_by key l) = Some lo →
  last (key <$> sort_by key l) = Some hi →
  bounds lo hi (key <$> l) ∧ lo ∈ key <$> l ∧ hi ∈ key <$> l.
Proof.
  intros Hlo Hhi.
  pose proof (sort_by_sorted key l) as Hs.
  pose proof (sort_by_perm key l) as Hp.
  set (l' := sort_by key l) in *.
  destruct (head l') as [a|] eqn:Ha; [|by destruct l'].
  assert (lo = key a) as -> by (destruct l'; simpl in *; congruence).
  rewrite fmap_last in Hhi.
  destruct (last l') as [z|] eqn:Hz; [|done]. simpl in Hhi.
  injection Hhi as <-.
  pose proof (sorted_head key l' a Hs Ha) as Hmin.
  pose proof (sorted_last key l' z Hs Hz) as Hmax.
  assert (a ∈ l') as Hain by (destruct l'; simpl in *; simplify_eq; by left).
  assert (z ∈ l') as Hzin.
  { destruct (proj1 (last_Some _ _) Hz) as [l'' Hl'']. rewrite Hl''.
    apply elem_of_app. right. by left. }
  rewrite Hp in Hmin, Hmax, Hain, Hzin.
  split; [|split; by apply list_elem_of_fmap_2].
  unfold bounds. rewrite Forall_fmap.
  rewrite Forall_forall in Hmin, Hmax. apply Forall_forall.
  intros b Hb. simpl. split; auto.
Qed.

Lemma py_min2_le (a b : Q) : (py_min2 a b <= a ∧ py_min2 a b <= b)%Q.
Proof.
  unfold py_min2. destruct (Qltb b a) eqn:Hlt.
  - apply Qltb_true in Hlt. lra.
  - apply Qltb_false in Hlt. lra.
Qed.

Lemma py_max2_ge (a b : Q) : (a <= py_max2 a b ∧ b <= py_max2 a b)%Q.
Proof.
  unfold py_max2. destruct (Qltb a b) eqn:Hlt.
  - apply Qltb_true in Hlt. lra.
  - apply Qltb_false in Hlt. lra.
Qed.

End SortFacts.

(** * Further facts about [Calibrator]: the boxes of [_calibXYMinMax] *)

Module BoxFacts.
Import Calibrator CalibratorFacts CalibratorMore CalibrateEdgeFacts SortFacts.

Lemma box_of_perm (l l' : list (Q * Q)) (b : list Q) :
  l ≡ₚ l' → box_of l b → box_of l' b.
Proof.
  intros Hp (xmin & xmax & ymin & ymax & -> & Hx & Hx0 & Hx1 & Hy & Hy0 & Hy1).
  assert (fst <$> l ≡ₚ fst <$> l') as Hpx by (by apply fmap_Permutation).
  assert (snd <$> l ≡ₚ snd <$> l') as Hpy by (by apply fmap_Permutation).
  exists xmin, xmax, ymin, ymax. unfold bounds in *.
  split; [done|].
  split; [by eapply Permutation_Forall|].
  split; [by eapply elem_of_Permutation_proper|].
  split; [by eapply elem_of_Permutation_proper|].
  split; [by eapply Permutation_Forall|].
  split; by eapply elem_of_Permutation_proper.
Qed.

Lemma minmax_body_inv (D : Z → Prop) (x : Z) (s0 s : t) :
  loop_inv D s0 s → is_Some (alookup x s0.(xyByLane)) →
  ∃ s', minmax_body x s = (Ok tt, s') ∧
        loop_inv (λ j, D j ∨ j = x) s0 s'.
Proof.
  intros (Hxy & Hg & Hdom & Hdone) [l0 Hl0].
  pose proof (Hxy x) as Hx. rewrite Hl0 in Hx.
  destruct Hx as (Hne0 & l & Hl & Hp).
  assert (l ≠ []) as Hne.
  { intros ->. by apply Permutation_nil_l in Hp. }
  destruct Hg as (z0 & z1 & z2 & z3 & g0 & g1 & g2 & g3 & Hz & Hg & Hle).
  injection Hz as <- <- <- <-.
  destruct (minmax_body_returns x l s g0 g1 g2 g3 Hl Hne Hg)
    as (xmin & xmax & ymin & ymax & s' & Hx0 & Hx1 & Hy0 & Hy1 & Hr
        & Hxy' & Hmm' & Hg').
  exists s'. split; [done|].
  destruct (sorted_ends fst l xmin xmax Hx0 Hx1) as (Hbx & Hinx0 & Hinx1).
  destruct (sorted_ends snd (sort_by fst l) ymin ymax Hy0 Hy1)
    as (Hby & Hiny0 & Hiny1).
  pose proof (py_min2_le g0 xmin) as [? ?].
  pose proof (py_max2_ge g1 xmax) as [? ?].
  pose proof (py_min2_le g2 ymin) as [? ?].
  pose proof (py_max2_ge g3 ymax) as [? ?].
  assert (box_of l0 [xmin; xmax; ymin; ymax]) as Hbox.
  { apply (box_of_perm l); [done|].
    apply (box_of_perm (sort_by fst l)); [apply sort_by_perm|].
    exists xmin, xmax, ymin, ymax.
    pose proof (fmap_Permutation fst _ _ (sort_by_perm fst l)) as Hpx.
    unfold bounds in *.
    split; [done|].
    split; [by eapply Permutation_Forall|].
    split; [by eapply elem_of_Permutation_proper|].
    split; [by eapply elem_of_Permutation_proper|].
    done. }
  split; [|split; [|split]].
  - intros j. specialize (Hxy j). rewrite Hxy'.
    destruct (decide (x = j)) as [<-|Hxj].
    + rewrite alookup_aset_eq, Hl0. split; [done|].
      eexists. split; [done|]. by rewrite !sort_by_perm.
    + by rewrite alookup_aset_ne.
  - rewrite Hg'. unfold within.
    do 4 eexists. do 4 eexists. split; [done|]. split; [done|]. lra.
  - intros j. rewrite Hmm'. destruct (decide (x = j)) as [<-|Hxj].
    + by right.
    + rewrite lookup_insert_ne by done. intros ?. left. by apply Hdom.
  - intros j Hj. destruct (decide (x = j)) as [<-|Hxj].
    + exists l0, (sort_by snd (sort_by fst l)), [xmin; xmax; ymin; ymax].
      rewrite Hxy', Hmm', Hg', alookup_aset_eq, lookup_insert_eq.
      split; [done|]. split; [done|]. split; [apply sort_by_sorted|].
      split; [done|]. split; [done|].
      unfold within. do 4 eexists. do 4 eexists.
      split; [done|]. split; [done|]. lra.
    + destruct Hj as [Hj | ->]; [|done].
      destruct (Hdone j Hj) as (lj & lj' & b & E1 & E2 & E3 & E4 & E5 & E6).
      exists lj, lj', b.
      rewrite Hxy', Hmm', Hg', alookup_aset_ne, lookup_insert_ne by done.
      repeat (split; [done|]).
      destruct E6 as (x0 & x1 & y0 & y1 & a0 & a1 & c0 & c1 & -> & Hgg & Hin).
      rewrite Hg in Hgg. injection Hgg as <- <- <- <-.
      unfold within. do 4 eexists. do 4 eexists.
      split; [done|]. split; [done|]. lra.
Qed.

Lemma loop_inv_ext (D D' : Z → Prop) (s0 s : t) :
  (∀ j, D j ↔ D' j) → loop_inv D s0 s → loop_inv D' s0 s.
Proof.
  intros HD (H1 & H2 & H3 & H4). repeat split; try done.
  - intros j Hj. by apply HD, H3.
  - intros j Hj. by apply H4, HD.
Qed.

Lemma minmax_loop_inv (todo : list Z) (D : Z → Prop) (s0 s : t) :
  loop_inv D s0 s →
  (∀ j, j ∈ todo → is_Some (alookup j s0.(xyByLane))) →
  ∃ s', forM todo minmax_body s = (Ok tt, s') ∧
        loop_inv (λ j, D j ∨ j ∈ todo) s0 s'.
Proof.
  revert D s. induction todo as [|x todo IH]; intros D s Hinv Hkeys.
  - exists s. split; [done|].
    eapply loop_inv_ext; [|done]. intros j. rewrite elem_of_nil. tauto.
  - destruct (minmax_body_inv D x s0 s Hinv) as (s1 & Hr & Hinv1).
    { apply Hkeys. by left. }
    destruct (IH _ s1 Hinv1) as (s' & Hr' & Hinv').
    { intros j Hj. apply Hkeys. by right. }
    exists s'. split.
    + simpl. by rewrite (bind_Ok _ _ _ _ _ Hr).
    + eapply loop_inv_ext; [|done]. intros j. rewrite elem_of_cons. tauto.
Qed.

(** [_calibXYMinMax] on lanes that all have a sample. *)
Lemma calibXYMinMax_returns (s : t) :
  (∀ id l, alookup id s.(xyByLane) = Some l → l ≠ []) →
  ∃ s', _calibXYMinMax s = (Ok tt, s') ∧
    within [0; 0; 0; 0]%Q s'.(globalXYMinMax) ∧
    ∀ id,
      match alookup id s.(xyByLane) with
      | None =>
          alookup id s'.(xyByLane) = None ∧ s'.(xyMinMax) !! id = None
      | Some l =>
          ∃ l' b, alookup id s'.(xyByLane) = Some l' ∧
            l' ≡ₚ l ∧ sorted_by snd l' ∧
            s'.(xyMinMax) !! id = Some b ∧ box_of l b ∧
            within b s'.(globalXYMinMax)
      end.
Proof.
  intros Hne.
  set (s1 := set_globalXYMinMax [0; 0; 0; 0]%Q (set_xyMinMax ∅ s)).
  assert (loop_inv (λ _, False) s1 s1) as Hinv.
  { split; [|split; [|split]].
    - intros j. simpl. destruct (alookup j (xyByLane s)) as [l|] eqn:Hl;
        [|done].
      split; [by eapply Hne|]. by exists l.
    - simpl. unfold within. do 4 eexists. do 4 eexists.
      split; [done|]. split; [done|]. lra.
    - simpl. intros j [? Hj]. by rewrite lookup_empty in Hj.
    - done. }
  destruct (minmax_loop_inv (akeys s.(xyByLane)) _ s1 s1 Hinv)
    as (s' & Hr & Hxy & Hg & Hdom & Hdone).
  { intros j Hj. simpl. by apply alookup_in_akeys. }
  exists s'. split; [|split; [done|]].
  - unfold _calibXYMinMax.
    unfold bind at 1, modify at 1. unfold bind at 1, modify at 1.
    unfold bind at 1, get at 1. done.
  - intros id. specialize (Hxy id). simpl in Hxy.
    destruct (alookup id (xyByLane s)) as [l|] eqn:Hl.
    + destruct (Hdone id) as (l0 & l' & b & H1 & H2 & H3 & H4 & H5 & H6).
      { right. apply alookup_in_akeys. by rewrite Hl. }
      simpl in H1. rewrite Hl in H1. injection H1 as <-.
      destruct Hxy as (_ & l'' & Hl'' & Hp).
      rewrite H2 in Hl''. injection Hl'' as <-.
      by exists l', b.
    + split; [done|].
      destruct (xyMinMax s' !! id) eqn:Hb; [|done].
      destruct (Hdom id) as [[] | Hin]; [by eexists|].
      apply alookup_in_akeys in Hin as [? Hin]. congruence.
Qed.

End BoxFacts.

Module BoxTheorems.
Import Calibrator CalibratorFacts CalibratorMore CalibrateEdgeFacts
  SortFacts BoxFacts.

(** X13 ([Calibrator._calibXYMinMax]).  When every lane of [xyByLane]
    has a sample, [_calibXYMinMax] returns.  The samples of each lane
    are the ones it had, now in the order of their [y].  The entry of
    [xyMinMax] of a lane is its tight box: [xmin], [xmax], [ymin] and
    [ymax] are coordinates of samples of the lane and bound all of
    them.  [xyMinMax] has no other entry.  [globalXYMinMax] holds every
    box of a lane and, since it starts from [[0, 0, 0, 0]], the
    origin. *)
Theorem calibXYMinMax_boxes (s : t) :
  (∀ id l, alookup id s.(xyByLane) = Some l → l ≠ []) →
  ∃ s', _calibXYMinMax s = (Ok tt, s') ∧
    within [0; 0; 0; 0]%Q s'.(globalXYMinMax) ∧
    ∀ id,
      match alookup id s.(xyByLane) with
      | None =>
          alookup id s'.(xyByLane) = None ∧ s'.(xyMinMax) !! id = None
      | Some l =>
          ∃ l' b, alookup id s'.(xyByLane) = Some l' ∧
            l' ≡ₚ l ∧ sorted_by snd l' ∧
            s'.(xyMinMax) !! id = Some b ∧ box_of l b ∧
            within b s'.(globalXYMinMax)
      end.
Proof. apply calibXYMinMax_returns. Qed.

Lemma calibXYMinMax_boxes_witness :
  (∀ id l, alookup id Toy.fed.(xyByLane) = Some l → l ≠ []) ∧
  ∃ s', _calibXYMinMax Toy.fed = (Ok tt, s') ∧
        within [0; 0; 0; 0]%Q s'.(globalXYMinMax).
Proof.
  assert (∀ id l, alookup id Toy.fed.(xyByLane) = Some l → l ≠ []) as Hne.
  { intros id l. set (X := xyByLane Toy.fed). vm_compute in X. subst X.
    simpl. repeat case_bool_decide; by intros [= <-]. }
  split; [exact Hne|].
  destruct (calibXYMinMax_boxes Toy.fed Hne) as (s' & Hr & Hg & _).
  by exists s'.
Defined.

End BoxTheorems.

(** * Further facts about [Calibrator]: what a returning [calibrate] leaves *)

Module CompleteFacts.
Import Calibrator CalibratorFacts CalibratorMore CalibrateEdgeFacts
  SortFacts BoxFacts.

(** A loop whose body keeps [J], establishes [R a] on [a] and keeps
    every [R a] established before. *)
Lemma forM_establishes {S A} (J : S → Prop) (R : A → S → Prop)
    (body : A → M S unit) (l : list A) (s s' : S) :
  (∀ b, preserves J (body b)) →
  (∀ a b, preserves (λ s, J s ∧ R a s) (body b)) →
  (∀ a s1 s2, J s1 → body a s1 = (Ok tt, s2) → R a s2) →
  J s → forM l body s = (Ok tt, s') →
  J s' ∧ ∀ a, a ∈ l → R a s'.
Proof.
  intros HJ HR Hest. revert s.
  induction l as [|x l IH]; intros s Hs Hloop.
  - injection Hloop as <-. split; [done|]. by intros a ?%elem_of_nil.
  - simpl in Hloop. apply bind_Ok_inv in Hloop as ([] & s1 & Hx & Hloop).
    assert (J s1) as Hs1 by exact (preserves_inv _ _ _ _ _ (HJ x) Hs Hx).
    destruct (IH s1 Hs1 Hloop) as [HJ' HR'].
    split; [done|]. intros a [->|Ha]%elem_of_cons; [|by apply HR'].
    assert (preserves (λ s, J s ∧ R x s) (forM l body)) as Hp
      by (by apply preserves_forM).
    eapply (preserves_inv _ _ _ _ _ Hp); [|exact Hloop].
    split; [done|]. exact (Hest x s s1 Hs Hx).
Qed.

Tactic Notation "inv_bind" hyp(H) "as" ident(a) ident(s1) ident(H1) :=
  apply bind_Ok_inv in H as (a & s1 & H1 & H).

Ltac inv_get H :=
  let a := fresh "a" in
  let s1 := fresh "s" in
  let H1 := fresh "H" in
  inv_bind H as a s1 H1; injection H1 as <- <-.

Tactic Notation "inv_pure" hyp(H) "as" ident(a) ident(H1) "by" tactic(tac) :=
  let s1 := fresh "s" in
  inv_bind H as a s1 H1;
  let E := fresh in
  assert (E := pure_m_inv _ _ _ _ ltac:(tac) H1); subst s1.

Section WithAlgorithms.
Context `{Algorithms}.

Lemma fit_body_coef (id : Z) (extCoef : poly2) (b : Z) :
  preserves (has_coef id) (fit_body extCoef b).
Proof.
  frame. unfold has_coef in *. simpl.
  apply lookup_insert_is_Some'. by right.
Qed.

Lemma set_emgc_coef_coef (id : Z) (i : nat) (a : poly2) :
  preserves (has_coef id) (set_emgc_coef i a).
Proof.
  frame. unfold has_coef in *. simpl.
  apply lookup_insert_is_Some'. by right.
Qed.

Lemma set_emgc_coef_Ok (i : nat) (a : poly2) (e : Z) (s s' : t) :
  s.(emgcIDs) !! i = Some e →
  set_emgc_coef i a s = (Ok tt, s') → has_coef e s' ∧ s'.(emgcIDs) = s.(emgcIDs).
Proof.
  intros He. unfold set_emgc_coef, bind, get, indexM, modify. rewrite He.
  intros [= <-]. split; [|done]. unfold has_coef. simpl.
  rewrite lookup_insert_eq. by eexists.
Qed.

Lemma fit_body_inv (ext m : Z) (extCoef : poly2) (b : Z) :
  preserves (fit_inv ext m) (fit_body extCoef b).
Proof.
  intros s (Hext & He & Hc).
  pose proof (fit_body_coef ext extCoef b s Hc) as Hc'.
  assert (preserves (λ s, s.(extID) = Some ext ∧ s.(emgcIDs) = [1; m])
            (fit_body extCoef b)) as Hp by (frame; naive_solver).
  destruct (Hp s) as [? ?]; [done|]. done.
Qed.

Lemma fit_body_Ok (ext m : Z) (extCoef : poly2) (id : Z) (s s' : t) :
  fit_inv ext m s → fit_body extCoef id s = (Ok tt, s') →
  id ∈ [1; m] ∨ has_coef id s'.
Proof.
  intros (Hext & He & Hc) Hr.
  pose proof (preserves_inv _ _ _ _ _ (fit_body_coef ext extCoef id) Hc Hr)
    as Hc'.
  unfold fit_body in Hr. inv_get Hr. rewrite Hext in Hr.
  inv_bind Hr as e s1 H1. injection H1 as <- <-.
  rewrite He in Hr.
  case_bool_decide as Hin; [by left|]. simpl in Hr.
  case_bool_decide as Heq; [right; by subst|]. simpl in Hr.
  inv_pure Hr as pts Hpts by (apply pure_lookupM).
  inv_pure Hr as a Ha by (apply pure_lift).
  injection Hr as <-. right. unfold has_coef. simpl.
  rewrite lookup_insert_eq. by eexists.
Qed.

(** After [_calculateLanesFunction] every lane has a curve. *)
Lemma coef_Ok_inv (m : Z) (s s' : t) :
  lanes_are [1; m] (seqZ 1 m) s →
  _calculateLanesFunction s = (Ok tt, s') →
  ∀ id, 1 ≤ id ≤ m → has_coef id s'.
Proof.
  intros [He Hl] Hc. unfold _calculateLanesFunction in Hc.
  inv_bind Hc as u s1 H1. injection H1 as <- <-.
  inv_get Hc. simpl in Hc.
  inv_pure Hc as ext Hext by (apply pure_attrM).
  inv_pure Hc as pts Hpts by (apply pure_lookupM).
  inv_pure Hc as extCoef Hfit by (apply pure_lift).
  inv_bind Hc as u s2 H2. injection H2 as <- <-.
  inv_bind Hc as u sa Hloop. destruct u.
  rewrite Hl in Hloop.
  assert (extID s = Some ext) as Hext'.
  { unfold attrM in Hext. destruct (extID s); [|done]. by injection Hext as ->. }
  eapply (forM_establishes (fit_inv ext m)
            (λ id s, id ∈ [1; m] ∨ has_coef id s)) in Hloop
    as [(Hexta & Hea & Hca) Hall].
  2: { intros b. apply fit_body_inv. }
  2: { intros a b s0 [HJ [Hin | Hc0]].
       - split; [by apply fit_body_inv | by left].
       - split; [by apply fit_body_inv | right; by apply fit_body_coef]. }
  2: { intros a s3 s4. apply fit_body_Ok. }
  2: { split; [done|]. split; [done|]. unfold has_coef. simpl.
       rewrite lookup_insert_eq. by eexists. }
  inv_get Hc.
  inv_pure Hc as int Hint by (apply pure_attrM).
  inv_pure Hc as intCoef HintCoef by (apply pure_lookupM).
  inv_pure Hc as ce Hce by (apply pure_lookupM).
  inv_pure Hc as ci Hci by (apply pure_lookupM).
  assert (∃ a0 a1,
    (set_emgc_coef 0 a0 ;;; set_emgc_coef 1 a1) sa = (Ok tt, s')) as (a0 & a1 & Hset).
  { destruct (Qltb (c0 ci) (c0 ce)); cbv beta iota in Hc;
      (inv_pure Hc as e0 He0 by (apply pure_indexM));
      revert Hc; case_bool_decide; intros Hc; eexists _, _; exact Hc. }
  clear Hc. inv_bind Hset as u sb Hs0. destruct u.
  destruct (set_emgc_coef_Ok 0 a0 1 sa sb) as [Hc1 Heb]; [by rewrite Hea | done |].
  destruct (set_emgc_coef_Ok 1 a1 m sb s') as [Hcm _];
    [by rewrite Heb, Hea | done |].
  intros id Hid.
  destruct (decide (id = m)) as [->|Hm]; [done|].
  destruct (decide (id = 1)) as [->|H1].
  { by eapply preserves_inv; [apply set_emgc_coef_coef | exact Hc1 |]. }
  destruct (Hall id) as [Hin | Hc0].
  - apply elem_of_seqZ. lia.
  - apply elem_of_cons in Hin as [?|Hin]; [done|].
    apply elem_of_cons in Hin as [?|Hin]; [done|]. by apply elem_of_nil in Hin.
  - eapply preserves_inv; [apply set_emgc_coef_coef | | exact Hset].
    by eapply preserves_inv; [apply set_emgc_coef_coef | exact Hc0 |].
Qed.

End WithAlgorithms.
End CompleteFacts.

(** * Further facts about [Calibrator]: the cells of [_calibCells] *)

Module CellsFacts.
Import Calibrator CalibratorFacts CalibratorMore CalibrateEdgeFacts
  CompleteFacts.

Lemma foldl_Zadd (a : Z) (l : list Z) :
  foldl Z.add a l = a + foldl Z.add 0 l.
Proof.
  revert a. induction l as [|b l IH]; intros a; simpl; [lia|].
  rewrite (IH (a + b)), (IH (0 + b)). lia.
Qed.

Lemma sumZ_cons (a : Z) (l : list Z) : sumZ (a :: l) = a + sumZ l.
Proof. unfold sumZ. simpl. by rewrite foldl_Zadd. Qed.

Lemma sumZ_replicate_0 (n : nat) : sumZ (replicate n 0) = 0.
Proof. induction n as [|n IH]; [done|]. simpl. by rewrite sumZ_cons, IH. Qed.

Lemma sumZ_alter_succ (i : nat) (l : list Z) :
  (i < length l)%nat → sumZ (alter Z.succ i l) = sumZ l + 1.
Proof.
  revert i. induction l as [|a l IH]; intros i Hi; simpl in Hi; [lia|].
  destruct i as [|i].
  - change (sumZ (Z.succ a :: l) = sumZ (a :: l) + 1).
    rewrite !sumZ_cons. lia.
  - change (sumZ (a :: alter Z.succ i l) = sumZ (a :: l) + 1).
    rewrite !sumZ_cons, IH by lia. lia.
Qed.

Lemma py_index_lt (n : nat) (i : Z) (j : nat) :
  py_index n i = Some j → (j < n)%nat.
Proof.
  unfold py_index. repeat case_bool_decide; intros [= <-]; lia.
Qed.

(** One sample raises one counter by one. *)
Lemma count_sample_Ok (pts : list Q) (cnt cnt' : list Z) (xy : Q * Q)
    (s s' : t) :
  count_sample pts cnt xy s = (Ok cnt', s') →
  s' = s ∧ length cnt' = length cnt ∧ sumZ cnt' = sumZ cnt + 1.
Proof.
  unfold count_sample.
  destruct (py_index _ _) as [i|] eqn:Hi; [|done].
  intros [= <- <-]. apply py_index_lt in Hi.
  split; [done|]. split; [apply length_alter | by apply sumZ_alter_succ].
Qed.

Lemma pure_count_sample (pts : list Q) (cnt : list Z) (xy : Q * Q) :
  pure_m (count_sample pts cnt xy).
Proof. intros s. unfold count_sample. by case_match. Qed.

Lemma count_loop_Ok (pts : list Q) (l : list (Q * Q)) (cnt cnt' : list Z)
    (s s' : t) :
  foldM (count_sample pts) cnt l s = (Ok cnt', s') →
  s' = s ∧ length cnt' = length cnt ∧
  sumZ cnt' = sumZ cnt + Z.of_nat (length l).
Proof.
  revert cnt s. induction l as [|xy l IH]; intros cnt s Hr.
  - injection Hr as <- <-. split; [done|]. split; [done|]. simpl. lia.
  - simpl in Hr. apply bind_Ok_inv in Hr as (c1 & s1 & H1 & Hr).
    apply count_sample_Ok in H1 as (-> & Hlen & Hsum).
    apply IH in Hr as (-> & Hlen' & Hsum').
    split; [done|]. split; [congruence|]. simpl length. lia.
Qed.

Lemma setdefault_lookup (id j : Z) (s : t) :
  alookup j (setdefault id s).(xyByLane) =
    match alookup j s.(xyByLane) with
    | Some l => Some l
    | None => if decide (j = id) then Some [] else None
    end.
Proof.
  unfold setdefault.
  destruct (alookup id (xyByLane s)) as [l|] eqn:Hid.
  - destruct (alookup j (xyByLane s)) eqn:Hj; [done|].
    destruct (decide (j = id)) as [->|?]; [congruence | done].
  - simpl. destruct (decide (j = id)) as [->|Hne].
    + by rewrite alookup_aset_eq, Hid.
    + rewrite alookup_aset_ne by done. by destruct (alookup j (xyByLane s)).
Qed.

Lemma setdefault_samples (id j : Z) (s : t) :
  samples (setdefault id s) j = samples s j.
Proof.
  unfold samples. rewrite setdefault_lookup.
  destruct (alookup j (xyByLane s)); [done|]. by case_decide.
Qed.

(** The counters of one lane: one for every cell, and they add up to
    the number of samples of the lane. *)
Lemma count_body_Ok (pts : list Q) (n : Z) (cc cc' : gmap Z (list Z))
    (id : Z) (s s' : t) :
  count_body pts n cc id s = (Ok cc', s') →
  s' = setdefault id s ∧
  ∃ cnt, cc' = <[id := cnt]> cc ∧ length cnt = Z.to_nat n ∧
         sumZ cnt = Z.of_nat (length (samples s id)).
Proof.
  unfold count_body. intros Hr.
  inv_bind Hr as u s1 H1. injection H1 as <- <-. fold (setdefault id s) in Hr.
  inv_get Hr.
  inv_pure Hr as l Hl by (apply pure_alookupM).
  inv_bind Hr as cnt s2 Hcnt. injection Hr as <- <-.
  apply count_loop_Ok in Hcnt as (-> & Hlen & Hsum).
  split; [done|]. exists cnt. split; [done|].
  rewrite length_replicate in Hlen. rewrite sumZ_replicate_0 in Hsum.
  split; [done|]. rewrite Hsum, <- (setdefault_samples id id s).
  unfold samples. unfold alookupM in Hl.
  destruct (alookup id (xyByLane (setdefault id s))); [|done].
  injection Hl as ->. simpl. lia.
Qed.

Lemma count_lanes_Ok (pts : list Q) (n : Z) (L : list Z)
    (cc cc' : gmap Z (list Z)) (s s' : t) :
  foldM (count_body pts n) cc L s = (Ok cc', s') →
  (∀ j, alookup j s'.(xyByLane) =
          match alookup j s.(xyByLane) with
          | Some l => Some l
          | None => if decide (j ∈ L) then Some [] else None
          end) ∧
  (∀ j, j ∈ L → ∃ cnt, cc' !! j = Some cnt ∧ length cnt = Z.to_nat n ∧
                       sumZ cnt = Z.of_nat (length (samples s j))) ∧
  (∀ j, j ∉ L → cc' !! j = cc !! j).
Proof.
  revert cc s. induction L as [|x L IH]; intros cc s Hr.
  - injection Hr as <- <-. split; [|split].
    + intros j. destruct (alookup j (xyByLane s)); [done|].
      rewrite decide_False; [done | apply not_elem_of_nil].
    + by intros j ?%elem_of_nil.
    + done.
  - simpl in Hr. apply bind_Ok_inv in Hr as (cc1 & s1 & H1 & Hr).
    apply count_body_Ok in H1 as (-> & cnt & -> & Hlen & Hsum).
    apply IH in Hr as (Hxy & Hin & Hout). split; [|split].
    + intros j. rewrite Hxy, setdefault_lookup.
      destruct (alookup j (xyByLane s)); [done|].
      destruct (decide (j = x)) as [->|Hne].
      * rewrite decide_True; [done | by left].
      * destruct (decide (j ∈ L)) as [HjL|HjL].
        -- rewrite decide_True; [done | by right].
        -- rewrite decide_False; [done|].
           by intros [?|?]%elem_of_cons.
    + intros j Hj. destruct (decide (j ∈ L)) as [HjL|HjL].
      * destruct (Hin j HjL) as (c & ? & ? & Hs).
        rewrite setdefault_samples in Hs. by exists c.
      * apply elem_of_cons in Hj as [->|?]; [|done].
        exists cnt. rewrite (Hout x HjL), lookup_insert_eq. done.
    + intros j Hj. rewrite Hout by (intros ?; apply Hj; by right).
      apply lookup_insert_ne. intros ->. apply Hj. by left.
Qed.

Lemma mapM_Ok_length {S A B} (f : A → M S B) (l : list A) (r : list B)
    (s s' : S) :
  mapM f l s = (Ok r, s') → length r = length l.
Proof.
  revert r s. induction l as [|a l IH]; intros r s Hr.
  - by injection Hr as <- <-.
  - simpl in Hr. apply bind_Ok_inv in Hr as (b & s1 & _ & Hr).
    apply bind_Ok_inv in Hr as (bs & s2 & Hbs & Hr).
    injection Hr as <- <-. simpl. f_equal. by eapply IH.
Qed.

Lemma pure_share_ok (n : Z) (cnt : list Z) (x : Z) : pure_m (share_ok n cnt x).
Proof.
  intros s. unfold share_ok, bind, truediv, ret, raise.
  repeat case_match; simplify_eq /=; done.
Qed.

Lemma pure_mapM {S A B} (f : A → M S B) (l : list A) :
  (∀ a, pure_m (f a)) → pure_m (mapM f l).
Proof.
  intros Hf. induction l as [|a l IH]; intros s; [done|].
  simpl. unfold bind. specialize (Hf a s).
  destruct (f a s) as [[b|e] s1]; simpl in *; subst; [|done].
  specialize (IH s). by destruct (mapM f l s) as [[bs|e] s2].
Qed.

Lemma has_cells_insert (N : nat) (id b : Z) (v : list bool) (s : t) :
  length v = N → has_cells N id s →
  has_cells N id (set_cells (<[b := v]> s.(cells)) s).
Proof.
  intros Hv (cl & Hcl & Hlen). unfold has_cells. simpl.
  destruct (decide (b = id)) as [->|Hne].
  - exists v. by rewrite lookup_insert_eq.
  - exists cl. by rewrite lookup_insert_ne.
Qed.

(** What [valid_body] does to the state: nothing, or one entry of
    [cells] with a flag for each counter. *)
Lemma valid_body_cases (n : Z) (cc : gmap Z (list Z)) (b : Z) (N : nat)
    (s s' : t) (r : result unit) :
  (∀ cnt, cc !! b = Some cnt → length cnt = N) →
  valid_body n cc b s = (r, s') →
  (s' = s ∧ (r = Ok tt → b ∈ s.(emgcIDs))) ∨
  (r = Ok tt ∧ (b ∉ s.(emgcIDs)) ∧
   ∃ v, length v = N ∧ s' = set_cells (<[b := v]> s.(cells)) s).
Proof.
  intros Hcc Hr.
  unfold valid_body, bind, get, lookupM, ret, raise, modify in Hr.
  case_bool_decide as Hin; [injection Hr as <- <-; by left|].
  destruct (cc !! b) as [cnt|] eqn:Hcnt; simpl in Hr;
    [|injection Hr as <- <-; left; by split].
  pose proof (pure_mapM (share_ok n cnt) cnt (pure_share_ok n cnt) s) as Hpure.
  destruct (mapM (share_ok n cnt) cnt s) as [[valid|e] s1] eqn:Hmap;
    simpl in Hpure; subst s1; [|injection Hr as <- <-; left; by split].
  apply mapM_Ok_length in Hmap.
  destruct (vDirDict s !! b) as [dir|]; simpl in Hr;
    [|injection Hr as <- <-; left; by split].
  injection Hr as <- <-.
  right. split; [done|]. split; [done|]. eexists. split; [|reflexivity].
  case_bool_decide; rewrite ?length_reverse, Hmap; by apply Hcc.
Qed.

Lemma valid_body_lanes (n : Z) (cc : gmap Z (list Z)) (b : Z) (E : list Z) :
  preserves (λ s, s.(emgcIDs) = E) (valid_body n cc b).
Proof. frame. Qed.

Lemma valid_body_keeps (n : Z) (cc : gmap Z (list Z)) (b id : Z) (N : nat) :
  (∀ cnt, cc !! b = Some cnt → length cnt = N) →
  preserves (has_cells N id) (valid_body n cc b).
Proof.
  intros Hcc s Hs. destruct (valid_body n cc b s) as [r s'] eqn:Hr.
  apply (valid_body_cases _ _ _ N) in Hr
    as [[-> _] | (_ & _ & v & Hv & ->)]; [done | | done].
  by apply has_cells_insert.
Qed.

Lemma valid_body_Ok (n : Z) (cc : gmap Z (list Z)) (b : Z) (N : nat)
    (s s' : t) :
  (∀ cnt, cc !! b = Some cnt → length cnt = N) →
  valid_body n cc b s = (Ok tt, s') →
  b ∈ s.(emgcIDs) ∨ has_cells N b s'.
Proof.
  intros Hcc Hr.
  apply (valid_body_cases _ _ _ N) in Hr
    as [[-> Hin] | (_ & _ & v & Hv & ->)]; [by left; apply Hin | | done].
  right. exists v. simpl. by rewrite lookup_insert_eq.
Qed.

Section WithAlgorithms.
Context `{Algorithms}.

(** After [_calibCells] every lane has its cells, as many as every
    other lane, and an entry in [xyByLane]. *)
Lemma calibCells_complete (m : Z) (s s' : t) :
  lanes_are [1; m] (seqZ 1 m) s →
  _calibCells s = (Ok tt, s') →
  (∃ N, ∀ id, 1 ≤ id ≤ m → has_cells N id s') ∧
  (∀ j, alookup j s'.(xyByLane) =
          match alookup j s.(xyByLane) with
          | Some l => Some l
          | None => if decide (1 ≤ j ≤ m) then Some [] else None
          end).
Proof.
  intros [He Hl] Hc. unfold _calibCells in Hc.
  inv_get Hc.
  inv_pure Hc as ymin Hymin by (apply pure_indexM).
  inv_pure Hc as ymax Hymax by (apply pure_indexM).
  inv_pure Hc as pts Hpts by (apply pure_lift).
  set (n := Z.of_nat (length pts) - 1) in *.
  inv_bind Hc as cc s1 Hcount.
  pose proof Hcount as Hl1.
  eapply (preserves_inv (lanes_are [1; m] (seqZ 1 m))) in Hl1 as [He1 Hl1];
    [| frame | done].
  rewrite Hl in Hcount.
  apply count_lanes_Ok in Hcount as (Hxy & Hin & Hout).
  assert (∀ b cnt, cc !! b = Some cnt → length cnt = Z.to_nat n) as Hcc.
  { intros b cnt Hb. destruct (decide (b ∈ seqZ 1 m)) as [Hb'|Hb'].
    - destruct (Hin b Hb') as (c & Hc' & Hlen & _). congruence.
    - rewrite (Hout b Hb'), lookup_empty in Hb. done. }
  inv_get Hc. rewrite Hl1 in Hc.
  inv_bind Hc as u s2 Hvalid. destruct u.
  pose proof Hvalid as Hxy2.
  eapply (preserves_inv (λ s, xyByLane s = xyByLane s1)) in Hxy2;
    [| frame | done].
  eapply (forM_establishes (λ s, emgcIDs s = [1; m])
            (λ id s, id ∈ [1; m] ∨ has_cells (Z.to_nat n) id s)) in Hvalid
    as [He2 Hall]; [| | | | done].
  2: { intros b. apply valid_body_lanes. }
  2: { intros a b s0 [HJ HR]. split; [by apply valid_body_lanes|].
       destruct HR as [?|HR]; [by left|]. right.
       apply valid_body_keeps; [apply Hcc | done]. }
  2: { intros a s3 s4 HJ Hr. rewrite <- HJ.
       eapply valid_body_Ok; [apply Hcc | done]. }
  inv_get Hc. rewrite He2 in Hc.
  apply emgc_cells_loop in Hc as ->.
  split.
  - exists (Z.to_nat n). intros id Hid. unfold has_cells. simpl.
    destruct (decide (id = m)) as [->|Hm].
    { eexists. rewrite lookup_insert_eq. split; [done|].
      apply length_replicate. }
    rewrite lookup_insert_ne by done.
    destruct (decide (id = 1)) as [->|H1].
    { eexists. rewrite lookup_insert_eq. split; [done|].
      apply length_replicate. }
    rewrite lookup_insert_ne by done.
    destruct (Hall id) as [Hin' | Hc0]; [apply elem_of_seqZ; lia | | done].
    apply elem_of_cons in Hin' as [?|Hin']; [done|].
    apply elem_of_cons in Hin' as [?|Hin']; [done|].
    by apply elem_of_nil in Hin'.
  - intros j. simpl. rewrite Hxy2, Hxy.
    destruct (alookup j (xyByLane s)); [done|].
    destruct (decide (1 ≤ j ≤ m)) as [Hj|Hj].
    + rewrite decide_True; [done | apply elem_of_seqZ; lia].
    + rewrite decide_False; [done|]. rewrite elem_of_seqZ. lia.
Qed.

End WithAlgorithms.
End CellsFacts.

(** * Further facts about [Calibrator]: after a calibration *)

Module AfterFacts.
Import Calibrator CalibratorFacts CalibratorMore CalibrateEdgeFacts
  SortFacts BoxFacts CompleteFacts CellsFacts.






Lemma pure_save : pure_m save.
Proof.
  intros s.
  assert (preserves (λ s', s' = s) save) as Hp.
  { unfold save. frame. unfold save_body. frame. }
  by apply Hp.
Qed.

(** With a lane that has an entry and no vote counter, a moving target
    on that lane makes [run] raise. *)
Lemma run_raises_unvoted (target : Car.t) (msg : list Car.t) (s : t) :
  is_Some (alookup (lane_of target) s.(xyByLane)) →
  s.(vxyCount) !! lane_of target = None →
  moving target = true →
  ∃ s', run (target :: msg) s = (Raise KeyError, s').
Proof.
  intros [l Hl] Hv Hmove.
  exists (set_xyByLane
            (aset (lane_of target) (l ++ [(Car.x target, Car.y target)])
               s.(xyByLane))
            (set_count (s.(count) + 1) s)).
  unfold run. unfold bind at 1, modify at 1. simpl forM.
  erewrite bind_Raise; [reflexivity|].
  unfold run_body. fold (lane_of target).
  remember (lane_of target) as id eqn:Hid. clear Hid.
  unfold moving in Hmove.
  unfold vote, bind, get, lookupM, alookupM, modify, ret, raise. simpl.
  rewrite Hl. rewrite bool_decide_eq_true_2 by eauto. simpl.
  rewrite Hl. simpl.
  destruct (Qltb 0 (Car.vx target)); [simpl; by rewrite Hv|].
  destruct (Qltb (Car.vx target) 0); [simpl; by rewrite Hv|].
  destruct (Qltb 0 (Car.vy target)); [simpl; by rewrite Hv|].
  destruct (Qltb (Car.vy target) 0); [simpl; by rewrite Hv|]. done.
Qed.

Section WithAlgorithms.
Context `{Algorithms}.

Lemma calibXYMinMax_Ok_inv (s s' : t) :
  _calibXYMinMax s = (Ok tt, s') →
  within [0; 0; 0; 0]%Q s'.(globalXYMinMax) ∧
  ∀ id,
    match alookup id s.(xyByLane) with
    | None => alookup id s'.(xyByLane) = None
    | Some l =>
        l ≠ [] ∧
        ∃ l', alookup id s'.(xyByLane) = Some l' ∧ l' ≡ₚ l ∧ sorted_by snd l'
    end.
Proof.
  intros Hr.
  assert (∀ id l, alookup id s.(xyByLane) = Some l → l ≠ []) as Hne.
  { intros id l Hl ->. destruct (calibXYMinMax_raises id s Hl) as [s'' Hr'].
    congruence. }
  destruct (calibXYMinMax_returns s Hne) as (s'' & Hr' & Hg & Hall).
  rewrite Hr in Hr'. injection Hr' as <-.
  split; [done|]. intros id. specialize (Hall id).
  destruct (alookup id (xyByLane s)) as [l|] eqn:Hl.
  - split; [by eapply Hne|].
    destruct Hall as (l' & b & ? & ? & ? & _). by exists l'.
  - by destruct Hall.
Qed.

(** What a returning [calibrate] leaves. *)
Lemma calibrate_Ok_full (s s' : t) :
  calibrate s = (Ok tt, s') →
  ∃ M N,
    py_max (akeys s.(xyByLane)) = Some M ∧ 2 < pad_even M ∧
    calibrated (pad_even M) N s' ∧
    s'.(vxyCount) = s.(vxyCount) ∧
    ∀ id,
      match alookup id s.(xyByLane) with
      | None =>
          alookup id s'.(xyByLane) =
            if decide (1 ≤ id ≤ pad_even M) then Some [] else None
      | Some l =>
          l ≠ [] ∧
          ∃ l', alookup id s'.(xyByLane) = Some l' ∧ l' ≡ₚ l ∧
                sorted_by snd l'
      end.
Proof.
  intros Hc.
  pose proof (preserves_inv _ _ _ _ _ (calibrate_votes s.(vxyCount))
                eq_refl Hc) as Hvotes.
  apply calibrate_Ok_inv in Hc
    as (s1 & s2 & s3 & s4 & s5 & s6 & H1 & H2 & H3 & H4 & H5 & H6 & H7).
  pose proof H1 as H1'.
  apply step1_Ok_inv in H1' as (M & HM & Hs1).
  set (m := pad_even M) in *.
  assert (lanes_are [1; m] (seqZ 1 m) s1) as Hl1 by (by subst s1).
  pose proof (preserves_inv _ _ _ _ _ (step2_lanes _ _) Hl1 H2) as Hl2.
  pose proof (preserves_inv _ _ _ _ _ (step3_lanes _ _) Hl2 H3) as Hl3.
  pose proof (preserves_inv _ _ _ _ _ (step4_lanes _ _) Hl3 H4) as Hl4.
  pose proof (preserves_inv _ _ _ _ _ (step5_lanes _ _) Hl4 H5) as Hl5.
  pose proof (preserves_inv _ _ _ _ _ (step6_lanes _ _) Hl5 H6) as Hl6.
  pose proof (preserves_inv _ _ _ _ _ (step7_lanes _ _) Hl6 H7) as Hl7.
  destruct (pad_even_spec M) as (Heven & _ & _). fold m in Heven.
  assert (2 < m) as Hm.
  { destruct (decide (2 < m)) as [?|Hle]; [done|].
    destruct Hl2 as [He2 HL2].
    destruct (direction_raises_small m s2 He2 HL2 Heven) as [s3' H3'];
      [lia | congruence]. }
  (* directions *)
  destruct Hl2 as [He2 HL2].
  destruct (direction_Ok_inv m s2 s3 He2 HL2 ltac:(lia) H3)
    as (_ & Hmid & Hd1 & _ & Hdm & _).
  assert (dirs_are s3.(vDirDict) s3.(vxyCount) s3) as Hd3 by done.
  pose proof (preserves_inv _ _ _ _ _ (step4_dirs _ _) Hd3 H4) as Hd4.
  pose proof (preserves_inv _ _ _ _ _ (step5_dirs _ _) Hd4 H5) as Hd5.
  pose proof (preserves_inv _ _ _ _ _ (step6_dirs _ _) Hd5 H6) as Hd6.
  pose proof (preserves_inv _ _ _ _ _ (step7_dirs _ _) Hd6 H7) as [Hd7 _].
  (* samples *)
  assert (results_are s s) as Hr by done.
  assert (preserves (results_are s) _distinguishNormalAndEmgcLanes) as Hp1
    by frame.
  pose proof (preserves_inv _ _ _ _ _ Hp1 Hr H1) as Hr1.
  pose proof (preserves_inv _ _ _ _ _ (step2_results s) Hr1 H2) as Hr2.
  pose proof (preserves_inv _ _ _ _ _ (step3_results s) Hr2 H3)
    as (_ & _ & _ & _ & _ & Hxy3 & _).
  apply calibXYMinMax_Ok_inv in H4 as [Hg4 Hxy4].
  assert (preserves (λ s0, s0.(xyByLane) = s4.(xyByLane) ∧
                           s0.(globalXYMinMax) = s4.(globalXYMinMax))
            _getLaneQuartilesPoints) as Hp5 by frame.
  assert (preserves (λ s0, s0.(xyByLane) = s4.(xyByLane) ∧
                           s0.(globalXYMinMax) = s4.(globalXYMinMax))
            _calculateLanesFunction) as Hp6 by frame.
  pose proof (preserves_inv _ _ _ _ _ Hp5 (conj eq_refl eq_refl) H5) as Hk5.
  pose proof (preserves_inv _ _ _ _ _ Hp6 Hk5 H6) as [Hxy6 Hg6].
  assert (preserves (λ s0, s0.(globalXYMinMax) = s6.(globalXYMinMax) ∧
                           s0.(coef) = s6.(coef)) _calibCells) as Hp7
    by frame.
  pose proof (preserves_inv _ _ _ _ _ Hp7 (conj eq_refl eq_refl) H7)
    as [Hg7 Hc7].
  (* curves and cells *)
  pose proof (coef_Ok_inv m s5 s6 Hl5 H6) as Hcoef.
  destruct (calibCells_complete m s6 s' Hl6 H7) as [[N Hcells] Hxy7].
  exists M, N. split; [done|]. split; [done|].
  destruct Hl7 as [He7 HL7].
  split; [|split; [done|]].
  - split; [done|]. split; [done|].
    split; [by rewrite Hg7, Hg6|].
    intros id Hid. split; [|split; [|split]].
    + rewrite Hd7.
      destruct (decide (id = 1)) as [->|?]; [done|].
      destruct (decide (id = m)) as [->|?]; [done|].
      destruct (Hmid id) as (cnt & _ & ->); [lia | by eexists].
    + unfold has_coef. rewrite Hc7. by apply Hcoef.
    + by apply Hcells.
    + rewrite Hxy7. destruct (alookup id (xyByLane s6)); [by eexists|].
      rewrite decide_True by done. by eexists.
  - intros id. rewrite Hxy7, Hxy6. specialize (Hxy4 id).
    rewrite Hxy3 in Hxy4.
    destruct (alookup id (xyByLane s)) as [l|].
    + destruct Hxy4 as (Hne & l' & -> & Hp & Hs). split; [done|].
      by exists l'.
    + by rewrite Hxy4.
Qed.

End WithAlgorithms.
End AfterFacts.

(** * Further theorems about [Calibrator]: a calibrated road *)

Module KeepFacts.
Import Calibrator CalibratorFacts CalibratorMore CalibrateEdgeFacts
  SortFacts CellsFacts.

Lemma sort_lane_same (s0 : t) (lane : Z) (key : Q * Q → Q) :
  preserves (same_samples s0) (sort_lane lane key).
Proof.
  intros s Hs. unfold sort_lane, bind, get, alookupM, modify, ret, raise.
  destruct (alookup lane (xyByLane s)) as [l|] eqn:Hl; simpl; [|done].
  intros id. destruct (decide (lane = id)) as [<-|Hne].
  - rewrite samples_aset_eq, sort_by_perm, <- (Hs lane).
    unfold samples. by rewrite Hl.
  - rewrite samples_aset_ne by done. apply Hs.
Qed.

Lemma setdefault_same (s0 : t) (id : Z) (s : t) :
  same_samples s0 s → same_samples s0 (setdefault id s).
Proof. intros Hs j. rewrite setdefault_samples. apply Hs. Qed.

Ltac frame_hook ::=
  lazymatch goal with
  | |- preserves (same_samples _) (sort_lane _ _) => apply sort_lane_same
  | |- preserves (same_samples _)
         (modify (λ s, match alookup _ _ with _ => _ end)) =>
      apply preserves_modify, setdefault_same
  end.

Section WithAlgorithms.
Context `{Algorithms}.

Lemma calibrate_same (s0 : t) : preserves (same_samples s0) calibrate.
Proof. frame. Qed.

Lemma calibrate_count (c : Z) : preserves (λ s, s.(count) = c) calibrate.
Proof. frame. Qed.

End WithAlgorithms.

Lemma run_keeps_global (msg : list Car.t) :
  preserves (λ s, s.(globalXYMinMax) = []) (run msg).
Proof. frame. Qed.

Lemma runs_keep_global (frames : list (list Car.t)) (s : t) :
  s.(globalXYMinMax) = [] →
  (foldl (λ s msg, (run msg s).2) s frames).(globalXYMinMax) = [].
Proof.
  revert s. induction frames as [|msg frames IH]; intros s Hs; [done|].
  simpl. apply IH. by apply run_keeps_global.
Qed.

Lemma filter_all {A} (P : A → Prop) `{∀ a, Decision (P a)} (l : list A) :
  Forall P l → filter P l = l.
Proof.
  induction 1 as [|a l Ha Hl IH]; [done|].
  by rewrite filter_cons_True, IH.
Qed.

Lemma filter_none {A} (P : A → Prop) `{∀ a, Decision (P a)} (l : list A) :
  Forall (λ a, ¬ P a) l → filter P l = [].
Proof.
  induction 1 as [|a l Ha Hl IH]; [done|].
  by rewrite filter_cons_False.
Qed.

End KeepFacts.

Module AfterTheorems.
Import Calibrator CalibratorFacts CalibratorMore CalibrateEdgeFacts
  SortFacts BoxFacts CompleteFacts CellsFacts AfterFacts KeepFacts.

Section WithAlgorithms.
Context `{Algorithms}.

(** X14 ([Calibrator.calibrate]).  When [calibrate] returns, the
    calibration is complete.  With [M] the greatest observed lane id
    and [m] the even number it is padded to, [m] is at least 4, the
    lanes are [1..m] with the emergency lanes 1 and [m], and every lane
    has a direction, a curve, cells (as many as every other lane) and
    an entry in [xyByLane]; the global box holds the origin.  The vote
    counters are the ones before.  A lane that had samples had at least
    one and holds the same samples in the order of their [y]; a lane of
    [1..m] without an entry got an empty one. *)
Theorem calibrate_complete (s s' : t) :
  calibrate s = (Ok tt, s') →
  ∃ M N,
    py_max (akeys s.(xyByLane)) = Some M ∧ 2 < pad_even M ∧
    calibrated (pad_even M) N s' ∧
    s'.(vxyCount) = s.(vxyCount) ∧
    ∀ id,
      match alookup id s.(xyByLane) with
      | None =>
          alookup id s'.(xyByLane) =
            if decide (1 ≤ id ≤ pad_even M) then Some [] else None
      | Some l =>
          l ≠ [] ∧
          ∃ l', alookup id s'.(xyByLane) = Some l' ∧ l' ≡ₚ l ∧
                sorted_by snd l'
      end.
Proof. apply calibrate_Ok_full. Qed.


(** X17 ([Calibrator.calibrate]).  Whether it returns or raises,
    [calibrate] neither loses nor invents a sample: every lane holds
    the samples it held, in some order.  It writes neither the vote
    counters nor the frame count. *)
Theorem calibrate_keeps_samples (s : t) (id : Z) :
  samples (calibrate s).2 id ≡ₚ samples s id ∧
  (calibrate s).2.(vxyCount) = s.(vxyCount) ∧
  (calibrate s).2.(count) = s.(count).
Proof.
  split; [|split].
  - assert (same_samples s (calibrate s).2) as Hs
      by (apply calibrate_same; by intros j).
    apply Hs.
  - by apply (calibrate_votes s.(vxyCount) s).
  - by apply (calibrate_count s.(count) s).
Qed.

(** X18 ([Calibrator.calibrate], [Calibrator._calibCells]).  A
    calibration cannot be repeated when a lane of the road had no
    entry in [xyByLane] (an emergency lane without traffic):
    [_calibCells] gave the lane an empty entry, and the next
    [calibrate] raises. *)
Theorem calibrate_twice (s s' : t) (id : Z) :
  calibrate s = (Ok tt, s') →
  id ∈ s'.(laneIDs) → alookup id s.(xyByLane) = None →
  alookup id s'.(xyByLane) = Some [] ∧
  ∃ e s'', calibrate s' = (Raise e, s'').
Proof.
  intros Hc Hid Hnone.
  apply calibrate_Ok_full in Hc as (M & N & _ & _ & (Hl & _) & _ & Hxy).
  specialize (Hxy id). rewrite Hnone in Hxy.
  rewrite Hl in Hid. apply elem_of_seqZ in Hid.
  rewrite decide_True in Hxy by lia.
  split; [done|]. by eapply calibrate_raises_on_empty.
Qed.

(** X19 ([Calibrator.run], [Calibrator._calibCells]).  After a
    returning [calibrate], a frame that starts with a moving target on
    a lane of the road that had neither samples nor votes makes [run]
    raise [KeyError]: the lane has an entry in [xyByLane] by now, so
    [run] does not create its vote counter. *)
Theorem run_after_calibrate (s s' : t) (target : Car.t) (msg : list Car.t) :
  calibrate s = (Ok tt, s') →
  lane_of target ∈ s'.(laneIDs) →
  alookup (lane_of target) s.(xyByLane) = None →
  s.(vxyCount) !! lane_of target = None →
  moving target = true →
  ∃ s'', run (target :: msg) s' = (Raise KeyError, s'').
Proof.
  intros Hc Hid Hnone Hvote Hmove.
  apply calibrate_Ok_full in Hc as (M & N & _ & _ & (Hl & _) & Hv & Hxy).
  specialize (Hxy (lane_of target)). rewrite Hnone in Hxy.
  rewrite Hl in Hid. apply elem_of_seqZ in Hid.
  rewrite decide_True in Hxy by lia.
  apply run_raises_unvoted; [by rewrite Hxy | by rewrite Hv | done].
Qed.

End WithAlgorithms.

(** X16 ([Calibrator.save], [Calibrator.__init__], [Calibrator.run]).
    Before any calibration, [save] raises [IndexError] and leaves the
    calibrator as it is: [globalXYMinMax] is still the empty list of
    the constructor, whatever frames were fed. *)
Theorem save_before_calibrate (clbPath : string)
    (fps laneWidth emgcWidth cellLen qMerge : Q)
    (frames : list (list Car.t)) :
  let s := foldl (λ s msg, (run msg s).2)
             (init clbPath fps laneWidth emgcWidth cellLen qMerge) frames in
  save s = (Raise IndexError, s).
Proof.
  intros s.
  assert (s.(globalXYMinMax) = []) as Hg by (by apply runs_keep_global).
  unfold save, bind, get, indexM. by rewrite Hg.
Qed.

(** X20 ([Calibrator._calibCells]).  A sample below every cut point is
    counted in the last cell: its order is [-1]. *)
Theorem count_sample_below (pts : list Q) (cnt : list Z) (xy : Q * Q)
    (s : t) :
  Forall (λ p, ¬ (p <= xy.2)%Q) pts → cnt ≠ [] →
  count_sample pts cnt xy s =
    (Ok (alter Z.succ (length cnt - 1)%nat cnt), s).
Proof.
  intros Hpts Hne. unfold count_sample.
  rewrite filter_none.
  2: { eapply Forall_impl; [exact Hpts|]. intros p Hp Hle. apply Hp.
       by apply Qle_bool_iff. }
  assert (0 < length cnt)%nat as Hlen by (destruct cnt; [done | simpl; lia]).
  unfold py_index. change (Z.of_nat (length (@nil Q))) with 0.
  rewrite bool_decide_eq_false_2 by lia.
  rewrite bool_decide_eq_true_2 by lia.
  unfold ret. do 3 f_equal. lia.
Qed.

(** X21 ([Calibrator._calibCells]).  A sample at or above every cut
    point, the last one included, raises [IndexError]: with one counter
    for each cell, its order is the number of cells. *)
Theorem count_sample_above (pts : list Q) (cnt : list Z) (xy : Q * Q)
    (s : t) :
  Forall (λ p, (p <= xy.2)%Q) pts →
  length pts = S (length cnt) →
  count_sample pts cnt xy s = (Raise IndexError, s).
Proof.
  intros Hpts Hlen. unfold count_sample.
  rewrite filter_all.
  2: { eapply Forall_impl; [exact Hpts|]. intros p Hp.
       by apply Qle_bool_iff. }
  rewrite Hlen. unfold py_index.
  rewrite bool_decide_eq_false_2 by lia.
  rewrite bool_decide_eq_false_2 by lia.
  done.
Qed.

Lemma calibrate_complete_witness :
  let s' := (@calibrate Toy.algorithms Toy.fed).2 in
  @calibrate Toy.algorithms Toy.fed = (Ok tt, s') ∧
  ∃ M N, py_max (akeys Toy.fed.(xyByLane)) = Some M ∧ 2 < pad_even M ∧
         calibrated (pad_even M) N s'.
Proof.
  intros s'.
  assert (@calibrate Toy.algorithms Toy.fed = (Ok tt, s')) as Hc
    by (by vm_compute).
  split; [exact Hc|].
  destruct (@calibrate_complete Toy.algorithms Toy.fed s' Hc)
    as (M & N & HM & Hm & Hcal & _).
  exists M, N. split; [exact HM|]. split; [exact Hm|]. exact Hcal.
Defined.


Lemma calibrate_twice_witness :
  let s' := (@calibrate Toy.algorithms Toy.fed).2 in
  @calibrate Toy.algorithms Toy.fed = (Ok tt, s') ∧
  1 ∈ s'.(laneIDs) ∧ alookup 1 Toy.fed.(xyByLane) = None ∧
  alookup 1 s'.(xyByLane) = Some [] ∧
  ∃ e s'', @calibrate Toy.algorithms s' = (Raise e, s'').
Proof.
  intros s'.
  assert (@calibrate Toy.algorithms Toy.fed = (Ok tt, s')) as Hc
    by (by vm_compute).
  assert (1 ∈ s'.(laneIDs)) as Hin.
  { set (L := laneIDs s'). vm_compute in L. subst L. apply list_elem_of_here. }
  assert (alookup 1 Toy.fed.(xyByLane) = None) as Hnone by reflexivity.
  split; [exact Hc|]. split; [exact Hin|]. split; [exact Hnone|].
  exact (@calibrate_twice Toy.algorithms Toy.fed s' 1 Hc Hin Hnone).
Defined.

Lemma run_after_calibrate_witness :
  let s' := (@calibrate Toy.algorithms Toy.fed).2 in
  let target := Toy.target 1 0 5 0 20 in
  @calibrate Toy.algorithms Toy.fed = (Ok tt, s') ∧
  moving target = true ∧
  ∃ s'', run [target] s' = (Raise KeyError, s'').
Proof.
  intros s' target.
  assert (@calibrate Toy.algorithms Toy.fed = (Ok tt, s')) as Hc
    by (by vm_compute).
  assert (lane_of target ∈ s'.(laneIDs)) as Hin.
  { set (L := laneIDs s'). vm_compute in L. subst L. apply list_elem_of_here. }
  split; [exact Hc|]. split; [reflexivity|].
  apply (@run_after_calibrate Toy.algorithms Toy.fed s' target [] Hc Hin);
    reflexivity.
Defined.

Lemma count_sample_below_witness :
  count_sample [0; 50; 100]%Q [0; 0] (4, -(5))%Q Toy.fed =
    (Ok [0; 1], Toy.fed).
Proof.
  apply (count_sample_below [0; 50; 100]%Q [0; 0] (4, -(5))%Q Toy.fed).
  - repeat constructor; simpl; lra.
  - done.
Defined.

Lemma count_sample_above_witness :
  count_sample [0; 50; 100]%Q [0; 0] (4, 100)%Q Toy.fed =
    (Raise IndexError, Toy.fed).
Proof.
  apply (count_sample_above [0; 50; 100]%Q [0; 0] (4, 100)%Q Toy.fed).
  - repeat constructor; simpl; lra.
  - reflexivity.
Defined.

End AfterTheorems.

(** * A lane without samples: how [calibrate] fails *)

Module CalibrateFailFacts.
Import Calibrator CalibratorFacts CalibratorMore CalibrateEdgeFacts
  AfterFacts KeepFacts.

(** ** Which exceptions a computation can raise *)

Section Raises.
Context {S : Type}.
Implicit Types E : exn → Prop.

Lemma raises_bind {A B} E (m : M S A) (k : A → M S B) :
  raises_only E m → (∀ a, raises_only E (k a)) → raises_only E (bind m k).
Proof.
  intros Hm Hk s e s'. unfold bind.
  destruct (m s) as [[a|e0] s1] eqn:Hms.
  - apply Hk.
  - intros [= <- <-]. by eapply Hm.
Qed.

Lemma raises_forM {A} E (l : list A) (body : A → M S unit) :
  (∀ a, raises_only E (body a)) → raises_only E (forM l body).
Proof.
  intros Hb. induction l as [|a l IH]; simpl.
  - by intros s e s'.
  - apply raises_bind; auto.
Qed.

Lemma raises_modify E (f : S → S) : raises_only E (modify f).
Proof. by intros s e s'. Qed.

Lemma raises_get E : raises_only E (get : M S S).
Proof. by intros s e s'. Qed.

Lemma raises_ret {A} E (a : A) : raises_only E (ret a : M S A).
Proof. by intros s e s'. Qed.

Lemma raises_raise {A} E (e : exn) : E e → raises_only E (raise e : M S A).
Proof. intros He s e' s' [= <- <-]. exact He. Qed.

Lemma raises_lift {A} E (r : result A) :
  (∀ e, r = Raise e → E e) → raises_only E (lift r : M S A).
Proof. intros Hr s e s' [= -> <-]. by apply Hr. Qed.

Lemma raises_lookupM {V} E (d : gmap Z V) (i : Z) :
  E KeyError → raises_only E (lookupM d i : M S V).
Proof.
  intros He s e s'. unfold lookupM.
  destruct (d !! i); [done|]. intros [= <- <-]. exact He.
Qed.

Lemma raises_alookupM {V} E (d : list (Z * V)) (i : Z) :
  E KeyError → raises_only E (alookupM d i : M S V).
Proof.
  intros He s e s'. unfold alookupM.
  destruct (alookup i d); [done|]. intros [= <- <-]. exact He.
Qed.

Lemma raises_indexM {A} E (l : list A) (i : nat) :
  E IndexError → raises_only E (indexM l i : M S A).
Proof.
  intros He s e s'. unfold indexM.
  destruct (l !! i); [done|]. intros [= <- <-]. exact He.
Qed.

End Raises.

Ltac throws :=
  lazymatch goal with
  | |- raises_only _ (forM _ _) => apply raises_forM; intros; throws
  | |- raises_only _ (bind _ _) =>
      apply raises_bind; [throws | intros; throws]
  | |- raises_only _ (modify _) => apply raises_modify
  | |- raises_only _ get => apply raises_get
  | |- raises_only _ (ret _) => apply raises_ret
  | |- raises_only _ (raise _) => apply raises_raise
  | |- raises_only _ (lift _) => apply raises_lift
  | |- raises_only _ (lookupM _ _) => apply raises_lookupM
  | |- raises_only _ (alookupM _ _) => apply raises_alookupM
  | |- raises_only _ (indexM _ _) => apply raises_indexM
  | |- raises_only _ (if _ then _ else _) => case_match; throws
  | |- raises_only _ (match ?x with _ => _ end) => destruct x eqn:?; throws
  | |- raises_only _ (direction_body _) => unfold direction_body; throws
  | |- raises_only _ (emgc_direction_body _) =>
      unfold emgc_direction_body; throws
  | |- raises_only _ (update_global _ _ _) => unfold update_global; throws
  | |- raises_only _ (firstM _) => unfold firstM; throws
  | |- raises_only _ (lastM _) => unfold lastM; throws
  | |- raises_only _ (sort_lane _ _) => unfold sort_lane; throws
  | |- raises_only _ (minmax_body _) => unfold minmax_body; throws
  | |- raises_only _ (quartile_body _) => unfold quartile_body; throws
  | |- raises_only _ _distinguishLaneDirection =>
      unfold _distinguishLaneDirection; throws
  | |- raises_only _ _calibXYMinMax => unfold _calibXYMinMax; throws
  | |- raises_only _ _getLaneQuartilesPoints =>
      unfold _getLaneQuartilesPoints; throws
  | |- _ => idtac
  end.

Lemma direction_raises_only :
  raises_only (λ e, e = KeyError) _distinguishLaneDirection.
Proof. throws; done. Qed.

Lemma minmax_raises_only :
  raises_only (λ e, e = KeyError ∨ e = IndexError) _calibXYMinMax.
Proof. throws; auto. Qed.

Section WithAlgorithms.
Context `{Algorithms}.

Lemma quartile_raises_only :
  raises_only (λ e, e = KeyError ∨ ∃ l, calQuartiles l = Raise e)
    _getLaneQuartilesPoints.
Proof. throws; eauto. Qed.

Lemma quartile_body_raises (L : Z) (s : t) :
  L ∉ s.(emgcIDs) → alookup L s.(xyByLane) = None →
  quartile_body L s = (Raise KeyError, s).
Proof.
  intros He Hx. unfold quartile_body, bind, get, alookupM.
  by rewrite bool_decide_eq_false_2, Hx.
Qed.

(** The loop of [_getLaneQuartilesPoints] does not get past a lane
    that has no entry in [xyByLane]. *)
Lemma quartile_loop_raises (L : Z) (l : list Z) (s : t) :
  L ∈ l → L ∉ s.(emgcIDs) → alookup L s.(xyByLane) = None →
  ∃ e s', forM l quartile_body s = (Raise e, s').
Proof.
  revert s. induction l as [|x l IH]; intros s HL He Hx.
  - by apply elem_of_nil in HL.
  - simpl. destruct (quartile_body x s) as [[[]|e] s0] eqn:Hb.
    + assert (preserves (λ s0, s0.(emgcIDs) = s.(emgcIDs) ∧
                               s0.(xyByLane) = s.(xyByLane))
                (quartile_body x)) as Hp by frame.
      destruct (preserves_inv _ _ _ _ _ Hp (conj eq_refl eq_refl) Hb)
        as [He0 Hx0].
      assert (L ≠ x) as Hne.
      { intros ->. rewrite quartile_body_raises in Hb by done. done. }
      rewrite (bind_Ok _ _ _ _ _ Hb).
      apply IH; [|by rewrite He0 | by rewrite Hx0].
      by apply elem_of_cons in HL as [?|?].
    + exists e, s0. by rewrite (bind_Raise _ _ _ _ _ Hb).
Qed.

Lemma quartile_raises (m L : Z) (s : t) :
  lanes_are [1; m] (seqZ 1 m) s → 1 < L < m →
  alookup L s.(xyByLane) = None →
  ∃ e s', _getLaneQuartilesPoints s = (Raise e, s').
Proof.
  intros [He Hl] HL Hx.
  destruct (quartile_loop_raises L (seqZ 1 m) (set_polyPts ∅ s))
    as (e & s' & Hr); simpl; [apply elem_of_seqZ; lia | | done |].
  { rewrite He.
    intros [->|[->|?%elem_of_nil]%elem_of_cons]%elem_of_cons; lia. }
  exists e, s'. unfold _getLaneQuartilesPoints.
  unfold bind at 1, modify at 1. unfold bind at 1, get at 1. simpl.
  by rewrite Hl.
Qed.

(* what the first five steps of [calibrate] do not write *)
Lemma step4_record (C : gmap Z (list bool)) (K : gmap Z poly2) :
  preserves (λ s, s.(cells) = C ∧ s.(coef) = K) _calibXYMinMax.
Proof. frame. Qed.

Lemma step5_record (C : gmap Z (list bool)) (K : gmap Z poly2) :
  preserves (λ s, s.(cells) = C ∧ s.(coef) = K) _getLaneQuartilesPoints.
Proof. frame. Qed.

End WithAlgorithms.
End CalibrateFailFacts.

Module CalibrateFailTheorems.
Import Calibrator CalibratorFacts CalibratorMore CalibrateEdgeFacts
  AfterFacts KeepFacts CalibrateFailFacts.

Section WithAlgorithms.
Context `{Algorithms}.

(** C3 (amended). The code has no exception of its own for a lane
    without data.
    In every state, let [M] be the greatest lane id of [xyByLane] and
    [m] the smallest even number that is at least [M]. If a lane [L] of
    [1..m] that is not an emergency lane ([1 < L < m]) has no sample,
    [calibrate] raises: a [KeyError] or an [IndexError] from reading
    the data of a lane that has none, unless one of the helpers [dbi]
    and [calQuartiles] raised first. The failing call is not without
    effect: it has set [laneIDs] to [1..m] and [emgcIDs] to [[1, m]]
    (and it may have written the inner and outer lane, directions,
    boxes and quartile points). It has written neither [cells] nor
    [coef], nor the votes, and every lane holds the samples it held,
    in some order. When, moreover, every lane with a vote counter has
    a sample (as after frames of complete targets), the exception is a
    [KeyError], unless [dbi] raised first, and [polyPts], [xyMinMax],
    [globalXYMinMax] and the samples are as before the call. *)
Theorem calibrate_insufficient_data (s : t) (M m L : Z) :
  M ∈ akeys s.(xyByLane) → (∀ id, id ∈ akeys s.(xyByLane) → id ≤ M) →
  Z.even m = true → M ≤ m ≤ M + 1 →
  1 < L < m → samples s L = [] →
  ∃ e s', calibrate s = (Raise e, s') ∧
    (e = KeyError ∨ e = IndexError ∨
     (∃ l, dbi l = Raise e) ∨ (∃ l, calQuartiles l = Raise e)) ∧
    s'.(laneIDs) = seqZ 1 m ∧ s'.(emgcIDs) = [1; m] ∧
    s'.(cells) = s.(cells) ∧ s'.(coef) = s.(coef) ∧
    s'.(vxyCount) = s.(vxyCount) ∧
    (∀ id, samples s' id ≡ₚ samples s id) ∧
    (voted_have_samples s →
       (e = KeyError ∨ ∃ l, dbi l = Raise e) ∧
       s'.(polyPts) = s.(polyPts) ∧ s'.(xyMinMax) = s.(xyMinMax) ∧
       s'.(globalXYMinMax) = s.(globalXYMinMax) ∧
       s'.(xyByLane) = s.(xyByLane)).
Proof.
  intros HM Hmax Heven Hm HL Hnone.
  apply (CalibratorTheorems.pad_even_unique M m Heven) in Hm. subst m.
  set (m := pad_even M) in *.
  (* whatever the outcome, the votes and the samples are kept *)
  assert (∀ e s', calibrate s = (Raise e, s') →
            s'.(vxyCount) = s.(vxyCount) ∧
            ∀ id, samples s' id ≡ₚ samples s id) as Hkeep.
  { intros e s' Hc. split.
    - exact (preserves_inv _ _ _ _ _ (calibrate_votes s.(vxyCount))
               eq_refl Hc).
    - assert (same_samples s s') as Hs; [|exact Hs].
      eapply (preserves_inv _ _ _ _ _ (calibrate_same s)); [|exact Hc].
      by intros j. }
  (* step 1 *)
  pose proof (step1_returns s M (py_max_spec _ _ HM Hmax)) as H1.
  set (s1 := set_emgcIDs _ _) in H1.
  assert (results_are s s1) as Hr1 by done.
  assert (lanes_are [1; m] (seqZ 1 m) s1) as Hl1 by done.
  (* step 2 *)
  destruct (_distinguishInnerAndOutboardLaneID s1) as [[[]|e] s2] eqn:H2.
  2: { pose proof (preserves_inv _ _ _ _ _ (step2_results s) Hr1 H2)
         as (Hce & Hco & Hpp & Hmm & Hg & Hxy & Hv).
       pose proof (preserves_inv _ _ _ _ _ (step2_lanes _ _) Hl1 H2)
         as [He2 Hl2].
       assert (e = KeyError ∨ ∃ l, dbi l = Raise e) as Hcls
         by (by eapply (inner_outer_raises m s1 s2)).
       assert (calibrate s = (Raise e, s2)) as Hc.
       { unfold calibrate. rewrite (bind_Ok _ _ _ _ _ H1).
         by rewrite (bind_Raise _ _ _ _ _ H2). }
       destruct (Hkeep _ _ Hc) as [_ Hsame].
       exists e, s2. split; [exact Hc|].
       split; [destruct Hcls as [?|?]; auto|].
       repeat (split; [done|]). done. }
  pose proof (preserves_inv _ _ _ _ _ (step2_results s) Hr1 H2) as Hr2.
  pose proof (preserves_inv _ _ _ _ _ (step2_lanes _ _) Hl1 H2) as Hl2.
  (* step 3 *)
  destruct (_distinguishLaneDirection s2) as [[[]|e] s3] eqn:H3.
  2: { pose proof (preserves_inv _ _ _ _ _ (step3_results s) Hr2 H3)
         as (Hce & Hco & Hpp & Hmm & Hg & Hxy & Hv).
       pose proof (preserves_inv _ _ _ _ _ (step3_lanes _ _) Hl2 H3)
         as [He3 Hl3].
       assert (e = KeyError) as -> by exact (direction_raises_only _ _ _ H3).
       assert (calibrate s = (Raise KeyError, s3)) as Hc.
       { unfold calibrate.
         rewrite (bind_Ok _ _ _ _ _ H1), (bind_Ok _ _ _ _ _ H2).
         by rewrite (bind_Raise _ _ _ _ _ H3). }
       destruct (Hkeep _ _ Hc) as [_ Hsame].
       exists KeyError, s3. split; [exact Hc|]. split; [by left|].
       repeat (split; [done|]). intros _. split; [by left | done]. }
  pose proof (preserves_inv _ _ _ _ _ (step3_results s) Hr2 H3) as Hr3.
  pose proof (preserves_inv _ _ _ _ _ (step3_lanes _ _) Hl2 H3) as Hl3.
  (* the directions were found, so the lane [L] has a vote counter *)
  assert (¬ voted_have_samples s) as Hnv.
  { intros Hvoted.
    assert (vxyCount s !! L = None) as Hv.
    { specialize (Hvoted L). destruct (vxyCount s !! L); [|done].
      by destruct Hvoted. }
    destruct Hl2 as [He2 Hl2']. destruct Hr2 as (_ & _ & _ & _ & _ & _ & Hv2).
    destruct (direction_raises m L s2 He2 Hl2' HL) as [s3' H3'];
      [by rewrite Hv2 | congruence]. }
  assert (s3.(cells) = s.(cells) ∧ s3.(coef) = s.(coef)) as Hrec3
    by (destruct Hr3 as (? & ? & _); done).
  (* step 4 *)
  destruct (_calibXYMinMax s3) as [[[]|e] s4] eqn:H4.
  2: { pose proof (preserves_inv _ _ _ _ _ (step4_record _ _) Hrec3 H4)
         as [Hce Hco].
       pose proof (preserves_inv _ _ _ _ _ (step4_lanes _ _) Hl3 H4)
         as [He4 Hl4].
       pose proof (minmax_raises_only _ _ _ H4) as Hcls.
       assert (calibrate s = (Raise e, s4)) as Hc.
       { unfold calibrate.
         rewrite (bind_Ok _ _ _ _ _ H1), (bind_Ok _ _ _ _ _ H2),
           (bind_Ok _ _ _ _ _ H3).
         by rewrite (bind_Raise _ _ _ _ _ H4). }
       destruct (Hkeep _ _ Hc) as [Hv Hsame].
       exists e, s4. split; [exact Hc|].
       split; [destruct Hcls as [?|?]; auto|].
       repeat (split; [done|]). done. }
  pose proof (preserves_inv _ _ _ _ _ (step4_record _ _) Hrec3 H4) as Hrec4.
  pose proof (preserves_inv _ _ _ _ _ (step4_lanes _ _) Hl3 H4) as Hl4.
  (* the boxes were found, so the lane [L] has no entry at all *)
  assert (alookup L s4.(xyByLane) = None) as Hx4.
  { destruct (calibXYMinMax_Ok_inv _ _ H4) as [_ Hxy4].
    specialize (Hxy4 L).
    destruct Hr3 as (_ & _ & _ & _ & _ & Hxy3 & _). rewrite Hxy3 in Hxy4.
    unfold samples in Hnone.
    destruct (alookup L (xyByLane s)) as [l|]; [|done].
    simpl in Hnone. by destruct Hxy4 as [? _]. }
  (* step 5 *)
  destruct (quartile_raises m L s4 Hl4 HL Hx4) as (e & s5 & H5).
  pose proof (preserves_inv _ _ _ _ _ (step5_record _ _) Hrec4 H5)
    as [Hce Hco].
  pose proof (preserves_inv _ _ _ _ _ (step5_lanes _ _) Hl4 H5) as [He5 Hl5].
  pose proof (quartile_raises_only _ _ _ H5) as Hcls.
  assert (calibrate s = (Raise e, s5)) as Hc.
  { unfold calibrate.
    rewrite (bind_Ok _ _ _ _ _ H1), (bind_Ok _ _ _ _ _ H2),
      (bind_Ok _ _ _ _ _ H3), (bind_Ok _ _ _ _ _ H4).
    by rewrite (bind_Raise _ _ _ _ _ H5). }
  destruct (Hkeep _ _ Hc) as [Hv Hsame].
  exists e, s5. split; [exact Hc|].
  split; [destruct Hcls as [?|?]; auto|].
  repeat (split; [done|]). done.
Qed.

End WithAlgorithms.

(* the samples and votes of [Toy.refed] come from [run] on complete
   targets *)
Lemma refed_voted : voted_have_samples Toy.refed.
Proof.
  unfold Toy.refed. apply run_voted. apply calibrate_voted.
  unfold Toy.fed. simpl. do 2 apply run_voted.
  intros id [? Hid]. simpl in Hid. by rewrite lookup_empty in Hid.
Qed.

Lemma calibrate_insufficient_data_witness :
  akeys Toy.refed.(xyByLane) = [2; 3; 1; 4; 5] ∧
  samples Toy.refed 4 = [] ∧
  Toy.refed.(cells) !! 2 ≠ None ∧ Toy.refed.(coef) !! 2 ≠ None ∧
  ∃ e s', @calibrate Toy.algorithms Toy.refed = (Raise e, s') ∧
    s'.(laneIDs) = seqZ 1 6 ∧ s'.(emgcIDs) = [1; 6] ∧
    s'.(cells) = Toy.refed.(cells) ∧ s'.(coef) = Toy.refed.(coef) ∧
    s'.(xyMinMax) = Toy.refed.(xyMinMax) ∧
    s'.(xyByLane) = Toy.refed.(xyByLane).
Proof.
  assert (akeys Toy.refed.(xyByLane) = [2; 3; 1; 4; 5]) as Hk
    by (by vm_compute).
  split; [exact Hk|]. split; [by vm_compute|].
  split; [by vm_compute|]. split; [by vm_compute|].
  destruct (@calibrate_insufficient_data Toy.algorithms Toy.refed 5 6 4)
    as (e & s' & Hc & _ & Hl & He & Hcells & Hcoef & _ & _ & Hvoted).
  - rewrite Hk. do 4 apply list_elem_of_further. apply list_elem_of_here.
  - rewrite Hk. intros id Hid.
    repeat (apply elem_of_cons in Hid as [->|Hid]; [lia|]).
    exfalso. revert Hid. apply not_elem_of_nil.
  - reflexivity.
  - lia.
  - lia.
  - by vm_compute.
  - destruct (Hvoted refed_voted) as (_ & _ & Hmm & _ & Hxy).
    exists e, s'. split; [exact Hc|]. split; [exact Hl|]. split; [exact He|].
    split; [exact Hcells|]. split; [exact Hcoef|].
    split; [exact Hmm | exact Hxy].
Defined.

(** Counterexample to C3 as stated: on [Toy.fed_gap] (lanes 2, 3 and 5
    seen, lane 4 without a sample) [calibrate] raises the [KeyError] of
    the missing vote counter, not an error of its own, and the failing
    call is not without a partial result: it has written the lane ids,
    the emergency lanes, the inner and the outer lane and the
    directions of the lanes 2 and 3. *)
Lemma calibrate_gap_partial :
  samples Toy.fed_gap 4 = [] ∧
  Toy.fed_gap.(laneIDs) = [] ∧ Toy.fed_gap.(emgcIDs) = [] ∧
  Toy.fed_gap.(intID) = None ∧ Toy.fed_gap.(vDirDict) !! 2 = None ∧
  ∃ s', @calibrate Toy.algorithms Toy.fed_gap = (Raise KeyError, s') ∧
    s'.(laneIDs) = [1; 2; 3; 4; 5; 6] ∧ s'.(emgcIDs) = [1; 6] ∧
    s'.(intID) = Some 5 ∧ s'.(extID) = Some 2 ∧
    s'.(vDirDict) !! 2 = Some (XY.mk 1 1) ∧
    s'.(vDirDict) !! 3 = Some (XY.mk 1 (-1)) ∧
    s'.(laneIDs) ≠ Toy.fed_gap.(laneIDs) ∧
    s'.(vDirDict) ≠ Toy.fed_gap.(vDirDict).
Proof.
  split; [reflexivity|]. split; [reflexivity|]. split; [reflexivity|].
  split; [reflexivity|]. split; [reflexivity|].
  exists (@calibrate Toy.algorithms Toy.fed_gap).2.
  split; [by vm_compute|].
  split; [by vm_compute|]. split; [by vm_compute|].
  split; [by vm_compute|]. split; [by vm_compute|].
  split; [by vm_compute|]. split; [by vm_compute|].
  split; [by vm_compute|].
  intros Heq.
  assert ((@calibrate Toy.algorithms Toy.fed_gap).2.(vDirDict) !! 2 =
          Toy.fed_gap.(vDirDict) !! 2) as H2 by (by rewrite Heq).
  vm_compute in H2. discriminate H2.
Qed.

(** Why the last part of C3 needs its hypothesis: on [Toy.stray],
    where the lane 4 has a vote counter and no sample, [calibrate]
    raises [IndexError] in [_calibXYMinMax], after the boxes of the
    lanes 2, 3 and 5 were written. *)
Lemma calibrate_stray_vote :
  samples Toy.stray 4 = [] ∧
  Toy.stray.(vxyCount) !! 4 = Some (XY.mk 0 0) ∧
  Toy.stray.(globalXYMinMax) = [] ∧
  ∃ s', @calibrate Toy.algorithms Toy.stray = (Raise IndexError, s') ∧
    s'.(xyMinMax) !! 5 ≠ None ∧ length s'.(globalXYMinMax) = 4%nat ∧
    s'.(cells) = Toy.stray.(cells) ∧ s'.(coef) = Toy.stray.(coef).
Proof.
  split; [by vm_compute|]. split; [by vm_compute|]. split; [reflexivity|].
  exists (@calibrate Toy.algorithms Toy.stray).2.
  split; [by vm_compute|]. split; [by vm_compute|].
  split; [by vm_compute|]. split; by vm_compute.
Qed.

End CalibrateFailTheorems.
